(** * lexe-core privacy pipeline: a shallow embedding and its verification

    The development follows the Python package [lexe.privacy]:

    - [Py]           the Python built-ins the package calls ([str] methods,
                     slicing, [re.sub], [sorted], exceptions);
    - [Sha256]       [hashlib.sha256] (FIPS 180-4), used by the cache keys;
    - [base_pipeline], [filters], [cf_recognizer], [piva_recognizer],
      [strategies], [orchestrator], [cache_manager], [selector]
                     one module per source file, names as in the source.

    Texts are sequences of Unicode code points ([list N]).  What depends on
    the Unicode character database ([str.lower], [str.upper], [str.isdigit],
    [int], [unicodedata.normalize]) is a parameter of the development (class
    [UnicodeDB]); the instance [latin1] gives these operations on U+0000 ..
    U+00FF and is used to run the code on concrete inputs. *)

From Stdlib Require Import ZArith NArith QArith Qabs Lia String Ascii
  DecimalString DecimalNat SpecFloat.
From stdpp Require Import base option list gmap strings sorting.

#[local] Open Scope nat_scope.
#[local] Open Scope list_scope.

(* ===================================================================== *)
(** * Python built-ins *)
(* ===================================================================== *)

Module Py.

Declare Scope py_scope.

(** A [str] is a sequence of code points. *)
Abbreviation char := N.
Abbreviation pystr := (list N).

(** A literal of the source (ASCII only). *)
Definition str (s : string) : pystr :=
  map N_of_ascii (list_ascii_of_string s).

(** Values of type [Any] that the modelled code stores. *)
#[warnings="-register-all"]
Inductive Any : Type :=
| PyNone
| PyBool (b : bool)
| PyStr (s : pystr)
| PyNum (q : Q)
| PyDict (d : list (string * Any)).

(** A [Dict[str, Any]], in insertion order; [d[k] = v] keeps the place of a
    key that is already there. *)
Abbreviation dict := (list (string * Any)).

Fixpoint dict_get {V} (d : list (string * V)) (k : string) : option V :=
  match d with
  | [] => None
  | (k', v) :: d' => if String.eqb k' k then Some v else dict_get d' k
  end.

Fixpoint dict_set {V} (d : list (string * V)) (k : string) (v : V)
    : list (string * V) :=
  match d with
  | [] => [(k, v)]
  | (k', v') :: d' =>
      if String.eqb k' k then (k', v) :: d' else (k', v') :: dict_set d' k v
  end.

(** Exceptions raised by the modelled code. *)
Inductive Exn : Type :=
| ValueError (msg : string)
| KeyError (key : string)
| IndexError (msg : string)
| TypeError (msg : string)
| EngineError (msg : string)
| ZeroDivisionError (msg : string)
| OverflowError (msg : string).

(** A computation that returns or raises. *)
Definition result (A : Type) : Type := Exn + A.

Definition raise {A} (e : Exn) : result A := inl e.

Definition ret {A} (x : A) : result A := inr x.

Definition bind {A B} (m : result A) (f : A -> result B) : result B :=
  match m with inl e => inl e | inr x => f x end.

Notation "x <- m ;; k" := (bind m (fun x => k))
  (at level 100, m at next level, right associativity) : py_scope.
#[local] Open Scope py_scope.

(** [len(s)] *)
Abbreviation len := (@length N).

(** [s[:n]] for an [int] [n]: a negative bound counts from the end. *)
Definition slice_to (s : pystr) (n : Z) : pystr :=
  if (n <? 0)%Z then take (length s - Z.to_nat (- n)) s
  else take (Z.to_nat n) s.

(** [s[a:b]] for [0 <= a], [0 <= b]. *)
Definition slice (s : pystr) (a b : nat) : pystr := take (b - a) (drop a s).

(** [str.isspace] of one character: CPython's [_PyUnicode_IsWhitespace];
    this is also the class [\s] of [re] on [str] patterns. *)
Definition isspace (c : char) : bool :=
  ((9 <=? c) && (c <=? 13) || (28 <=? c) && (c <=? 32)
   || (c =? 133) || (c =? 160) || (c =? 5760)
   || (8192 <=? c) && (c <=? 8202) || (c =? 8232) || (c =? 8233)
   || (c =? 8239) || (c =? 8287) || (c =? 12288))%N.

Definition NL : char := 10%N.
Definition SP : char := 32%N.
Definition TAB : char := 9%N.

Fixpoint dropwhile (p : char -> bool) (s : pystr) : pystr :=
  match s with
  | [] => []
  | c :: t => if p c then dropwhile p t else s
  end.

Fixpoint takewhile (p : char -> bool) (s : pystr) : pystr :=
  match s with
  | [] => []
  | c :: t => if p c then c :: takewhile p t else []
  end.

(** [s.lstrip()], [s.rstrip()], [s.strip()] *)
Definition lstrip (s : pystr) : pystr := dropwhile isspace s.
Definition rstrip (s : pystr) : pystr := rev (dropwhile isspace (rev s)).
Definition strip (s : pystr) : pystr := rstrip (lstrip s).

(** [s.startswith(p)] *)
Fixpoint startswith (p s : pystr) : bool :=
  match p, s with
  | [], _ => true
  | _ :: _, [] => false
  | a :: p', b :: s' => (a =? b)%N && startswith p' s'
  end.

(** [p in s] *)
Fixpoint contains (p s : pystr) : bool :=
  startswith p s ||
  match s with
  | [] => false
  | _ :: s' => contains p s'
  end.

(** [s.index(c)] for a character [c]. *)
Fixpoint index (c : char) (s : pystr) : result nat :=
  match s with
  | [] => raise (ValueError "substring not found")
  | a :: t => if (a =? c)%N then ret 0 else (n <- index c t ;; ret (S n))
  end.

(** [s[i]] *)
Definition getitem (s : pystr) (i : nat) : result char :=
  match s !! i with
  | Some c => ret c
  | None => raise (IndexError "string index out of range")
  end.

(** A matcher tells how many characters a pattern consumes at the start of
    a text ([None]: no match here).  [re.sub] and [str.replace] scan the
    text from the left; at a position where the pattern matches a non-empty
    text they emit the replacement and jump behind the match, elsewhere they
    copy one character. [skip] counts the characters of a match still to be
    jumped over. *)
Fixpoint sub_from (m : pystr -> option nat) (repl : pystr) (skip : nat)
    (s : pystr) : pystr :=
  match s with
  | [] => []
  | c :: t =>
      match skip with
      | S k => sub_from m repl k t
      | O =>
          match m s with
          | Some (S k) => repl ++ sub_from m repl k t
          | _ => c :: sub_from m repl 0 t
          end
      end
  end.

Definition re_sub (m : pystr -> option nat) (repl s : pystr) : pystr :=
  sub_from m repl 0 s.

(** The matcher of a literal, and [s.replace(old, new)] ([old] not empty). *)
Definition match_literal (p : pystr) (s : pystr) : option nat :=
  if startswith p s then Some (length p) else None.

Definition replace (old new s : pystr) : pystr :=
  re_sub (match_literal old) new s.

(** [str(n)] for an [int] [n >= 0]. *)
Definition str_of_nat (n : nat) : pystr :=
  str (NilZero.string_of_uint (Nat.to_uint n)).

(** [chr(n)] *)
Definition chr (n : nat) : char := N.of_nat n.

(** [sorted(l, key=key, reverse=True)]: stable, so elements with equal keys
    keep their order: an element is put before the elements of the sorted
    rest (which came after it) whose key is not larger. *)
Fixpoint insert_desc {A} (key : A -> nat) (x : A) (l : list A) : list A :=
  match l with
  | [] => [x]
  | y :: l' =>
      if key y <=? key x then x :: l else y :: insert_desc key x l'
  end.

Definition sorted_desc {A} (key : A -> nat) (l : list A) : list A :=
  foldr (insert_desc key) [] l.

End Py.

Export Py.
#[local] Open Scope py_scope.

(** The part of the Unicode character database the package depends on. *)
Class UnicodeDB : Type := {
  (** [str.lower], [str.upper] *)
  lower : pystr -> pystr;
  upper : pystr -> pystr;
  (** [str.isdigit] of one character, and [int] of a one-character string *)
  isdigit_char : char -> bool;
  int_of_char : char -> option nat;
  (** [unicodedata.normalize('NFC', _)] *)
  normalize_NFC : pystr -> pystr;
  (** the simple case mappings of one character, which [re] uses under
      [re.IGNORECASE], and [str.isalnum] of one character *)
  tolower_char : char -> char;
  toupper_char : char -> char;
  isalnum_char : char -> bool
}.

(* ===================================================================== *)
(** * re: the patterns of the package, under re.IGNORECASE *)
(* ===================================================================== *)

Module sre.

Section with_unicode.
Context {U : UnicodeDB}.

#[local] Open Scope N_scope.

(** A pattern: a literal character, a class or category of characters
    ([[...]], [\s], [\w]), a sequence, a greedy [(?:r)?], and a greedy [c+]
    of a class. *)
Inductive regex : Type :=
| Eps
| Lit (p : char)
| Class (f : char -> bool)
| Cat (r1 r2 : regex)
| Opt (r : regex)
| Plus (f : char -> bool).

(** [_sre.unicode_iscased] *)
Definition iscased (c : char) : bool :=
  negb (c =? tolower_char c) || negb (c =? toupper_char c).

(** The table of extra cases of the compiler: the characters below U+0200
    that have the same capital as another lower-case character (i and
    dotless i, s and long s, the micro sign and mu). *)
Definition extra_cases (lo : char) : list char :=
  if lo =? 105 then [305]
  else if lo =? 115 then [383]
  else if lo =? 181 then [956]
  else if lo =? 305 then [105]
  else if lo =? 383 then [115]
  else [].

(** A literal [p] of a pattern compiled with [re.IGNORECASE] against the
    character [c]: a literal without case is compared as it is; otherwise
    the lower case of [c] is looked for among the lower case of [p] and its
    extra cases. *)
Definition literal_matches (p c : char) : bool :=
  if iscased p then
    let lo := tolower_char p in
    existsb (N.eqb (tolower_char c)) (lo :: extra_cases lo)
  else c =? p.

(** [c+] behind its first character: as many characters as possible, and
    one fewer each time the rest of the pattern fails. *)
Fixpoint greedy {A} (f : char -> bool) (k : pystr -> option A) (s : pystr)
    : option A :=
  match s with
  | c :: t =>
      if f c then
        match greedy f k t with
        | Some x => Some x
        | None => k s
        end
      else k s
  | [] => k s
  end.

(** The backtracking matcher at the start of [s]; [k] is the rest of the
    pattern. *)
Fixpoint matches {A} (r : regex) (k : pystr -> option A) (s : pystr)
    : option A :=
  match r with
  | Eps => k s
  | Lit p =>
      match s with
      | c :: t => if literal_matches p c then k t else None
      | [] => None
      end
  | Class f =>
      match s with
      | c :: t => if f c then k t else None
      | [] => None
      end
  | Cat r1 r2 => matches r1 (matches r2 k) s
  | Opt r =>
      match matches r k s with
      | Some x => Some x
      | None => k s
      end
  | Plus f =>
      match s with
      | c :: t => if f c then greedy f k t else None
      | [] => None
      end
  end.

(** The text a pattern matches at the start of [s]. *)
Definition match_at (r : regex) (s : pystr) : option pystr :=
  match matches r (fun rest => Some (length rest)) s with
  | Some n => Some (take (length s - n) s)
  | None => None
  end.

(** [re.search(r, s, re.IGNORECASE)]: the match at the first position that
    has one ([m.group(0)]). *)
Fixpoint search (r : regex) (s : pystr) : option pystr :=
  match match_at r s with
  | Some m => Some m
  | None =>
      match s with
      | [] => None
      | _ :: t => search r t
      end
  end.

(** A sequence of patterns, and the literal characters of a text. *)
Definition seq (rs : list regex) : regex := foldr Cat Eps rs.
Definition text (p : pystr) : regex := seq (map Lit p).

(** [\s] and [[\w\s]] *)
Definition space : char -> bool := isspace.
Definition word_or_space (c : char) : bool :=
  isalnum_char c || (c =? 95) || isspace c.

End with_unicode.

End sre.

(* ===================================================================== *)
(** * hashlib.sha256 *)
(* ===================================================================== *)

Module Sha256.

#[local] Open Scope N_scope.

Definition w32 (x : N) : N := x mod 4294967296.
Definition add32 (x y : N) : N := w32 (x + y).
Definition rotr (n x : N) : N :=
  N.lor (N.shiftr x n) (w32 (N.shiftl x (32 - n))).
Definition not32 (x : N) : N := N.lxor x 4294967295.

Definition Ch (x y z : N) : N := N.lxor (N.land x y) (N.land (not32 x) z).
Definition Maj (x y z : N) : N :=
  N.lxor (N.lxor (N.land x y) (N.land x z)) (N.land y z).
Definition Sigma0 (x : N) : N :=
  N.lxor (N.lxor (rotr 2 x) (rotr 13 x)) (rotr 22 x).
Definition Sigma1 (x : N) : N :=
  N.lxor (N.lxor (rotr 6 x) (rotr 11 x)) (rotr 25 x).
Definition sigma0 (x : N) : N :=
  N.lxor (N.lxor (rotr 7 x) (rotr 18 x)) (N.shiftr x 3).
Definition sigma1 (x : N) : N :=
  N.lxor (N.lxor (rotr 17 x) (rotr 19 x)) (N.shiftr x 10).

(** The constants of the standard: the first 32 bits of the fractional
    parts of the cube roots of the first 64 primes ([K]) and of the square
    roots of the first 8 primes ([H0]). *)
Definition is_prime (n : nat) : bool :=
  forallb (fun d => negb (n mod d =? 0)%nat) (seq 2 (n - 2)).

Definition primes (k : nat) : list N :=
  map N.of_nat (take k (List.filter is_prime (seq 2 400))).

(** The largest [r < 2 ^ bits] above [acc] with [r ^ 3 <= x]. *)
Fixpoint cube_root (bits : nat) (x acc : N) : N :=
  match bits with
  | O => acc
  | S b =>
      let r := acc + 2 ^ N.of_nat b in
      if r * r * r <=? x then cube_root b x r else cube_root b x acc
  end.

Definition K : list N :=
  Eval vm_compute in
    map (fun p => w32 (cube_root 40 (p * 2 ^ 96) 0)) (primes 64).

Definition H0 : list N :=
  Eval vm_compute in map (fun p => w32 (N.sqrt (p * 2 ^ 64))) (primes 8).

(** Big-endian bytes of a number, [k] of them. *)
Fixpoint be_bytes (k : nat) (x : N) : list N :=
  match k with
  | O => []
  | S k' => (N.shiftr x (8 * N.of_nat k')) mod 256 :: be_bytes k' x
  end.

Definition be_word (bs : list N) : N :=
  fold_left (fun acc b => acc * 256 + b) bs 0.

(** The message followed by 0x80, zero bytes up to 56 mod 64, and its length
    in bits on eight bytes. *)
Definition pad (msg : list N) : list N :=
  let l := N.of_nat (length msg) in
  let zeros := N.to_nat ((55 + 64 - l mod 64) mod 64) in
  msg ++ 128 :: repeat 0 zeros ++ be_bytes 8 (8 * l).

Fixpoint chunks (n : nat) (size : nat) (bs : list N) : list (list N) :=
  match n with
  | O => []
  | S n' => take size bs :: chunks n' size (drop size bs)
  end.

(** The message schedule: [win] holds the last sixteen words. *)
Fixpoint schedule (n : nat) (win : list N) : list N :=
  match n with
  | O => []
  | S n' =>
      let w := add32 (add32 (sigma1 (nth 14 win 0)) (nth 9 win 0))
                     (add32 (sigma0 (nth 1 win 0)) (nth 0 win 0)) in
      w :: schedule n' (drop 1 win ++ [w])
  end.

Definition round (st : list N) (kw : N * N) : list N :=
  match st with
  | [a; b; c; d; e; f; g; h] =>
      let t1 := add32 (add32 (add32 h (Sigma1 e)) (add32 (Ch e f g) kw.1)) kw.2 in
      let t2 := add32 (Sigma0 a) (Maj a b c) in
      [add32 t1 t2; a; b; c; add32 d t1; e; f; g]
  | _ => st
  end.

Definition compress (h : list N) (block : list N) : list N :=
  let w16 := map be_word (chunks 16 4 block) in
  let w := w16 ++ schedule 48 w16 in
  let st := fold_left round (zip K w) h in
  zip_with add32 h st.

Definition digest (msg : list N) : list N :=
  let p := pad msg in
  let h := fold_left compress (chunks (length p / 64) 64 p) H0 in
  flat_map (be_bytes 4) h.

Definition hex_digit (d : N) : N :=
  if d <? 10 then 48 + d else 87 + d.

(** [hashlib.sha256(data).hexdigest()] *)
Definition hexdigest (msg : list N) : pystr :=
  flat_map (fun b => [hex_digit (b / 16); hex_digit (b mod 16)]) (digest msg).

End Sha256.

(** [str.encode()]: UTF-8; a surrogate cannot be encoded. *)
Definition encode_char (c : char) : result (list N) :=
  (if c <? 128 then ret [c]
   else if c <? 2048 then ret [192 + c / 64; 128 + c mod 64]
   else if (55296 <=? c) && (c <? 57344) then
     raise (ValueError "surrogates not allowed")
   else if c <? 65536 then
     ret [224 + c / 4096; 128 + (c / 64) mod 64; 128 + c mod 64]
   else
     ret [240 + c / 262144; 128 + (c / 4096) mod 64;
           128 + (c / 64) mod 64; 128 + c mod 64])%N.

Fixpoint encode (s : pystr) : result (list N) :=
  match s with
  | [] => ret []
  | c :: t => b <- encode_char c ;; r <- encode t ;; ret (b ++ r)
  end.

Example sha256_abc :
  Sha256.hexdigest (str "abc")
  = str "ba7816bf8f01cfea414140de5dae2223b00361a396177a9cb410ff61f20015ad".
Proof. vm_compute. reflexivity. Qed.

(* ===================================================================== *)
(** * hashlib.sha1 and hashlib.md5 *)
(* ===================================================================== *)

Module Sha1.

Import Sha256.
#[local] Open Scope N_scope.

Definition rotl (n x : N) : N :=
  N.lor (w32 (N.shiftl x n)) (N.shiftr x (32 - n)).

(** The initial state, and the round constants: [2 ^ 30] times the square
    roots of 2, 3, 5 and 10. *)
Definition H0 : list N :=
  [1732584193; 4023233417; 2562383102; 271733878; 3285377520].

Definition K : list N :=
  Eval vm_compute in map (fun k => N.sqrt (k * 2 ^ 60)) [2; 3; 5; 10].

(** The message schedule: [win] holds the last sixteen words. *)
Fixpoint schedule (n : nat) (win : list N) : list N :=
  match n with
  | O => []
  | S n' =>
      let w :=
        rotl 1 (N.lxor (N.lxor (nth 13 win 0) (nth 8 win 0))
                       (N.lxor (nth 2 win 0) (nth 0 win 0))) in
      w :: schedule n' (drop 1 win ++ [w])
  end.

Definition f (t : nat) (b c d : N) : N :=
  if (t <? 20)%nat then Ch b c d
  else if (t <? 40)%nat then N.lxor (N.lxor b c) d
  else if (t <? 60)%nat then Maj b c d
  else N.lxor (N.lxor b c) d.

Definition round (st : list N) (tw : nat * N) : list N :=
  match st with
  | [a; b; c; d; e] =>
      let temp :=
        add32 (add32 (add32 (rotl 5 a) (f tw.1 b c d))
                     (add32 e (nth (tw.1 / 20) K 0)))
              tw.2 in
      [temp; a; rotl 30 b; c; d]
  | _ => st
  end.

Definition compress (h : list N) (block : list N) : list N :=
  let w16 := map be_word (chunks 16 4 block) in
  let w := w16 ++ schedule 64 w16 in
  let st := fold_left round (zip (seq 0 80) w) h in
  zip_with add32 h st.

Definition digest (msg : list N) : list N :=
  let p := pad msg in
  let h := fold_left compress (chunks (length p / 64) 64 p) H0 in
  flat_map (be_bytes 4) h.

(** [hashlib.sha1(data).hexdigest()] *)
Definition hexdigest (msg : list N) : pystr :=
  flat_map (fun b => [hex_digit (b / 16); hex_digit (b mod 16)]) (digest msg).

End Sha1.

Module Md5.

Import Sha256.
#[local] Open Scope Z_scope.

(** Sines in fixed point, [2 ^ 100] to the unit: [sin 1] and [cos 1] from
    their series, the others by the addition formulas. *)
Definition unit_ : Z := 2 ^ 100.

Fixpoint series (n : nat) (k : Z) (term acc : Z) : Z :=
  match n with
  | O => acc
  | S n' =>
      let term' := - term / ((k + 1) * (k + 2)) in
      series n' (k + 2) term' (acc + term')
  end.

Definition sin1 : Z := Eval vm_compute in series 30 1 unit_ unit_.
Definition cos1 : Z := Eval vm_compute in series 30 0 unit_ unit_.

Fixpoint sines (n : nat) (s c : Z) : list Z :=
  match n with
  | O => []
  | S n' =>
      s :: sines n' ((s * cos1 + c * sin1) / unit_)
                    ((c * cos1 - s * sin1) / unit_)
  end.

(** The constants of the rounds: the integer parts of [2 ^ 32 |sin i|] for
    [i] from 1 to 64. *)
Definition K : list N :=
  Eval vm_compute in
    map (fun s => Z.to_N (Z.abs s * 2 ^ 32 / unit_)) (sines 64 sin1 cos1).

(** The rotation of each round. *)
Definition S : list N :=
  (concat (repeat [7; 12; 17; 22] 4) ++ concat (repeat [5; 9; 14; 20] 4)
   ++ concat (repeat [4; 11; 16; 23] 4)
   ++ concat (repeat [6; 10; 15; 21] 4))%N.

#[local] Open Scope N_scope.

Definition H0 : list N := [1732584193; 4023233417; 2562383102; 271733878].

(** Little-endian bytes of a number, [k] of them. *)
Definition le_bytes (k : nat) (x : N) : list N := rev (be_bytes k x).
Definition le_word (bs : list N) : N := be_word (rev bs).

(** The message followed by 0x80, zero bytes up to 56 mod 64, and its length
    in bits on eight bytes, the low byte first. *)
Definition pad (msg : list N) : list N :=
  let l := N.of_nat (length msg) in
  let zeros := N.to_nat ((55 + 64 - l mod 64) mod 64) in
  msg ++ 128 :: repeat 0 zeros ++ le_bytes 8 ((8 * l) mod 2 ^ 64).

Definition round (m : list N) (st : list N) (i : nat) : list N :=
  match st with
  | [a; b; c; d] =>
      let '(f, g) :=
        if (i <? 16)%nat then (Ch b c d, i)
        else if (i <? 32)%nat then (Ch d b c, (5 * i + 1) mod 16)%nat
        else if (i <? 48)%nat
        then (N.lxor (N.lxor b c) d, (3 * i + 5) mod 16)%nat
        else (N.lxor c (N.lor b (not32 d)), (7 * i) mod 16)%nat in
      let f := add32 (add32 f a) (add32 (nth i K 0) (nth g m 0)) in
      [d; add32 b (Sha1.rotl (nth i S 0) f); b; c]
  | _ => st
  end.

Definition compress (h : list N) (block : list N) : list N :=
  let m := map le_word (chunks 16 4 block) in
  let st := fold_left (round m) (seq 0 64) h in
  zip_with add32 h st.

Definition digest (msg : list N) : list N :=
  let p := pad msg in
  let h := fold_left compress (chunks (length p / 64) 64 p) H0 in
  flat_map (le_bytes 4) h.

(** [hashlib.md5(data).hexdigest()] *)
Definition hexdigest (msg : list N) : pystr :=
  flat_map (fun b => [hex_digit (b / 16); hex_digit (b mod 16)]) (digest msg).

End Md5.

Example sha1_abc :
  Sha1.hexdigest (str "abc")
  = str "a9993e364706816aba3e25717850c26c9cd0d89d".
Proof. vm_compute. reflexivity. Qed.

Example md5_abc :
  Md5.hexdigest (str "abc") = str "900150983cd24fb0d6963f7d28e17f72".
Proof. vm_compute. reflexivity. Qed.

(* ===================================================================== *)
(** * pipeline/base_pipeline.py *)
(* ===================================================================== *)

Module base_pipeline.

(** [class EntityType(Enum)] *)
Inductive EntityType : Set :=
| PERSON | ORGANIZATION | LOCATION | DATE
| FISCAL_CODE | VAT_NUMBER
| EMAIL | PHONE | ADDRESS
| COURT | JUDGE | LAWYER
| ID_CARD | PASSPORT | IBAN
| OTHER.

(** [EntityType.value] *)
Definition value (t : EntityType) : pystr :=
  str match t with
      | PERSON => "PERSON" | ORGANIZATION => "ORG" | LOCATION => "LOC"
      | DATE => "DATE" | FISCAL_CODE => "CF" | VAT_NUMBER => "PIVA"
      | EMAIL => "EMAIL" | PHONE => "PHONE" | ADDRESS => "ADDRESS"
      | COURT => "COURT" | JUDGE => "JUDGE" | LAWYER => "LAWYER"
      | ID_CARD => "ID_CARD" | PASSPORT => "PASSPORT" | IBAN => "IBAN"
      | OTHER => "OTHER"
      end.

#[global] Instance EntityType_eq_dec : EqDecision EntityType.
Proof. solve_decision. Defined.

Definition EntityType_to_nat (t : EntityType) : nat :=
  match t with
  | PERSON => 0 | ORGANIZATION => 1 | LOCATION => 2 | DATE => 3
  | FISCAL_CODE => 4 | VAT_NUMBER => 5 | EMAIL => 6 | PHONE => 7
  | ADDRESS => 8 | COURT => 9 | JUDGE => 10 | LAWYER => 11
  | ID_CARD => 12 | PASSPORT => 13 | IBAN => 14 | OTHER => 15
  end.

Definition EntityType_of_nat (n : nat) : EntityType :=
  match n with
  | 0 => PERSON | 1 => ORGANIZATION | 2 => LOCATION | 3 => DATE
  | 4 => FISCAL_CODE | 5 => VAT_NUMBER | 6 => EMAIL | 7 => PHONE
  | 8 => ADDRESS | 9 => COURT | 10 => JUDGE | 11 => LAWYER
  | 12 => ID_CARD | 13 => PASSPORT | 14 => IBAN | _ => OTHER
  end.

#[global] Instance EntityType_countable : Countable EntityType.
Proof.
  apply (inj_countable' EntityType_to_nat EntityType_of_nat).
  intros []; reflexivity.
Defined.

(** [@dataclass class DetectedEntity]: [start], [end] are offsets into the
    text that detection ran on; [__post_init__] refuses [start < 0] (no such
    [nat]), [end <= start] and a confidence outside [0, 1]. *)
Record DetectedEntity : Type := {
  text : pystr;
  type : EntityType;
  start : nat;
  end_ : nat;
  confidence : Q;
  context_before : option pystr;
  context_after : option pystr;
  metadata : dict
}.

Definition post_init (e : DetectedEntity) : result DetectedEntity :=
  if end_ e <=? start e then raise (ValueError "Invalid entity position")
  else if negb (Qle_bool 0 (confidence e) && Qle_bool (confidence e) 1)
  then raise (ValueError "Confidence must be between 0 and 1")
  else ret e.

(** [@dataclass class PipelineResult] (the clock reading
    [processing_time_ms] is not modelled). *)
Record PipelineResult : Type := {
  original_text : pystr;
  anonymized_text : pystr;
  entities : list DetectedEntity;
  success : bool;
  error_message : option string;
  result_metadata : dict
}.

(** [str(e)] of an exception. *)
Definition exn_str (e : Exn) : string :=
  match e with
  | ValueError m | KeyError m | IndexError m | TypeError m | EngineError m
  | ZeroDivisionError m | OverflowError m => m
  end.

(** [DetectedEntity.get_length()] *)
Definition get_length (e : DetectedEntity) : Z :=
  (Z.of_nat (end_ e) - Z.of_nat (start e))%Z.

(** [PipelineResult.get_entity_count()] *)
Definition get_entity_count (r : PipelineResult) : nat :=
  length (entities r).

(** [PipelineResult.get_entities_by_type(entity_type)] *)
Definition get_entities_by_type (r : PipelineResult)
    (entity_type : EntityType) : list DetectedEntity :=
  List.filter (fun e => bool_decide (type e = entity_type)) (entities r).

(** The loop of [get_entity_types]:
    [counts[entity.type] = counts.get(entity.type, 0) + 1]. *)
Fixpoint count_types (counts : gmap EntityType nat)
    (entities : list DetectedEntity) : gmap EntityType nat :=
  match entities with
  | [] => counts
  | entity :: rest =>
      count_types
        (<[type entity := default 0 (counts !! type entity) + 1]> counts)
        rest
  end.

(** [PipelineResult.get_entity_types()] *)
Definition get_entity_types (r : PipelineResult) : gmap EntityType nat :=
  count_types ∅ (entities r).

End base_pipeline.

Import base_pipeline.

(* ===================================================================== *)
(** * pipeline/filters.py *)
(* ===================================================================== *)

Module filters.

Section with_unicode.
Context {U : UnicodeDB}.

(** [class DocumentType(Enum)] *)
Inductive DocumentType : Set :=
| SENTENZA | CONTRATTO | ATTO | VERBALE | PARERE | RICORSO | CITAZIONE
| UNKNOWN.

(** [class SensitivityLevel(Enum)] and its [value]. *)
Inductive SensitivityLevel : Set := HIGH | MEDIUM | LOW.

Definition level_value (l : SensitivityLevel) : pystr :=
  str match l with HIGH => "high" | MEDIUM => "medium" | LOW => "low" end.

(** ** 1. Text normalization *)

Definition is_blank (c : char) : bool := (c =? SP)%N || (c =? TAB)%N.

(** [[ \t]+] at the start of a text: the longest run of blanks. *)
Definition match_blanks (s : pystr) : option nat :=
  match length (takewhile is_blank s) with
  | O => None
  | n => Some n
  end.

(** [\s+] at the start of a text: the longest run of whitespace. *)
Definition match_spaces (s : pystr) : option nat :=
  match length (takewhile isspace s) with
  | O => None
  | n => Some n
  end.

(** The position of the last [c] in [s]. *)
Fixpoint last_index (c : char) (s : pystr) : option nat :=
  match s with
  | [] => None
  | a :: t =>
      match last_index c t with
      | Some k => Some (S k)
      | None => if (a =? c)%N then Some 0 else None
      end
  end.

(** [\n\s+\n] at the start of a text: a newline, then whitespace (at least
    one character, as many as possible) up to a newline; [\s+] is greedy and
    gives back characters until a newline follows, so the match ends at the
    last newline of the whitespace run behind the first newline. *)
Definition match_blank_lines (s : pystr) : option nat :=
  match s with
  | c :: w :: r =>
      if (c =? NL)%N && isspace w then
        match last_index NL (takewhile isspace r) with
        | Some k => Some (k + 3)
        | None => None
        end
      else None
  | _ => None
  end.

(** [normalize_text(text, lowercase, remove_extra_whitespace,
    normalize_unicode, preserve_newlines)] *)
Definition normalize_text (text : pystr)
    (lowercase remove_extra_whitespace normalize_unicode preserve_newlines
       : bool) : pystr :=
  match text with
  | [] => text
  | _ =>
      let text := if normalize_unicode then normalize_NFC text else text in
      let text :=
        if remove_extra_whitespace then
          if preserve_newlines then
            let text := re_sub match_blanks [SP] text in
            re_sub match_blank_lines [NL; NL] text
          else re_sub match_spaces [SP] text
        else text in
      let text := if lowercase then lower text else text in
      strip text
  end.

(** [normalize_text(text)] with the default arguments. *)
Definition normalize_text_default (text : pystr) : pystr :=
  normalize_text text false true true true.

(** ** 2. Context detection *)

(** [@dataclass class DocumentContext]; [date] and [metadata] are never
    set. *)
Record DocumentContext : Type := {
  document_type : DocumentType;
  jurisdiction : option pystr;
  court : option pystr;
  context_confidence : Q
}.

(** [(?:di\s+)?] *)
Definition optional_di : sre.regex :=
  sre.Opt (sre.seq [sre.text (str "di"); sre.Plus sre.space]).

(** [court_patterns]; each is one group. *)
Definition court_patterns : list sre.regex :=
  [ sre.seq [sre.text (str "corte"); sre.Plus sre.space; optional_di;
             sre.text (str "cassazione")];
    sre.seq [sre.text (str "tribunale"); sre.Plus sre.space; optional_di;
             sre.Plus sre.word_or_space];
    sre.seq [sre.text (str "corte"); sre.Plus sre.space;
             sre.text (str "d"); sre.Class (N.eqb 39);
             sre.text (str "appello"); sre.Plus sre.space; optional_di;
             sre.Plus sre.word_or_space];
    sre.seq [sre.text (str "tar"); sre.Plus sre.space;
             sre.Plus sre.word_or_space] ].

(** The loop over [court_patterns]: the first pattern that is found. *)
Fixpoint find_court (patterns : list sre.regex) (sample : pystr)
    : option pystr :=
  match patterns with
  | [] => None
  | pattern :: rest =>
      match sre.search pattern sample with
      | Some group => Some (strip group)
      | None => find_court rest sample
      end
  end.

(** [any(keyword in sample for keyword in keywords)] *)
Definition any_in (keywords : list string) (sample : pystr) : bool :=
  existsb (fun k => contains (str k) sample) keywords.

Definition detect_context (text : pystr) (max_chars : Z) : DocumentContext :=
  let sample := lower (slice_to text max_chars) in
  let '(doc_type, confidence) :=
    if any_in ["sentenza"; "corte"; "tribunale"; "giudice"] sample
    then (SENTENZA, 0.9%Q)
    else if any_in ["contratto"; "accordo"; "tra le parti"] sample
    then (CONTRATTO, 0.9%Q)
    else if any_in ["atto"; "notaio"; "rogito"] sample
    then (ATTO, 0.8%Q)
    else if any_in ["verbale"; "assemblea"; "seduta"] sample
    then (VERBALE, 0.8%Q)
    else if any_in ["parere"; "opinione legale"; "quesito"] sample
    then (PARERE, 0.8%Q)
    else if any_in ["ricorso"; "impugnazione"; "gravame"] sample
    then (RICORSO, 0.9%Q)
    else (UNKNOWN, 0.5%Q) in
  let jurisdiction :=
    if contains (str "civile") sample || contains (str "c.c.") sample
    then Some (str "civile")
    else if contains (str "penale") sample || contains (str "c.p.") sample
    then Some (str "penale")
    else if contains (str "amministrativo") sample
            || contains (str "tar") sample
    then Some (str "amministrativo")
    else None in
  let court := find_court court_patterns sample in
  {| document_type := doc_type;
     jurisdiction := jurisdiction;
     court := court;
     context_confidence := confidence |}.

(** [detect_context(text)] with the default [max_chars=2000]. *)
Definition detect_context_default (text : pystr) : DocumentContext :=
  detect_context text 2000.

(** ** 3. Entity validation *)

Definition is_AZ (c : char) : bool := (65 <=? c)%N && (c <=? 90)%N.
Definition is_az (c : char) : bool := (97 <=? c)%N && (c <=? 122)%N.
Definition is_09 (c : char) : bool := (48 <=? c)%N && (c <=? 57)%N.

(** A text that is, character by character, in the classes of [shape]. *)
Fixpoint matches_shape (shape : list (char -> bool)) (s : pystr) : bool :=
  match shape, s with
  | [], [] => true
  | p :: shape', c :: s' => p c && matches_shape shape' s'
  | _, _ => false
  end.

(** [^[A-Z]{6}[0-9]{2}[A-Z][0-9]{2}[A-Z][0-9]{3}[A-Z]$], on a text of length
    16 (where [$] can only be the end). *)
Definition cf_shape : list (char -> bool) :=
  repeat is_AZ 6 ++ repeat is_09 2 ++ [is_AZ] ++ repeat is_09 2 ++ [is_AZ]
  ++ repeat is_09 3 ++ [is_AZ].

(** [int(c)] *)
Definition int (c : char) : result nat :=
  match int_of_char c with
  | Some n => ret n
  | None => raise (ValueError "invalid literal for int() with base 10")
  end.

(** [l[i]] for a list of numbers. *)
Definition list_getitem (l : list nat) (i : nat) : result nat :=
  match l !! i with
  | Some x => ret x
  | None => raise (IndexError "list index out of range")
  end.

Definition odd_digit_values : list nat := [1; 0; 5; 7; 9; 13; 15; 17; 19; 21].
Definition odd_chars : pystr := str "BAFHJNPRTVCESULDGIMOQKWZYX".
Definition even_chars : pystr := str "ABCDEFGHIJKLMNOPQRSTUVWXYZ".
Definition check_chars : pystr := str "ABCDEFGHIJKLMNOPQRSTUVWXYZ".

(** The loop [for i, char in enumerate(cf[:15])] from index [i] on. *)
Fixpoint cf_total (i : nat) (cs : pystr) : result nat :=
  match cs with
  | [] => ret 0
  | char :: cs' =>
      v <- (if Nat.even i then
             if isdigit_char char
             then (d <- int char ;; list_getitem odd_digit_values d)
             else index char odd_chars
           else
             if isdigit_char char then int char
             else index char even_chars) ;;
      r <- cf_total (S i) cs' ;;
      ret (v + r)
  end.

Definition validate_italian_fiscal_code (cf : pystr) : result bool :=
  let cf := strip (upper cf) in
  if negb (length cf =? 16) then ret false
  else if negb (matches_shape cf_shape cf) then ret false
  else
    total <- cf_total 0 (take 15 cf) ;;
    expected_check <- getitem check_chars (total mod 26) ;;
    actual_check <- getitem cf 15 ;;
    ret (expected_check =? actual_check)%N.

(** The loop [for i, digit in enumerate(piva[:10])] from index [i] on. *)
Fixpoint vat_total (i : nat) (ds : pystr) : result nat :=
  match ds with
  | [] => ret 0
  | digit :: ds' =>
      n <- int digit ;;
      let n :=
        if Nat.odd i then
          let n := n * 2 in
          if 9 <? n then n / 10 + n mod 10 else n
        else n in
      r <- vat_total (S i) ds' ;;
      ret (n + r)
  end.

Definition validate_italian_vat (piva : pystr) : result bool :=
  let piva := strip piva in
  let piva := replace (str "it") [] (replace (str "IT") [] piva) in
  if negb (length piva =? 11) then ret false
  else if negb (forallb isdigit_char piva) then ret false
  else
    total <- vat_total 0 (take 10 piva) ;;
    let check_digit := (10 - total mod 10) mod 10 in
    last <- getitem piva 10 ;;
    d <- int last ;;
    ret (check_digit =? d).

(** [[a-zA-Z0-9._%+-]] and [[a-zA-Z0-9.-]] *)
Definition is_alpha (c : char) : bool := is_AZ c || is_az c.
Definition is_local_char (c : char) : bool :=
  is_alpha c || is_09 c
  || (c =? 46)%N || (c =? 95)%N || (c =? 37)%N || (c =? 43)%N || (c =? 45)%N.
Definition is_domain_char (c : char) : bool :=
  is_alpha c || is_09 c || (c =? 46)%N || (c =? 45)%N.

(** [^[a-zA-Z0-9._%+-]+@[a-zA-Z0-9.-]+\.[a-zA-Z]{2,}$]: a non-empty local
    part, [@], and a rest whose last dot has a non-empty run of domain
    characters before it and at least two letters, and only letters, behind
    it; [$] also matches before one final newline. *)
Definition validate_email (email : pystr) : bool :=
  let local := takewhile is_local_char email in
  match local, drop (length local) email with
  | _ :: _, at_ :: rest =>
      let rest :=
        match last rest with
        | Some c => if (c =? NL)%N then removelast rest else rest
        | None => rest
        end in
      (at_ =? 64)%N &&
      match last_index 46 rest with
      | Some k =>
          let d := take k rest in
          let tld := drop (S k) rest in
          negb (length d =? 0) && forallb is_domain_char d
          && (2 <=? length tld) && forallb is_alpha tld
      | None => false
      end
  | _, _ => false
  end.

(** [re.sub(r'[\s\-\(\)]', '', phone)] *)
Definition phone_noise (c : char) : bool :=
  isspace c || (c =? 45)%N || (c =? 40)%N || (c =? 41)%N.

(** [^prefix[0-9]{9,10}$] *)
Definition phone_pattern (prefix : string) (phone : pystr) : bool :=
  startswith (str prefix) phone &&
  let digits := drop (String.length prefix) phone in
  forallb is_09 digits && (9 <=? length digits) && (length digits <=? 10).

Definition validate_italian_phone (phone : pystr) : bool :=
  let phone := List.filter (fun c => negb (phone_noise c)) phone in
  existsb (fun prefix => phone_pattern prefix phone) ["+39"; "0039"; ""].

Fixpoint validate_entities (entities : list DetectedEntity)
    : result (list DetectedEntity) :=
  match entities with
  | [] => ret []
  | entity :: rest =>
      is_valid <-
        match type entity with
        | FISCAL_CODE => validate_italian_fiscal_code (text entity)
        | VAT_NUMBER => validate_italian_vat (text entity)
        | EMAIL => ret (validate_email (text entity))
        | PHONE => ret (validate_italian_phone (text entity))
        | _ => ret true
        end ;;
      validated <- validate_entities rest ;;
      ret (if is_valid then entity :: validated else validated)
  end.

(** ** 4. Legal pattern matching *)

(** [LEGAL_FORMULAS]; the class [['']] holds the apostrophe, [\.] is the
    full stop. *)
Definition LEGAL_FORMULAS : list sre.regex :=
  [ sre.seq [sre.text (str "ai sensi dell"); sre.Class (N.eqb 39);
             sre.text (str "art.")];
    sre.text (str "in conformit" ++ [224%N] ++ str " a quanto previsto");
    sre.text (str "cos" ++ [236%N] ++ str " come disposto");
    sre.text (str "nel rispetto di");
    sre.text (str "in ottemperanza a");
    sre.text (str "visto il");
    sre.text (str "considerato che");
    sre.text (str "ritenuto in fatto ed in diritto") ].

Definition legal_pattern_matcher (text : pystr)
    (entities : list DetectedEntity) : list DetectedEntity :=
  List.filter
    (fun entity =>
       let context_start := start entity - 50 in
       let context_end := Nat.min (length text) (end_ entity + 50) in
       let context := lower (slice text context_start context_end) in
       let is_formula :=
         existsb (fun pattern => bool_decide (is_Some (sre.search pattern context)))
           LEGAL_FORMULAS in
       negb is_formula)
    entities.

(** ** 5. Sensitivity scoring *)

Definition sensitivity_scorer (entities : list DetectedEntity)
    : list DetectedEntity :=
  map
    (fun entity =>
       let level :=
         match type entity with
         | FISCAL_CODE | ID_CARD | PASSPORT => HIGH
         | PERSON | ADDRESS | EMAIL | PHONE => MEDIUM
         | ORGANIZATION | COURT => LOW
         | _ => MEDIUM
         end in
       {| text := text entity; type := type entity;
          start := start entity; end_ := end_ entity;
          confidence := confidence entity;
          context_before := context_before entity;
          context_after := context_after entity;
          metadata :=
            dict_set (metadata entity) "sensitivity_level"
                     (PyStr (level_value level)) |})
    entities.

(** ** Filter chain *)

(** [class FilterChain]: three lists of callables. *)
Record FilterChain : Type := {
  text_filters : list (pystr -> result pystr);
  entity_filters : list (list DetectedEntity -> result (list DetectedEntity));
  context_filters :
    list (pystr -> list DetectedEntity -> result (list DetectedEntity))
}.

Definition empty_chain : FilterChain :=
  {| text_filters := []; entity_filters := []; context_filters := [] |}.

Definition add_text_filter (c : FilterChain) f : FilterChain :=
  {| text_filters := text_filters c ++ [f];
     entity_filters := entity_filters c;
     context_filters := context_filters c |}.

Definition add_entity_filter (c : FilterChain) f : FilterChain :=
  {| text_filters := text_filters c;
     entity_filters := entity_filters c ++ [f];
     context_filters := context_filters c |}.

Definition add_context_filter (c : FilterChain) f : FilterChain :=
  {| text_filters := text_filters c;
     entity_filters := entity_filters c;
     context_filters := context_filters c ++ [f] |}.

(** [for filter_func in fs: x = filter_func(x)] *)
Fixpoint run_filters {A} (fs : list (A -> result A)) (x : A) : result A :=
  match fs with
  | [] => ret x
  | f :: fs' => y <- f x ;; run_filters fs' y
  end.

Definition apply_text_filters (c : FilterChain) (text : pystr)
    : result pystr :=
  run_filters (text_filters c) text.

(** [apply_entity_filters(entities, text)]: the context filters run only on
    a text that is not empty. *)
Definition apply_entity_filters (c : FilterChain)
    (entities : list DetectedEntity) (text : option pystr)
    : result (list DetectedEntity) :=
  entities <- run_filters (entity_filters c) entities ;;
  match text with
  | Some (ch :: t) =>
      run_filters (map (fun f => f (ch :: t)) (context_filters c)) entities
  | _ => ret entities
  end.

(** [apply(text, entities)] *)
Definition apply (c : FilterChain) (text : pystr)
    (entities : option (list DetectedEntity))
    : result (pystr * option (list DetectedEntity)) :=
  filtered_text <- apply_text_filters c text ;;
  match entities with
  | None => ret (filtered_text, None)
  | Some entities =>
      filtered_entities <- apply_entity_filters c entities (Some filtered_text) ;;
      ret (filtered_text, Some filtered_entities)
  end.

End with_unicode.

End filters.

(* ===================================================================== *)
(** * engines/presidio/recognizers/cf_recognizer.py *)
(* ===================================================================== *)

Module cf_recognizer.

Section with_unicode.
Context {U : UnicodeDB}.

(** A [dict] from characters to numbers, and [d.get(c, default)]. *)
Fixpoint get (d : list (char * nat)) (c : char) (default : nat) : nat :=
  match d with
  | [] => default
  | (k, v) :: d' => if (k =? c)%N then v else get d' c default
  end.

Definition ODD_MAP : list (char * nat) :=
  zip (str "0123456789ABCDEFGHIJKLMNOPQRSTUVWXYZ")
      [ 1; 0; 5; 7; 9; 13; 15; 17; 19; 21;
        1; 0; 5; 7; 9; 13; 15; 17; 19; 21;
        2; 4; 18; 20; 11; 3; 6; 8; 12; 14;
        16; 10; 22; 25; 24; 23 ].

Definition EVEN_MAP : list (char * nat) :=
  zip (str "0123456789ABCDEFGHIJKLMNOPQRSTUVWXYZ")
      [ 0; 1; 2; 3; 4; 5; 6; 7; 8; 9;
        0; 1; 2; 3; 4; 5; 6; 7; 8; 9;
        10; 11; 12; 13; 14; 15; 16; 17; 18;
        19; 20; 21; 22; 23; 24; 25 ].

Definition CHECKSUM_LETTERS : pystr := str "ABCDEFGHIJKLMNOPQRSTUVWXYZ".

(** The loop [for i, char in enumerate(cf[:15])] from index [i] on. *)
Fixpoint checksum_total (i : nat) (cs : pystr) : nat :=
  match cs with
  | [] => 0
  | char :: cs' =>
      (if Nat.even i then get ODD_MAP char 0 else get EVEN_MAP char 0)
      + checksum_total (S i) cs'
  end.

Definition _validate_cf_checksum (cf : pystr) : result bool :=
  if negb (length cf =? 16) then ret false
  else
    let total := checksum_total 0 (take 15 cf) in
    let checksum_index := total mod 26 in
    expected_checksum <- getitem CHECKSUM_LETTERS checksum_index ;;
    c <- getitem cf 15 ;;
    ret (c =? expected_checksum)%N.

Definition validate_result (pattern_text : pystr) : result bool :=
  _validate_cf_checksum (upper pattern_text).

End with_unicode.

End cf_recognizer.

(* ===================================================================== *)
(** * engines/presidio/recognizers/piva_recognizer.py *)
(* ===================================================================== *)

Module piva_recognizer.

Section with_unicode.
Context {U : UnicodeDB}.

(** [[int(d) for d in s]] *)
Fixpoint ints (s : pystr) : result (list nat) :=
  match s with
  | [] => ret []
  | d :: s' => n <- filters.int d ;; r <- ints s' ;; ret (n :: r)
  end.

(** The loop [for i, digit in enumerate(digits)] from index [i] on. *)
Fixpoint checksum_total (i : nat) (digits : list nat) : nat :=
  match digits with
  | [] => 0
  | digit :: digits' =>
      (if Nat.even i then digit
       else let doubled := digit * 2 in
            if 9 <? doubled then doubled - 9 else doubled)
      + checksum_total (S i) digits'
  end.

(** [piva.isdigit()] *)
Definition isdigit (s : pystr) : bool :=
  negb (length s =? 0) && forallb isdigit_char s.

Definition _validate_piva_checksum (piva : pystr) : result bool :=
  if negb (length piva =? 11) || negb (isdigit piva) then ret false
  else
    digits <- ints (take 10 piva) ;;
    last <- getitem piva 10 ;;
    check_digit <- filters.int last ;;
    let total := checksum_total 0 digits in
    let expected_check := (10 - total mod 10) mod 10 in
    ret (check_digit =? expected_check).

Definition validate_result (pattern_text : pystr) : result bool :=
  first <- getitem pattern_text 0 ;;
  if (first =? 48)%N then ret false
  else _validate_piva_checksum pattern_text.

End with_unicode.

End piva_recognizer.

(* ===================================================================== *)
(** * pipeline/strategies.py *)
(* ===================================================================== *)

Module strategies.

(** A format template such as ["{type}_{index}"]: literal pieces and the
    replacement fields [{type}] and [{index}]. *)
Inductive piece : Type :=
| Lit (s : pystr)
| FType
| FIndex.

Abbreviation template := (list piece).

Section with_unicode.
Context {U : UnicodeDB}.

(** [template.format(type=ty, index=ix)]; a field without an argument is a
    [KeyError]. *)
Fixpoint format (t : template) (ty : pystr) (ix : option pystr)
    : result pystr :=
  match t with
  | [] => ret []
  | p :: t' =>
      s <- match p with
           | Lit s => ret s
           | FType => ret ty
           | FIndex =>
               match ix with
               | Some i => ret i
               | None => raise (KeyError "index")
               end
           end ;;
      r <- format t' ty ix ;;
      ret (s ++ r)
  end.

(** ["{type}_{index}"] and ["[{type}]"] *)
Definition deterministic_default : template := [FType; Lit (str "_"); FIndex].
Definition redaction_default : template :=
  [Lit (str "["); FType; Lit (str "]")].

(** The key [(entity.type, entity.text.lower())]. *)
Definition key_of (entity : DetectedEntity) : EntityType * pystr :=
  (type entity, lower (text entity)).

(** [class DeterministicReplacer] *)
Record DeterministicReplacer : Type := {
  format_template : template;
  use_letters_for_names : bool;
  entity_map : gmap (EntityType * pystr) pystr;
  entity_counters : gmap EntityType nat
}.

(** [class SyntheticReplacer].  Faker is an external generator: [faker]
    gives the string it produces for an entity at a position of its random
    stream, and every generated replacement moves the stream on. *)
Record SyntheticReplacer : Type := {
  faker : nat -> DetectedEntity -> pystr;
  faker_position : nat;
  preserve_gender : bool;
  synthetic_map : gmap (EntityType * pystr) pystr
}.

(** [class RedactionReplacer] *)
Record RedactionReplacer : Type := {
  redaction_template : template;
  use_italian_labels : bool
}.

(** [class HashReplacer] *)
Record HashReplacer : Type := {
  algorithm : string;
  truncate : option nat;
  salt : pystr;
  prefix : pystr
}.

(** [class ReplacementStrategy] with its subclasses; [ConsistentReplacer]
    wraps a base strategy and owns a consistency map. *)
Inductive ReplacementStrategy : Type :=
| Deterministic (d : DeterministicReplacer)
| Synthetic (s : SyntheticReplacer)
| Redaction (r : RedactionReplacer)
| Hash (h : HashReplacer)
| Consistent (base_strategy : ReplacementStrategy)
             (consistency_map : gmap (EntityType * pystr) pystr).

(** [DeterministicReplacer(format_template, use_letters_for_names)] *)
Definition DeterministicReplacer_init (format_template : template)
    (use_letters_for_names : bool) : DeterministicReplacer :=
  {| format_template := format_template;
     use_letters_for_names := use_letters_for_names;
     entity_map := ∅;
     entity_counters := ∅ |}.

(** [DeterministicReplacer.reset] *)
Definition deterministic_reset (d : DeterministicReplacer)
    : DeterministicReplacer :=
  {| format_template := format_template d;
     use_letters_for_names := use_letters_for_names d;
     entity_map := ∅;
     entity_counters := ∅ |}.

(** [chr(64 + index) if index <= 26 else str(index)] for names, else
    [str(index)]. *)
Definition index_str (use_letters : bool) (ty : EntityType) (index : nat)
    : pystr :=
  if use_letters
     && match ty with PERSON | ORGANIZATION => true | _ => false end
  then if index <=? 26 then [chr (64 + index)] else str_of_nat index
  else str_of_nat index.

(** [DeterministicReplacer.replace]: the replacement (or the exception) and
    the replacer as the call leaves it. *)
Definition deterministic_replace (d : DeterministicReplacer)
    (entity : DetectedEntity) : result pystr * DeterministicReplacer :=
  let key := key_of entity in
  match entity_map d !! key with
  | Some r => (ret r, d)
  | None =>
      let index :=
        match entity_counters d !! type entity with
        | Some n => n + 1
        | None => 0 + 1
        end in
      let counters := <[type entity := index]> (entity_counters d) in
      let ix := index_str (use_letters_for_names d) (type entity) index in
      match format (format_template d) (value (type entity)) (Some ix) with
      | inr replacement =>
          (ret replacement,
           {| format_template := format_template d;
              use_letters_for_names := use_letters_for_names d;
              entity_map := <[key := replacement]> (entity_map d);
              entity_counters := counters |})
      | inl e =>
          (inl e,
           {| format_template := format_template d;
              use_letters_for_names := use_letters_for_names d;
              entity_map := entity_map d;
              entity_counters := counters |})
      end
  end.

(** [SyntheticReplacer.replace] and [reset].  For a person whose gender is
    to be preserved [_generate_synthetic] reads
    [entity.text.split()[-1]], which does not exist when the text is
    blank. *)
Definition synthetic_replace (s : SyntheticReplacer) (entity : DetectedEntity)
    : result pystr * SyntheticReplacer :=
  let key := key_of entity in
  match synthetic_map s !! key with
  | Some r => (ret r, s)
  | None =>
      if bool_decide (type entity = PERSON) && preserve_gender s
         && forallb isspace (text entity)
      then (raise (IndexError "list index out of range"), s)
      else
        let replacement := faker s (faker_position s) entity in
        (ret replacement,
         {| faker := faker s;
            faker_position := S (faker_position s);
            preserve_gender := preserve_gender s;
            synthetic_map := <[key := replacement]> (synthetic_map s) |})
  end.

Definition synthetic_reset (s : SyntheticReplacer) : SyntheticReplacer :=
  {| faker := faker s;
     faker_position := faker_position s;
     preserve_gender := preserve_gender s;
     synthetic_map := ∅ |}.

(** [self.italian_labels.get(entity.type, entity.type.value)] *)
Definition italian_label (ty : EntityType) : pystr :=
  match ty with
  | PERSON => str "NOME"
  | ORGANIZATION => str "ORGANIZZAZIONE"
  | LOCATION => str "LUOGO"
  | DATE => str "DATA"
  | FISCAL_CODE => str "CODICE_FISCALE"
  | VAT_NUMBER => str "PARTITA_IVA"
  | EMAIL => str "EMAIL"
  | PHONE => str "TELEFONO"
  | ADDRESS => str "INDIRIZZO"
  | COURT => str "TRIBUNALE"
  | JUDGE => str "GIUDICE"
  | LAWYER => str "AVVOCATO"
  | _ => value ty
  end.

(** [RedactionReplacer.replace] *)
Definition redaction_replace (r : RedactionReplacer) (entity : DetectedEntity)
    : result pystr :=
  let label :=
    if use_italian_labels r then italian_label (type entity)
    else value (type entity) in
  format (redaction_template r) label None.

(** [HashReplacer.replace] *)
Definition hash_replace (h : HashReplacer) (entity : DetectedEntity)
    : result pystr :=
  data <- encode (text entity ++ salt h) ;;
  hash_value <-
    (if String.eqb (algorithm h) "sha256" then ret (Sha256.hexdigest data)
     else if String.eqb (algorithm h) "md5" then ret (Md5.hexdigest data)
     else if String.eqb (algorithm h) "sha1" then ret (Sha1.hexdigest data)
     else raise (ValueError "Unsupported hash algorithm")) ;;
  let hash_value :=
    match truncate h with
    | Some (S n) => take (S n) hash_value
    | _ => hash_value
    end in
  ret (prefix h ++ hash_value).

(** [strategy.replace(text, entity, metadata)]; the strategies do not read
    [text] and [metadata]. *)
Fixpoint replace (s : ReplacementStrategy) (entity : DetectedEntity)
    : result pystr * ReplacementStrategy :=
  match s with
  | Deterministic d =>
      let '(r, d') := deterministic_replace d entity in (r, Deterministic d')
  | Synthetic f =>
      let '(r, f') := synthetic_replace f entity in (r, Synthetic f')
  | Redaction r => (redaction_replace r entity, s)
  | Hash h => (hash_replace h entity, s)
  | Consistent base m =>
      let key := key_of entity in
      match m !! key with
      | Some r => (ret r, s)
      | None =>
          match replace base entity with
          | (inr replacement, base') =>
              (ret replacement, Consistent base' (<[key := replacement]> m))
          | (inl e, base') => (inl e, Consistent base' m)
          end
      end
  end.

(** [reset], for the strategies that have one ([hasattr(_, 'reset')]). *)
Fixpoint reset (s : ReplacementStrategy) : ReplacementStrategy :=
  match s with
  | Deterministic d => Deterministic (deterministic_reset d)
  | Synthetic f => Synthetic (synthetic_reset f)
  | Redaction _ | Hash _ => s
  | Consistent base _ => Consistent (reset base) ∅
  end.

(** The loop of [replace_all] over the sorted entities. *)
Fixpoint replace_loop (s : ReplacementStrategy) (result_text : pystr)
    (sorted_entities : list DetectedEntity)
    : result pystr * ReplacementStrategy :=
  match sorted_entities with
  | [] => (ret result_text, s)
  | entity :: rest =>
      match replace s entity with
      | (inr replacement, s') =>
          replace_loop s'
            (take (start entity) result_text ++ replacement
             ++ drop (end_ entity) result_text)
            rest
      | (inl e, s') => (inl e, s')
      end
  end.

(** [ReplacementStrategy.replace_all(text, entities, metadata)] *)
Definition replace_all (s : ReplacementStrategy) (text : pystr)
    (entities : list DetectedEntity) : result pystr * ReplacementStrategy :=
  let sorted_entities := sorted_desc start entities in
  replace_loop s text sorted_entities.

(** [create_strategy(strategy_name, **kwargs)]: the keyword arguments the
    orchestrator builds, of which each strategy keeps the ones the factory
    lets through. *)
Record strategy_kwargs : Type := {
  kw_format_template : option template;
  kw_locale_faker : nat -> DetectedEntity -> pystr;
  kw_seed : option nat;
  kw_algorithm : option string;
  kw_salt : option pystr
}.

Definition create_strategy (strategy_name : string) (kw : strategy_kwargs)
    : result ReplacementStrategy :=
  if String.eqb strategy_name "deterministic" then
    ret (Deterministic
           (DeterministicReplacer_init
              (default deterministic_default (kw_format_template kw)) true))
  else if String.eqb strategy_name "synthetic" then
    ret (Synthetic {| faker := kw_locale_faker kw;
                      faker_position := default 0 (kw_seed kw);
                      preserve_gender := true;
                      synthetic_map := ∅ |})
  else if String.eqb strategy_name "redaction" then
    ret (Redaction {| redaction_template := redaction_default;
                      use_italian_labels := true |})
  else if String.eqb strategy_name "hash" then
    ret (Hash {| algorithm := "sha256";
                 truncate := Some 16;
                 salt := default [] (kw_salt kw);
                 prefix := str "HASH_" |})
  else raise (ValueError "Unknown replacement strategy").

Definition create_consistent_strategy (base_strategy_name : string)
    (kw : strategy_kwargs) : result ReplacementStrategy :=
  base_strategy <- create_strategy base_strategy_name kw ;;
  ret (Consistent base_strategy ∅).

End with_unicode.

End strategies.

(* ===================================================================== *)
(** * config.py (the fields the pipeline reads) *)
(* ===================================================================== *)

Module config.

Record FilterConfig : Type := {
  normalize_text : bool;
  validate_entities : bool;
  legal_pattern_matching : bool;
  sensitivity_scoring : bool;
  lowercase : bool;
  remove_extra_whitespace : bool;
  normalize_unicode : bool
}.

Record ReplacementConfig : Type := {
  default_strategy : string;
  consistent_replacement : bool;
  deterministic_format : strategies.template;
  synthetic_locale : nat -> DetectedEntity -> pystr;
  synthetic_seed : option nat;
  redaction_format : strategies.template;
  hash_algorithm : string;
  hash_salt : option pystr
}.

Record PrivacyConfig : Type := {
  filters : FilterConfig;
  replacement : ReplacementConfig;
  max_concurrent_jobs : Z
}.

(** The defaults of the dataclasses; the Faker locale ['it_IT'] is given by
    the caller. *)
Definition default_filters : FilterConfig :=
  {| normalize_text := true; validate_entities := true;
     legal_pattern_matching := true; sensitivity_scoring := true;
     lowercase := false; remove_extra_whitespace := true;
     normalize_unicode := true |}.

Definition default_replacement (it_IT : nat -> DetectedEntity -> pystr)
    : ReplacementConfig :=
  {| default_strategy := "deterministic";
     consistent_replacement := true;
     deterministic_format := strategies.deterministic_default;
     synthetic_locale := it_IT;
     synthetic_seed := None;
     redaction_format := strategies.redaction_default;
     hash_algorithm := "sha256";
     hash_salt := None |}.

Definition default_config (it_IT : nat -> DetectedEntity -> pystr)
    : PrivacyConfig :=
  {| filters := default_filters;
     replacement := default_replacement it_IT;
     max_concurrent_jobs := 10 |}.

End config.

(* ===================================================================== *)
(** * pipeline/orchestrator.py *)
(* ===================================================================== *)

Module orchestrator.

Import config.

Section with_unicode.
Context {U : UnicodeDB}.

(** A detection engine ([BasePipeline.detect_entities]): a long-lived model
    that is only read. *)
Record Engine : Type := {
  detect_entities : pystr -> result (list DetectedEntity)
}.

(** [@dataclass class BatchResult] (clock readings left out). *)
Record BatchResult : Type := {
  results : list PipelineResult;
  total_documents : nat;
  successful : nat;
  failed : nat;
  total_entities_detected : nat;
  batch_max_concurrent : Z
}.

(** [class PipelineOrchestrator]: the object's fields.  [presidio] stands
    for what constructing [PresidioEngine] gives in [_load_engines] ([None]
    when the constructor raises). *)
Record PipelineOrchestrator : Type := {
  config : PrivacyConfig;
  presidio : option Engine;
  primary_engine : option Engine;
  filter_chain : filters.FilterChain;
  replacement_strategy : option strategies.ReplacementStrategy;
  initialized : bool
}.

(** [PipelineOrchestrator(config)] *)
Definition init (config : PrivacyConfig) (presidio : option Engine)
    : PipelineOrchestrator :=
  {| config := config; presidio := presidio; primary_engine := None;
     filter_chain := filters.empty_chain; replacement_strategy := None;
     initialized := false |}.

(** Methods run on the object: they return or raise, and leave the object
    in a new state either way. *)
Definition M (A : Type) : Type :=
  PipelineOrchestrator -> result A * PipelineOrchestrator.

Definition mreturn {A} (x : A) : M A := fun o => (ret x, o).

Definition mthen {A B} (m : M A) (f : A -> M B) : M B :=
  fun o =>
    match m o with
    | (inr x, o') => f x o'
    | (inl e, o') => (inl e, o')
    end.

Definition lift {A} (r : result A) : M A := fun o => (r, o).

(** [try: m except Exception as e: h(e)] *)
Definition try_except {A} (m : M A) (h : Exn -> M A) : M A :=
  fun o =>
    match m o with
    | (inr x, o') => (inr x, o')
    | (inl e, o') => h e o'
    end.

Notation "x <~ m ;; k" := (mthen m (fun x => k))
  (at level 100, m at next level, right associativity).

Definition set_filter_chain (c : filters.FilterChain) : M unit :=
  fun o =>
    (ret tt,
     {| config := config o; presidio := presidio o;
        primary_engine := primary_engine o; filter_chain := c;
        replacement_strategy := replacement_strategy o;
        initialized := initialized o |}).

Definition set_replacement_strategy (s : option strategies.ReplacementStrategy)
    : M unit :=
  fun o =>
    (ret tt,
     {| config := config o; presidio := presidio o;
        primary_engine := primary_engine o; filter_chain := filter_chain o;
        replacement_strategy := s; initialized := initialized o |}).

Definition set_primary_engine (e : option Engine) : M unit :=
  fun o =>
    (ret tt,
     {| config := config o; presidio := presidio o;
        primary_engine := e; filter_chain := filter_chain o;
        replacement_strategy := replacement_strategy o;
        initialized := initialized o |}).

Definition set_initialized (b : bool) : M unit :=
  fun o =>
    (ret tt,
     {| config := config o; presidio := presidio o;
        primary_engine := primary_engine o; filter_chain := filter_chain o;
        replacement_strategy := replacement_strategy o;
        initialized := b |}).

(** [_setup_filters] *)
Definition _setup_filters : M unit :=
  fun o =>
    let filter_config := filters (config o) in
    let c := filter_chain o in
    let c :=
      if normalize_text filter_config then
        filters.add_text_filter c
          (fun text =>
             ret (filters.normalize_text text
                    (lowercase filter_config)
                    (remove_extra_whitespace filter_config)
                    (normalize_unicode filter_config)
                    true))
      else c in
    let c :=
      if validate_entities filter_config
      then filters.add_entity_filter c filters.validate_entities
      else c in
    let c :=
      if sensitivity_scoring filter_config
      then filters.add_entity_filter c
             (fun es => ret (filters.sensitivity_scorer es))
      else c in
    let c :=
      if legal_pattern_matching filter_config
      then filters.add_context_filter c
             (fun text es => ret (filters.legal_pattern_matcher text es))
      else c in
    set_filter_chain c o.

(** [_setup_replacement_strategy] *)
Definition _setup_replacement_strategy : M unit :=
  fun o =>
    let r := replacement (config o) in
    let strategy_name := default_strategy r in
    let named name := String.eqb strategy_name name in
    let kwargs :=
      {| strategies.kw_format_template :=
           if named "deterministic" then Some (deterministic_format r)
           else if named "redaction" then Some (redaction_format r)
           else None;
         strategies.kw_locale_faker := synthetic_locale r;
         strategies.kw_seed :=
           if named "synthetic" then
             match synthetic_seed r with
             | Some (S n) => Some (S n)
             | _ => None
             end
           else None;
         strategies.kw_algorithm :=
           if named "hash" then Some (hash_algorithm r) else None;
         strategies.kw_salt :=
           if named "hash" then
             match hash_salt r with
             | Some (c :: s) => Some (c :: s)
             | _ => None
             end
           else None |} in
    let created :=
      if consistent_replacement r
      then strategies.create_consistent_strategy strategy_name kwargs
      else strategies.create_strategy strategy_name kwargs in
    match created with
    | inr s => set_replacement_strategy (Some s) o
    | inl e => (inl e, o)
    end.

(** [_load_engines]: a failure to build the engine leaves [None]. *)
Definition _load_engines : M unit :=
  fun o => set_primary_engine (presidio o) o.

(** [initialize] *)
Definition initialize : M unit :=
  fun o =>
    if initialized o then (ret tt, o)
    else
      (_ <~ _setup_filters ;;
       _ <~ _setup_replacement_strategy ;;
       _ <~ _load_engines ;;
       set_initialized true) o.

(** [self.replacement_strategy.replace_all(text, entities, metadata)] on the
    strategy object the orchestrator holds. *)
Definition strategy_replace_all (text : pystr)
    (entities : list DetectedEntity) : M pystr :=
  fun o =>
    match replacement_strategy o with
    | None =>
        (raise (TypeError "'NoneType' object has no attribute 'replace_all'"),
         o)
    | Some s =>
        let '(r, s') := strategies.replace_all s text entities in
        (r,
         {| config := config o; presidio := presidio o;
            primary_engine := primary_engine o;
            filter_chain := filter_chain o;
            replacement_strategy := Some s';
            initialized := initialized o |})
    end.

(** [metadata['document_context'] = {...}] *)
Definition with_document_context (metadata : option dict)
    (context : filters.DocumentContext) : dict :=
  dict_set (default [] metadata) "document_context"
    (PyDict
       [ ("type",
          PyStr (str match filters.document_type context with
                     | filters.SENTENZA => "sentenza"
                     | filters.CONTRATTO => "contratto"
                     | filters.ATTO => "atto"
                     | filters.VERBALE => "verbale"
                     | filters.PARERE => "parere"
                     | filters.RICORSO => "ricorso"
                     | filters.CITAZIONE => "citazione"
                     | filters.UNKNOWN => "unknown"
                     end));
         ("jurisdiction",
          match filters.jurisdiction context with
          | Some j => PyStr j
          | None => PyNone
          end);
         ("court",
          match filters.court context with
          | Some c => PyStr c
          | None => PyNone
          end);
         ("confidence", PyNum (filters.context_confidence context)) ]).

(** The body of [try:] in [process_document]. *)
Definition process_document_try (text : pystr) (metadata : dict)
    : M PipelineResult :=
  chain <~ (fun o => (ret (filter_chain o), o)) ;;
  engine <~ (fun o => (ret (primary_engine o), o)) ;;
  applied <~ lift (filters.apply chain text None) ;;
  let filtered_text := applied.1 in
  entities <~ lift match engine with
                   | Some e => detect_entities e filtered_text
                   | None => ret []
                   end ;;
  applied <~ lift (filters.apply chain filtered_text (Some entities)) ;;
  let filtered_entities := default [] applied.2 in
  anonymized_text <~
    match filtered_entities with
    | _ :: _ => strategy_replace_all filtered_text filtered_entities
    | [] => mreturn filtered_text
    end ;;
  mreturn {| original_text := text;
             anonymized_text := anonymized_text;
             entities := filtered_entities;
             success := true;
             error_message := None;
             result_metadata := metadata |}.

(** [process_document(text, user_id, document_id, metadata)]; the ids are
    only logged. *)
Definition process_document (text : pystr) (metadata : option dict)
    : M PipelineResult :=
  _ <~ initialize ;;
  let context := filters.detect_context_default text in
  let metadata := with_document_context metadata context in
  try_except (process_document_try text metadata)
    (fun e =>
       mreturn {| original_text := text;
                  anonymized_text := text;
                  entities := [];
                  success := false;
                  error_message := Some (exn_str e);
                  result_metadata := metadata |}).

(** A document of a batch: a [dict] with string values under ['text'] and
    ['document_id'] and, under ['metadata'], a [dict]. *)
Record Document : Type := {
  items : list (string * pystr);
  doc_metadata : option dict
}.

(** [doc[key]] *)
Definition doc_getitem (doc : Document) (key : string) : result pystr :=
  match dict_get (items doc) key with
  | Some v => ret v
  | None => raise (KeyError key)
  end.

(** [process_with_semaphore(doc)] once it holds the semaphore. *)
Definition process_with_semaphore (doc : Document) : M PipelineResult :=
  text <~ lift (doc_getitem doc "text") ;;
  _ <~ lift (doc_getitem doc "document_id") ;;
  process_document text (doc_metadata doc).

(** [asyncio.gather] of the tasks, with [return_exceptions=True].  The tasks suspend
    while the engine works in a thread; what a task does to the orchestrator
    it does in one step after that, so a run is the order in which the tasks
    take this step.  [choices] picks, at each step, one of the tasks that
    are still pending (the number is taken modulo how many there are; a
    missing number is 0).  The outcome of every task is kept with the index
    of its awaitable. *)
Fixpoint gather_run (fuel : nat) (choices : list nat)
    (pending : list (nat * Document)) (o : PipelineOrchestrator)
    : list (nat * result PipelineResult) * PipelineOrchestrator :=
  match fuel with
  | O => ([], o)
  | S fuel' =>
      let k := hd 0 choices mod length pending in
      match pending !! k with
      | None => ([], o)
      | Some (i, doc) =>
          let '(r, o') := process_with_semaphore doc o in
          let '(rs, o'') :=
            gather_run fuel' (tl choices) (delete k pending) o' in
          ((i, r) :: rs, o'')
      end
  end.

(** The outcome stored for awaitable [i]. *)
Fixpoint outcome_of {A} (rs : list (nat * A)) (i : nat) : option A :=
  match rs with
  | [] => None
  | (j, r) :: rs' => if j =? i then Some r else outcome_of rs' i
  end.

(** [gather] returns the outcomes in the order of the awaitables. *)
Definition gather (choices : list nat) (documents : list Document)
    (o : PipelineOrchestrator)
    : list (result PipelineResult) * PipelineOrchestrator :=
  let n := length documents in
  let '(rs, o') := gather_run n choices (zip (seq 0 n) documents) o in
  (omap (outcome_of rs) (seq 0 n), o').

(** The loop "Handle exceptions and collect all results". *)
Fixpoint collect (gathered : list (result PipelineResult))
    : list PipelineResult * nat * nat :=
  match gathered with
  | [] => ([], 0, 0)
  | r :: rest =>
      let '(all_results, successful_count, failed_count) := collect rest in
      match r with
      | inl _ => (all_results, successful_count, S failed_count)
      | inr result =>
          if success result
          then (result :: all_results, S successful_count, failed_count)
          else (result :: all_results, successful_count, S failed_count)
      end
  end.

(** What a call of [process_batch] comes to. *)
Inductive outcome (A : Type) : Type :=
| Returns (x : A)
| Raises (e : Exn)
| Hangs.
Arguments Returns {A} x.
Arguments Raises {A} e.
Arguments Hangs {A}.

(** [max_concurrent or self.config.max_concurrent_jobs] *)
Definition effective_max_concurrent (cfg : PrivacyConfig)
    (max_concurrent : option Z) : Z :=
  match max_concurrent with
  | Some 0%Z | None => max_concurrent_jobs cfg
  | Some v => v
  end.

(** [process_batch(documents, user_id, max_concurrent)] under the run
    [choices].  [asyncio.Semaphore] refuses a negative value; with the value
    0 no task ever gets the semaphore. *)
Definition process_batch (documents : list Document)
    (max_concurrent : option Z) (choices : list nat)
    (o : PipelineOrchestrator)
    : outcome BatchResult * PipelineOrchestrator :=
  match initialize o with
  | (inl e, o) => (Raises e, o)
  | (inr _, o) =>
      let max_concurrent :=
        effective_max_concurrent (config o) max_concurrent in
      if (max_concurrent <? 0)%Z then
        (Raises (ValueError "Semaphore initial value must be >= 0"), o)
      else if (max_concurrent =? 0)%Z && negb (length documents =? 0) then
        (Hangs, o)
      else
        let '(gathered, o) := gather choices documents o in
        let '(all_results, successful_count, failed_count) :=
          collect gathered in
        let total_entities :=
          list_sum (map (fun r => length (entities r))
                      (List.filter success all_results)) in
        (Returns {| results := all_results;
                    total_documents := length documents;
                    successful := successful_count;
                    failed := failed_count;
                    total_entities_detected := total_entities;
                    batch_max_concurrent := max_concurrent |}, o)
  end.

End with_unicode.

Arguments Returns {A} x.
Arguments Raises {A} e.
Arguments Hangs {A}.

End orchestrator.

(* ===================================================================== *)
(** * cachetools.LRUCache and datetime, as the cache uses them *)
(* ===================================================================== *)

Module cachetools.

(** What the operations of the cache can raise: [KeyError(key)], the
    [ValueError('value too large')] of a cache without room for one value,
    and the [OverflowError] of a date outside the years 1 to 9999. *)
Inductive Raised : Type :=
| MissingKey (key : pystr)
| ValueTooLarge
| DateOutOfRange.

Definition outcome (A : Type) : Type := Raised + A.

Section lru.
Context {V : Type}.

(** [LRUCache(maxsize)] with the default [getsizeof], under which every
    value has size 1.  The items are kept from the least to the most
    recently used. *)
Record LRUCache : Type := {
  maxsize : Z;
  items : list (pystr * V)
}.

Definition LRUCache_init (maxsize : Z) : LRUCache :=
  {| maxsize := maxsize; items := [] |}.

(** [key in cache] *)
Definition contains (c : LRUCache) (key : pystr) : bool :=
  existsb (fun kv => bool_decide (kv.1 = key)) (items c).

(** [len(cache)] *)
Definition len (c : LRUCache) : nat := length (items c).

Fixpoint find (items : list (pystr * V)) (key : pystr) : option V :=
  match items with
  | [] => None
  | (k, v) :: rest => if bool_decide (k = key) then Some v else find rest key
  end.

Definition without (key : pystr) (items : list (pystr * V))
    : list (pystr * V) :=
  List.filter (fun kv => negb (bool_decide (kv.1 = key))) items.

(** [while currsize + 1 > maxsize: self.popitem()]: the least recently used
    items go first. *)
Fixpoint make_room (maxsize : Z) (items : list (pystr * V))
    : list (pystr * V) :=
  match items with
  | [] => []
  | _ :: rest =>
      if (maxsize <? Z.of_nat (length items) + 1)%Z
      then make_room maxsize rest
      else items
  end.

(** [cache[key] = value] *)
Definition setitem (c : LRUCache) (key : pystr) (value : V)
    : outcome unit * LRUCache :=
  if (maxsize c <? 1)%Z then (inl ValueTooLarge, c)
  else
    let kept :=
      if contains c key then without key (items c)
      else make_room (maxsize c) (items c) in
    (inr tt, {| maxsize := maxsize c; items := kept ++ [(key, value)] |}).

(** [cache[key]]: a hit makes the key the most recently used. *)
Definition getitem (c : LRUCache) (key : pystr) : outcome V * LRUCache :=
  match find (items c) key with
  | None => (inl (MissingKey key), c)
  | Some v =>
      (inr v,
       {| maxsize := maxsize c;
          items := without key (items c) ++ [(key, v)] |})
  end.

(** [del cache[key]] *)
Definition delitem (c : LRUCache) (key : pystr)
    : outcome unit * LRUCache :=
  if contains c key
  then (inr tt, {| maxsize := maxsize c; items := without key (items c) |})
  else (inl (MissingKey key), c).

(** [cache.clear()] *)
Definition clear (c : LRUCache) : LRUCache :=
  {| maxsize := maxsize c; items := [] |}.

End lru.

Arguments LRUCache V : clear implicits.

#[local] Open Scope Z_scope.

(** A [datetime] is the number of microseconds since [datetime.min];
    [datetime.max] is the last microsecond of the year 9999. *)
Definition datetime_max : Z := 3652059 * 86400000000 - 1.

(** [timedelta(seconds=n)], in microseconds; more than 999999999 days are
    refused. *)
Definition timedelta (seconds : Z) : outcome Z :=
  let days := seconds / 86400 in
  if (days <? -999999999) || (999999999 <? days) then inl DateOutOfRange
  else inr (seconds * 1000000).

(** [t + delta] on a [datetime] *)
Definition datetime_add (t delta : Z) : outcome Z :=
  let r := t + delta in
  if (r <? 0) || (datetime_max <? r) then inl DateOutOfRange else inr r.

End cachetools.

(* ===================================================================== *)
(** * cache/cache_manager.py *)
(* ===================================================================== *)

Module cache_manager.

(** [f"{text}|{engine_name}|{config_hash}"] *)
Definition key_data (text engine_name config_hash : pystr) : pystr :=
  text ++ str "|" ++ engine_name ++ str "|" ++ config_hash.

(** [hashlib.sha256(key_data.encode()).hexdigest()[:16]] *)
Definition doc_hash (key_data : pystr) : result pystr :=
  data <- encode key_data ;;
  ret (take 16 (Sha256.hexdigest data)).

(** [generate_cache_key(text, engine_name, config_hash)].  The argument
    [config_hash] is what [hash_config] made of the configuration (an MD5
    prefix of its JSON text, not modelled). *)
Definition generate_cache_key (text engine_name config_hash : pystr)
    : result pystr :=
  doc_hash <- doc_hash (key_data text engine_name config_hash) ;;
  ret (str "privacy:doc:" ++ doc_hash).

(** ** The L1 cache *)

(** [class MemoryCache]; the values are [dict]s. *)
Record MemoryCache : Type := {
  cache : cachetools.LRUCache dict;
  expiry : gmap pystr Z;
  max_size : Z
}.

(** [MemoryCache(max_size)] *)
Definition MemoryCache_init (max_size : Z) : MemoryCache :=
  {| cache := cachetools.LRUCache_init max_size;
     expiry := ∅;
     max_size := max_size |}.

Definition with_cache (c : MemoryCache) (cache : cachetools.LRUCache dict)
    : MemoryCache :=
  {| cache := cache; expiry := expiry c; max_size := max_size c |}.

(** [get(key)] when [datetime.now()] reads [now]. *)
Definition MemoryCache_get (now : Z) (key : pystr) (c : MemoryCache)
    : cachetools.outcome (option dict) * MemoryCache :=
  if negb (cachetools.contains (cache c) key) then (inr None, c)
  else
    let expired :=
      match expiry c !! key with
      | Some t => (t <? now)%Z
      | None => false
      end in
    if expired then
      match cachetools.delitem (cache c) key with
      | (inl e, cache') => (inl e, with_cache c cache')
      | (inr _, cache') =>
          (inr None,
           {| cache := cache'; expiry := delete key (expiry c);
              max_size := max_size c |})
      end
    else
      match cachetools.getitem (cache c) key with
      | (inl e, cache') => (inl e, with_cache c cache')
      | (inr value, cache') => (inr (Some value), with_cache c cache')
      end.

(** [set(key, value, ttl_seconds)] when [datetime.now()] reads [now]: the
    value is stored before the expiry is computed. *)
Definition MemoryCache_set (now : Z) (key : pystr) (value : dict)
    (ttl_seconds : Z) (c : MemoryCache)
    : cachetools.outcome unit * MemoryCache :=
  match cachetools.setitem (cache c) key value with
  | (inl e, cache') => (inl e, with_cache c cache')
  | (inr _, cache') =>
      match cachetools.timedelta ttl_seconds with
      | inl e => (inl e, with_cache c cache')
      | inr delta =>
          match cachetools.datetime_add now delta with
          | inl e => (inl e, with_cache c cache')
          | inr t =>
              (inr tt,
               {| cache := cache'; expiry := <[key := t]> (expiry c);
                  max_size := max_size c |})
          end
      end
  end.

(** [invalidate(key)] *)
Definition MemoryCache_invalidate (key : pystr) (c : MemoryCache)
    : cachetools.outcome unit * MemoryCache :=
  let deleted :=
    if cachetools.contains (cache c) key
    then cachetools.delitem (cache c) key
    else (inr tt, cache c) in
  match deleted with
  | (inl e, cache') => (inl e, with_cache c cache')
  | (inr _, cache') =>
      (inr tt,
       {| cache := cache';
          expiry := match expiry c !! key with
                    | Some _ => delete key (expiry c)
                    | None => expiry c
                    end;
          max_size := max_size c |})
  end.

(** [clear()] *)
Definition MemoryCache_clear (c : MemoryCache) : MemoryCache :=
  {| cache := cachetools.clear (cache c); expiry := ∅;
     max_size := max_size c |}.

End cache_manager.

(* ===================================================================== *)
(** * float: IEEE 754 binary64, and decimal.Decimal *)
(* ===================================================================== *)

Module pyfloat.

#[local] Open Scope Z_scope.

(** A [float] is a binary64 number of the Standard Library's [SpecFloat];
    the operations round to nearest, ties to even. *)
Abbreviation float := spec_float.

Definition prec : Z := 53.
Definition emax : Z := 1024.

Definition add : float -> float -> float := SFadd prec emax.
Definition mul : float -> float -> float := SFmul prec emax.
Definition neg : float -> float := SFopp.
Definition abs : float -> float := SFabs.

(** [a < b] and [a > b]; both are [False] when one side is a NaN. *)
Definition lt (a b : float) : bool := SFltb a b.
Definition gt (a b : float) : bool := SFltb b a.


(** The float nearest to [n / d], with the sign [s]: what a decimal literal
    and [float()] of a decimal number give. *)
Definition ratio (s : bool) (n d : positive) : float :=
  SFdiv prec emax (S754_finite s n 0) (S754_finite false d 0).

Definition zero : float := S754_zero false.
Definition one : float := ratio false 1 1.

(** An [int] as an exact operand of a division. *)
Definition exact (n : Z) : float :=
  match n with
  | 0 => S754_zero false
  | Zpos p => S754_finite false p 0
  | Zneg p => S754_finite true p 0
  end.

(** [a / b] on two [int]s: the float nearest to the quotient. *)
Definition int_truediv (a b : Z) : result float :=
  if b =? 0 then raise (ZeroDivisionError "division by zero")
  else
    match SFdiv prec emax (exact a) (exact b) with
    | S754_infinity _ =>
        raise (OverflowError "integer division result too large for a float")
    | q => ret q
    end.

(** [decimal.Decimal]: sign, coefficient and exponent of a finite number,
    an infinity, or a (quiet) NaN. *)
Inductive Decimal : Type :=
| Finite (sign : bool) (coefficient : N) (exponent : Z)
| Infinity (sign : bool)
| NaN.

(** [float(d)] *)
Definition float_of_Decimal (d : Decimal) : float :=
  match d with
  | Finite s 0%N _ => S754_zero s
  | Finite s (Npos c) e =>
      if 0 <=? e then ratio s (c * Z.to_pos (10 ^ e)) 1
      else ratio s c (Z.to_pos (10 ^ (- e)))
  | Infinity s => S754_infinity s
  | NaN => S754_nan
  end.

End pyfloat.

(* ===================================================================== *)
(** * benchmarking/selector.py *)
(* ===================================================================== *)

Module selector.

Import pyfloat.

(** The columns of [BenchmarkResult] that the selector reads.  The metrics
    are [Numeric] columns, [Decimal] values or [None]; the latency is an
    [Integer] column, an [int] or [None]. *)
Record BenchmarkResult : Type := {
  engine : string;
  f1_score : option Decimal;
  precision : option Decimal;
  recall : option Decimal;
  p95_latency_ms : option Z
}.

(** [float(x)] on a column value. *)
Definition float_of (x : option Decimal) : result float :=
  match x with
  | Some d => ret (float_of_Decimal d)
  | None =>
      raise (TypeError "float() argument must be a string or a real number")
  end.

(** [class WinnerSelector]: [weights] is a dict of floats; [math_exp] is
    [math.exp], which returns or raises [OverflowError]. *)
Record WinnerSelector : Type := {
  weights : list (string * float);
  latency_target_ms : Z;
  math_exp : float -> result float
}.

Definition default_weights : list (string * float) :=
  [ ("f1_score", ratio false 5 10);
    ("p95_latency", ratio false 3 10);
    ("precision", ratio false 1 10);
    ("recall", ratio false 1 10) ].


(** [self.weights[key]] *)
Definition weight (s : WinnerSelector) (key : string) : result float :=
  match dict_get (weights s) key with
  | Some w => ret w
  | None => raise (KeyError key)
  end.

(** [max(a, b)] and [min(a, b)] of two numbers keep the first unless the
    second is strictly beyond it. *)
Definition max2 (a b : float) : float := if gt b a then b else a.
Definition min2 (a b : float) : float := if lt b a then b else a.

(** [_normalize_latency(latency_ms)] *)
Definition _normalize_latency (s : WinnerSelector) (latency_ms : option Z)
    : result float :=
  match latency_ms with
  | None => raise (TypeError "'<=' not supported between instances of 'NoneType' and 'int'")
  | Some latency_ms =>
      if (latency_ms <=? latency_target_ms s)%Z then ret one
      else
        let k := one in
        normalized_excess <-
          int_truediv (latency_ms - latency_target_ms s)
            (latency_target_ms s) ;;
        score <- math_exp s (mul (neg k) normalized_excess) ;;
        ret (max2 zero (min2 one score))
  end.

(** [_calculate_score(result)] *)
Definition _calculate_score (s : WinnerSelector) (result : BenchmarkResult)
    : Py.result float :=
  f1 <- float_of (f1_score result) ;;
  w <- weight s "f1_score" ;;
  let f1_component := mul f1 w in
  latency_normalized <- _normalize_latency s (p95_latency_ms result) ;;
  w <- weight s "p95_latency" ;;
  let latency_component := mul latency_normalized w in
  p <- float_of (precision result) ;;
  w <- weight s "precision" ;;
  let precision_component := mul p w in
  r <- float_of (recall result) ;;
  w <- weight s "recall" ;;
  let recall_component := mul r w in
  ret (add (add (add f1_component latency_component) precision_component)
         recall_component).

(** The loop [for result in results: scores[result.engine] = score] *)
Fixpoint fill_scores (s : WinnerSelector) (scores : list (string * float))
    (results : list BenchmarkResult) : result (list (string * float)) :=
  match results with
  | [] => ret scores
  | result :: rest =>
      score <- _calculate_score s result ;;
      fill_scores s (dict_set scores (engine result) score) rest
  end.

(** [max(scores, key=scores.get)]: the keys are visited in the order of the
    dict, and a key replaces the best one so far when its score is strictly
    greater. *)
Fixpoint max_from (best : string * float) (rest : list (string * float))
    : string :=
  match rest with
  | [] => best.1
  | item :: rest' =>
      if gt item.2 best.2 then max_from item rest' else max_from best rest'
  end.

(** [select_winner(results)] *)
Definition select_winner (s : WinnerSelector) (results : list BenchmarkResult)
    : result string :=
  match results with
  | [] => raise (ValueError "Results list cannot be empty")
  | _ =>
      scores <- fill_scores s [] results ;;
      match scores with
      | [] => raise (ValueError "max() arg is an empty sequence")
      | first :: rest => ret (max_from first rest)
      end
  end.

End selector.

(* ===================================================================== *)
(** * The character database on U+0000 .. U+00FF *)
(* ===================================================================== *)

Module latin1_db.

#[local] Open Scope N_scope.

(** [c.lower()]: the capital letters of Basic Latin and Latin-1 Supplement
    (U+00D7 is the multiplication sign). *)
Definition lower_char (c : char) : char :=
  if (65 <=? c) && (c <=? 90) then c + 32
  else if (192 <=? c) && (c <=? 222) && negb (c =? 215) then c + 32
  else c.

(** [c.upper()]: the small letters; U+00DF gives "SS", U+00B5 and U+00FF
    have their capitals outside Latin-1 (U+039C, U+0178), U+00F7 is the
    division sign. *)
Definition upper_char (c : char) : pystr :=
  if (97 <=? c) && (c <=? 122) then [c - 32]
  else if c =? 223 then [83; 83]
  else if c =? 181 then [924]
  else if c =? 255 then [376]
  else if (224 <=? c) && (c <=? 254) && negb (c =? 247) then [c - 32]
  else [c].

(** [c.isdigit()]: the ASCII digits and the superscripts U+00B2, U+00B3,
    U+00B9. *)
Definition isdigit_char (c : char) : bool :=
  (48 <=? c) && (c <=? 57) || (c =? 178) || (c =? 179) || (c =? 185).

(** [int(c)]: the decimal digits only. *)
Definition int_of_char (c : char) : option nat :=
  if (48 <=? c) && (c <=? 57) then Some (N.to_nat (c - 48)) else None.

(** The simple capital of a character: as [upper_char], but U+00DF has
    none. *)
Definition simple_upper_char (c : char) : char :=
  if (97 <=? c) && (c <=? 122) then c - 32
  else if c =? 181 then 924
  else if c =? 255 then 376
  else if (224 <=? c) && (c <=? 254) && negb (c =? 247) then c - 32
  else c.

(** [c.isalnum()]: digits, letters, the ordinal indicators, the micro
    sign, the superscripts and the fractions. *)
Definition isalnum_char (c : char) : bool :=
  (48 <=? c) && (c <=? 57) || (65 <=? c) && (c <=? 90)
  || (97 <=? c) && (c <=? 122) || (c =? 170) || (c =? 178) || (c =? 179)
  || (c =? 181) || (c =? 185) || (c =? 186)
  || (188 <=? c) && (c <=? 190) || (192 <=? c) && (c <=? 214)
  || (216 <=? c) && (c <=? 246) || (248 <=? c) && (c <=? 255).

End latin1_db.

(** The operations on texts of code points up to U+00FF (which are all in
    normal form C); a code point beyond is left as it is. *)
Definition latin1 : UnicodeDB :=
  {| lower := map latin1_db.lower_char;
     upper := flat_map latin1_db.upper_char;
     isdigit_char := latin1_db.isdigit_char;
     int_of_char := latin1_db.int_of_char;
     normalize_NFC := fun s => s;
     tolower_char := latin1_db.lower_char;
     toupper_char := latin1_db.simple_upper_char;
     isalnum_char := latin1_db.isalnum_char |}.

(* ===================================================================== *)
(** * Verification *)
(* ===================================================================== *)

(** ** Validators *)

(** C3.  The code of scenario S1, "RSSMRA85T10A562S", has the check letter
    'S' under the recognizer's tables, so [ItalianCFRecognizer] accepts it
    ([_validate_cf_checksum] and [validate_result] return [True]); the
    validator of the filter chain, which looks the characters of the odd
    positions up in the string [odd_chars], computes another letter and
    returns [False]. *)
Theorem fiscal_code_S1_recognizer_accepts_filter_rejects :
  cf_recognizer._validate_cf_checksum (str "RSSMRA85T10A562S") = inr true
  /\ cf_recognizer.validate_result (U := latin1) (str "RSSMRA85T10A562S")
     = inr true
  /\ filters.validate_italian_fiscal_code (U := latin1)
       (str "RSSMRA85T10A562S") = inr false.
Proof. repeat split; vm_compute; reflexivity. Qed.

(** The sums behind C3: 122 (letter 'S') with the recognizer's tables, 114
    (letter 'K') with the positions in [odd_chars]. *)
Lemma fiscal_code_S1_totals :
  cf_recognizer.checksum_total 0 (str "RSSMRA85T10A562") = 122
  /\ filters.cf_total (U := latin1) 0 (str "RSSMRA85T10A562") = inr 114.
Proof. split; vm_compute; reflexivity. Qed.

(** C7.  The validator of the filter chain accepts the eleven digits
    "00000000000", which begin with '0': the sum is 0 and so is the check
    digit. *)
Theorem validate_italian_vat_accepts_leading_zero :
  filters.validate_italian_vat (U := latin1) (str "00000000000") = inr true.
Proof. vm_compute; reflexivity. Qed.

Section recognizer_facts.
Context {U : UnicodeDB}.

(** The recognizer's [validate_result] refuses every text that begins with
    '0', whatever follows. *)
Lemma piva_validate_result_leading_zero (rest : pystr) :
  piva_recognizer.validate_result (48%N :: rest) = inr false.
Proof. reflexivity. Qed.

End recognizer_facts.

(** ** Context classification *)

Section detect_context_facts.
Context {U : UnicodeDB}.

(** The jurisdiction only depends on the four tests of the lower-case
    window. *)
Lemma detect_context_jurisdiction (text : pystr) (max_chars : Z) :
  filters.jurisdiction (filters.detect_context text max_chars)
  = let sample := lower (slice_to text max_chars) in
    if contains (str "civile") sample || contains (str "c.c.") sample
    then Some (str "civile")
    else if contains (str "penale") sample || contains (str "c.p.") sample
    then Some (str "penale")
    else if contains (str "amministrativo") sample
            || contains (str "tar") sample
    then Some (str "amministrativo")
    else None.
Proof.
  unfold filters.detect_context. cbv zeta.
  match goal with |- context [let '(_, _) := ?c in _] => destruct c end.
  reflexivity.
Qed.

End detect_context_facts.

(** [p] occurs in [s]: [s] can be cut so that [p] stands between the
    cuts. *)
Definition occurs_in (p s : pystr) : Prop :=
  exists before behind, s = before ++ p ++ behind.

(** The opening window of the claim: the first [max_chars] characters. *)
Definition opening_window (text : pystr) (max_chars : Z) : pystr :=
  take (Z.to_nat max_chars) text.

Lemma startswith_prefix (p s : pystr) :
  startswith p s = true <-> exists behind, s = p ++ behind.
Proof.
  revert s. induction p as [|a p IH]; intros s; simpl.
  - split; [by exists s|done].
  - destruct s as [|b s]; [split; [done|by intros [? ?]]|].
    rewrite andb_true_iff, N.eqb_eq, IH. split.
    + intros [-> [behind ->]]. by exists behind.
    + intros [behind [= -> ->]]. split; [done|by exists behind].
Qed.

Lemma contains_occurs (p s : pystr) :
  contains p s = true <-> occurs_in p s.
Proof.
  unfold occurs_in. induction s as [|b s IH].
  - simpl. rewrite orb_false_r, startswith_prefix. split.
    + intros [behind ->]. by exists [], behind.
    + intros (before & behind & H). symmetry in H.
      apply app_eq_nil in H as [-> H].
      apply app_eq_nil in H as [-> ->]. by exists [].
  - cbn [contains]. rewrite orb_true_iff, startswith_prefix, IH. split.
    + intros [[behind ->]|(before & behind & ->)].
      * by exists [], behind.
      * by exists (b :: before), behind.
    + intros ([|c before] & behind & H).
      * left. by exists behind.
      * injection H as -> ->. right. by exists before, behind.
Qed.

Section detect_context_tar.
Context {U : UnicodeDB}.

(** C10, amended.  When the first [max_chars] characters, in lower case,
    contain "tar" anywhere and none of "civile", "c.c.", "penale", "c.p.",
    the jurisdiction is "amministrativo". *)
Theorem detect_context_tar_is_amministrativo (text : pystr) (max_chars : Z) :
  let window := lower (opening_window text max_chars) in
  (0 <= max_chars)%Z ->
  occurs_in (str "tar") window ->
  ~ occurs_in (str "civile") window ->
  ~ occurs_in (str "c.c.") window ->
  ~ occurs_in (str "penale") window ->
  ~ occurs_in (str "c.p.") window ->
  filters.jurisdiction (filters.detect_context text max_chars)
  = Some (str "amministrativo").
Proof.
  intros window Hmax Htar Hciv Hcc Hpen Hcp.
  rewrite detect_context_jurisdiction. cbv zeta.
  assert (Hw : lower (slice_to text max_chars) = window).
  { unfold window, opening_window, slice_to.
    by rewrite (proj2 (Z.ltb_ge _ _) Hmax). }
  rewrite Hw.
  apply contains_occurs in Htar.
  rewrite <- contains_occurs in Hciv, Hcc, Hpen, Hcp.
  apply not_true_is_false in Hciv, Hcc, Hpen, Hcp.
  rewrite Hciv, Hcc, Hpen, Hcp, Htar.
  rewrite orb_true_r. reflexivity.
Qed.

End detect_context_tar.

(** The word "ritardo" is enough. *)
Lemma detect_context_tar_witness :
  filters.jurisdiction
    (filters.detect_context (U := latin1)
       (str "Il ritardo nella consegna") 2000)
  = Some (str "amministrativo").
Proof.
  apply (detect_context_tar_is_amministrativo (U := latin1)).
  - lia.
  - by exists (str "il ri"), (str "do nella consegna").
  - rewrite <- contains_occurs. by vm_compute.
  - rewrite <- contains_occurs. by vm_compute.
  - rewrite <- contains_occurs. by vm_compute.
  - rewrite <- contains_occurs. by vm_compute.
Defined.

(** C10, refuted as it is worded.  The text holds "tar" (in "ritardo") and
    none of the four keywords as they are written, so the claim promises
    "amministrativo"; the window is searched in lower case, where "Codice
    Civile" holds "civile", and the jurisdiction is "civile". *)
Lemma detect_context_tar_capital_keyword :
  contains (str "tar") (str "Il ritardo ai sensi del Codice Civile") = true
  /\ contains (str "civile") (str "Il ritardo ai sensi del Codice Civile")
     = false
  /\ contains (str "c.c.") (str "Il ritardo ai sensi del Codice Civile")
     = false
  /\ contains (str "penale") (str "Il ritardo ai sensi del Codice Civile")
     = false
  /\ contains (str "c.p.") (str "Il ritardo ai sensi del Codice Civile")
     = false
  /\ filters.jurisdiction
       (filters.detect_context (U := latin1)
          (str "Il ritardo ai sensi del Codice Civile") 2000)
     = Some (str "civile").
Proof. repeat split; vm_compute; reflexivity. Qed.

(** On Latin-1 texts a "tar" of the window itself survives [lower]. *)
Lemma startswith_map (f : char -> char) (p s : pystr) :
  startswith p s = true -> startswith (map f p) (map f s) = true.
Proof.
  revert s; induction p as [|a p IH]; intros [|b s]; simpl; try done.
  intros [Hab Hps]%andb_prop. apply N.eqb_eq in Hab as ->.
  rewrite N.eqb_refl. simpl. auto.
Qed.

Lemma contains_map (f : char -> char) (p s : pystr) :
  contains p s = true -> contains (map f p) (map f s) = true.
Proof.
  induction s as [|b s IH]; simpl.
  - rewrite orb_false_r. intros H. apply (startswith_map f) in H.
    simpl in H. rewrite H. reflexivity.
  - intros [H|H]%orb_prop.
    + apply (startswith_map f) in H. simpl in H. rewrite H. reflexivity.
    + rewrite (IH H). apply orb_true_r.
Qed.

Lemma latin1_lower_keeps_tar (w : pystr) :
  contains (str "tar") w = true ->
  contains (str "tar") (lower (UnicodeDB := latin1) w) = true.
Proof. intros H. apply (contains_map latin1_db.lower_char) in H. exact H. Qed.

(** ** The deterministic strategy *)

Section deterministic_facts.
Context {U : UnicodeDB}.

Import strategies.

(** The placeholder number [i] of kind [K] as the specification writes it:
    the tag of the kind, an underscore, and the index, which is a letter up
    to 26 for persons and organizations. *)
Definition placeholder (K : EntityType) (i : nat) : pystr :=
  value K ++ str "_"
  ++ match K with
     | PERSON | ORGANIZATION =>
         if i <=? 26 then [N.of_nat (64 + i)] else str_of_nat i
     | _ => str_of_nat i
     end.

(** The counter of kind [K] (0 before the first span of the kind). *)
Definition counter (d : DeterministicReplacer) (K : EntityType) : nat :=
  default 0 (entity_counters d !! K).


Lemma format_default (ty ix : pystr) :
  format deterministic_default ty (Some ix) = inr (ty ++ str "_" ++ ix).
Proof.
  unfold deterministic_default. simpl. unfold bind, ret. simpl.
  rewrite app_nil_r. reflexivity.
Qed.

Lemma index_str_placeholder (K : EntityType) (i : nat) :
  value K ++ str "_" ++ index_str true K i = placeholder K i.
Proof. unfold placeholder, index_str, chr. destruct K; reflexivity. Qed.



End deterministic_facts.

Section placeholder_sequence.
Context {U : UnicodeDB}.

Import strategies.

(** The answers of successive calls of [replace] on one replacer, each call
    on the replacer as the call before left it. *)
Fixpoint replies (d : DeterministicReplacer) (es : list DetectedEntity)
    : list (result pystr) :=
  match es with
  | [] => []
  | e :: es' =>
      let '(r, d') := deterministic_replace d e in r :: replies d' es'
  end.


(** What the statement is about, in its own words.  Two spans are mentions
    of the same thing when they have the same kind and, up to [str.lower],
    the same text; the span at position [i] is a first occurrence of kind
    [K] when it has kind [K] and no span before it mentions the same
    thing. *)
Definition same_mention (a b : DetectedEntity) : bool :=
  bool_decide (type a = type b)
  && bool_decide (lower (text a) = lower (text b)).

Definition first_occurrence (K : EntityType) (es : list DetectedEntity)
    (i : nat) : bool :=
  match es !! i with
  | Some e =>
      bool_decide (type e = K)
      && forallb (fun e' => negb (same_mention e' e)) (take i es)
  | None => false
  end.

Definition first_occurrences (K : EntityType) (es : list DetectedEntity)
    : list nat :=
  List.filter (first_occurrence K es) (seq 0 (length es)).

(** The tag that stands for a kind in a placeholder. *)
Definition kind_tag (K : EntityType) : string :=
  match K with
  | PERSON => "PERSON"
  | ORGANIZATION => "ORG"
  | LOCATION => "LOC"
  | DATE => "DATE"
  | FISCAL_CODE => "CF"
  | VAT_NUMBER => "PIVA"
  | EMAIL => "EMAIL"
  | PHONE => "PHONE"
  | ADDRESS => "ADDRESS"
  | COURT => "COURT"
  | JUDGE => "JUDGE"
  | LAWYER => "LAWYER"
  | ID_CARD => "ID_CARD"
  | PASSPORT => "PASSPORT"
  | IBAN => "IBAN"
  | OTHER => "OTHER"
  end.

(** The name of a kind, which the claim puts in that place. *)
Definition kind_name (K : EntityType) : string :=
  match K with
  | PERSON => "PERSON"
  | ORGANIZATION => "ORGANIZATION"
  | LOCATION => "LOCATION"
  | DATE => "DATE"
  | FISCAL_CODE => "FISCAL_CODE"
  | VAT_NUMBER => "VAT_NUMBER"
  | EMAIL => "EMAIL"
  | PHONE => "PHONE"
  | ADDRESS => "ADDRESS"
  | COURT => "COURT"
  | JUDGE => "JUDGE"
  | LAWYER => "LAWYER"
  | ID_CARD => "ID_CARD"
  | PASSPORT => "PASSPORT"
  | IBAN => "IBAN"
  | OTHER => "OTHER"
  end.

(** The letters "A" .. "Z" for 1 .. 26. *)
Definition letter (n : nat) : pystr :=
  match n with
  | 0 => []
  | S k => take 1 (drop k (str "ABCDEFGHIJKLMNOPQRSTUVWXYZ"))
  end.

(** Number [n] of a kind, written behind [label]: [label_A] .. [label_Z],
    [label_27], ... for persons and organizations, [label_1], [label_2],
    ... for the other kinds. *)
Definition numbered (label : string) (K : EntityType) (n : nat) : pystr :=
  str label ++ str "_"
  ++ (if bool_decide (K = PERSON \/ K = ORGANIZATION) && (n <=? 26)
      then letter n else str_of_nat n).












End placeholder_sequence.

(** A span of a kind as an engine reports it. *)
Definition mention (kind : EntityType) (s : string) (start : nat)
    : DetectedEntity :=
  {| text := str s; type := kind;
     start := start; end_ := start + String.length s;
     confidence := 0.95;
     context_before := None; context_after := None; metadata := [] |}.

(** C6, refuted as it is worded.  The spans of scenario S1 and an
    organization: each is the first occurrence of its kind, and the answers
    are "PERSON_A", "CF_1" and "ORG_A", where the claim, with the kind
    itself in the place of [K], reads "FISCAL_CODE_1" and
    "ORGANIZATION_A". *)
Lemma deterministic_placeholder_has_tag_not_kind :
  let es := [mention PERSON "Mario Rossi" 7;
             mention FISCAL_CODE "RSSMRA85T10A562S" 24;
             mention ORGANIZATION "Studio Bianchi" 50] in
  replies (U := latin1)
    (strategies.DeterministicReplacer_init strategies.deterministic_default
       true) es
  = [inr (str "PERSON_A"); inr (str "CF_1"); inr (str "ORG_A")]
  /\ first_occurrences (U := latin1) FISCAL_CODE es = [1]
  /\ first_occurrences (U := latin1) ORGANIZATION es = [2]
  /\ numbered (kind_name FISCAL_CODE) FISCAL_CODE 1 = str "FISCAL_CODE_1"
  /\ numbered (kind_name ORGANIZATION) ORGANIZATION 1
     = str "ORGANIZATION_A".
Proof. repeat split; vm_compute; reflexivity. Qed.

(** Case is ignored when occurrences are told apart, and the numbers of a
    kind do not depend on the other kinds. *)
Lemma deterministic_placeholder_examples :
  let es := [mention PERSON "Mario Rossi" 0;
             mention ORGANIZATION "Studio Bianchi" 20;
             mention PERSON "MARIO ROSSI" 40;
             mention PERSON "Anna Verdi" 60;
             mention LOCATION "Roma" 80] in
  replies (U := latin1)
    (strategies.DeterministicReplacer_init strategies.deterministic_default
       true) es
  = [inr (str "PERSON_A"); inr (str "ORG_A"); inr (str "PERSON_A");
     inr (str "PERSON_B"); inr (str "LOC_1")]
  /\ first_occurrences (U := latin1) PERSON es = [0; 3]
  /\ numbered (kind_tag PERSON) PERSON 26 = str "PERSON_Z"
  /\ numbered (kind_tag PERSON) PERSON 27 = str "PERSON_27"
  /\ numbered (kind_tag VAT_NUMBER) VAT_NUMBER 3 = str "PIVA_3".
Proof. repeat split; vm_compute; reflexivity. Qed.

(** The placeholders of the claim, written out. *)
Lemma placeholder_examples :
  placeholder PERSON 1 = str "PERSON_A"
  /\ placeholder PERSON 26 = str "PERSON_Z"
  /\ placeholder PERSON 27 = str "PERSON_27"
  /\ placeholder ORGANIZATION 2 = str "ORG_B"
  /\ placeholder FISCAL_CODE 1 = str "CF_1"
  /\ placeholder LOCATION 12 = str "LOC_12".
Proof. repeat split; vm_compute; reflexivity. Qed.

(** ** Cache fingerprints *)









(** ** The rewriter: [replace_all] *)

Section replace_all_facts.
Context {U : UnicodeDB}.

Import strategies.

(** The replacements that the loop of [replace_all] asks the strategy for,
    in the order of the loop, and the strategy as the loop leaves it. *)
Fixpoint replacements (s : ReplacementStrategy)
    (sorted_entities : list DetectedEntity)
    : result (list pystr) * ReplacementStrategy :=
  match sorted_entities with
  | [] => (ret [], s)
  | entity :: rest =>
      match replace s entity with
      | (inr replacement, s') =>
          match replacements s' rest with
          | (inr rs, s'') => (ret (replacement :: rs), s'')
          | (inl e, s'') => (inl e, s'')
          end
      | (inl e, s') => (inl e, s')
      end
  end.

(** One splice: [text[:start] + replacement + text[end:]]. *)
Definition splice (text : pystr) (span : DetectedEntity * pystr) : pystr :=
  take (start span.1) text ++ span.2 ++ drop (end_ span.1) text.

(** The loop computes the replacements and splices them in, one after the
    other. *)
Lemma replace_loop_splices (sorted_entities : list DetectedEntity) :
  forall s result_text,
    replace_loop s result_text sorted_entities
    = match replacements s sorted_entities with
      | (inr rs, s') =>
          (inr (foldl splice result_text (zip sorted_entities rs)), s')
      | (inl e, s') => (inl e, s')
      end.
Proof.
  induction sorted_entities as [|entity rest IH]; intros s result_text; simpl.
  - reflexivity.
  - destruct (replace s entity) as [[e|replacement] s']; [reflexivity|].
    rewrite IH.
    destruct (replacements s' rest) as [[e|rs] s'']; reflexivity.
Qed.

Lemma replacements_length sorted_entities :
  forall s rs s',
    replacements s sorted_entities = (inr rs, s') ->
    length rs = length sorted_entities.
Proof.
  induction sorted_entities as [|entity rest IH]; intros s rs s'; simpl.
  - intros [= <- _]. reflexivity.
  - destruct (replace s entity) as [[e|replacement] s1]; [discriminate|].
    destruct (replacements s1 rest) as [[e|rs1] s2] eqn:Hrest; [discriminate|].
    intros [= <- _]. simpl. f_equal. eapply IH, Hrest.
Qed.

(** The text in which the spans, given in ascending order with their
    replacements, stand for the characters [start .. end) of each span, and
    everything between [pos] and [bound] outside the spans is kept. *)
Fixpoint weave (pos bound : nat) (text : pystr)
    (spans : list (DetectedEntity * pystr)) : pystr :=
  match spans with
  | [] => slice text pos bound
  | span :: rest =>
      slice text pos (start span.1) ++ span.2
      ++ weave (end_ span.1) bound text rest
  end.

(** Spans in descending order that lie below [bound] and do not overlap:
    each one ends where the one before it in the list starts, or earlier. *)
Fixpoint descending_disjoint (bound : nat) (spans : list DetectedEntity)
    : Prop :=
  match spans with
  | [] => True
  | e :: rest =>
      start e < end_ e /\ end_ e <= bound /\ descending_disjoint (start e) rest
  end.

Lemma weave_snoc (text : pystr) (spans : list (DetectedEntity * pystr))
    (span : DetectedEntity * pystr) :
  forall pos bound,
    weave pos bound text (spans ++ [span])
    = weave pos (start span.1) text spans ++ span.2
      ++ slice text (end_ span.1) bound.
Proof.
  induction spans as [|sp spans IH]; intros pos bound; simpl.
  - reflexivity.
  - rewrite IH. by rewrite <- !app_assoc.
Qed.

(** Splicing non-overlapping spans from the last to the first builds the
    weave; [tail] is what was already built behind [bound]. *)
Lemma foldl_splice_weave (text : pystr) (sorted : list DetectedEntity) :
  forall (rs : list pystr) (bound : nat) (tail : pystr),
    bound <= length text ->
    length rs = length sorted ->
    descending_disjoint bound sorted ->
    foldl splice (take bound text ++ tail) (zip sorted rs)
    = weave 0 bound text (rev (zip sorted rs)) ++ tail.
Proof.
  induction sorted as [|e rest IH]; intros rs bound tail Hb Hlen Hd.
  - simpl. unfold slice. rewrite drop_0, Nat.sub_0_r. reflexivity.
  - destruct rs as [|r rs]; [discriminate|]. simpl in Hlen.
    destruct Hd as (Hse & Heb & Hd). simpl.
    unfold splice at 2. simpl.
    rewrite take_app_le by (rewrite length_take; lia).
    rewrite take_take. rewrite Nat.min_l by lia.
    rewrite drop_app_le by (rewrite length_take; lia).
    rewrite IH; [|lia|lia|exact Hd].
    rewrite weave_snoc. simpl. unfold slice.
    rewrite <- !app_assoc. do 3 f_equal.
    rewrite take_drop_commute. do 2 f_equal. lia.
Qed.

(** Rewriting.  When the spans, sorted by descending start, lie in the text
    and do not overlap, a successful [replace_all] returns the weave of the
    text with the replacements it asked the strategy for. *)
Lemma replace_all_weave (s s' : ReplacementStrategy) (text out : pystr)
    (entities : list DetectedEntity) :
  let sorted := sorted_desc start entities in
  descending_disjoint (length text) sorted ->
  replace_all s text entities = (inr out, s') ->
  exists rs,
    replacements s sorted = (inr rs, s')
    /\ out = weave 0 (length text) text (rev (zip sorted rs)).
Proof.
  intros sorted Hd. unfold replace_all. fold sorted.
  rewrite replace_loop_splices.
  destruct (replacements s sorted) as [[e|rs] s1] eqn:Hrs; [discriminate|].
  intros [= <- <-]. exists rs. split; [reflexivity|].
  pose proof (foldl_splice_weave text sorted rs (length text) [])
    as Hw.
  rewrite take_ge, !app_nil_r in Hw by lia.
  apply Hw; [lia| |exact Hd]. eapply replacements_length, Hrs.
Qed.

End replace_all_facts.

(** ** Spans that do not overlap, sorted *)

Section span_facts.

(** Two spans that do not overlap, and a list of spans that pairwise do
    not. *)
Definition disjoint (a b : DetectedEntity) : Prop :=
  end_ a <= start b \/ end_ b <= start a.

Fixpoint pairwise_disjoint (es : list DetectedEntity) : Prop :=
  match es with
  | [] => True
  | e :: rest => Forall (disjoint e) rest /\ pairwise_disjoint rest
  end.

(** A span of a text of length [bound]: [0 <= start < end <= bound]. *)
Definition in_range (bound : nat) (e : DetectedEntity) : Prop :=
  start e < end_ e /\ end_ e <= bound.

Lemma elem_of_insert_desc {A} (key : A -> nat) (x y : A) (l : list A) :
  y ∈ insert_desc key x l <-> y = x \/ y ∈ l.
Proof.
  induction l as [|z l IH]; simpl.
  - rewrite list_elem_of_singleton. split; [auto|].
    intros [H|H]; [done|]. by apply not_elem_of_nil in H.
  - destruct (key z <=? key x); rewrite !elem_of_cons; [done|].
    rewrite IH. tauto.
Qed.

Lemma elem_of_sorted_desc {A} (key : A -> nat) (y : A) (l : list A) :
  y ∈ sorted_desc key l <-> y ∈ l.
Proof.
  induction l as [|x l IH]; [done|].
  change (sorted_desc key (x :: l))
    with (insert_desc key x (sorted_desc key l)).
  rewrite elem_of_insert_desc, IH, elem_of_cons. done.
Qed.

Lemma insert_desc_disjoint (x : DetectedEntity) (l : list DetectedEntity) :
  forall bound,
    in_range bound x ->
    Forall (disjoint x) l ->
    descending_disjoint bound l ->
    descending_disjoint bound (insert_desc start x l).
Proof.
  induction l as [|y l IH]; intros bound [Hx1 Hx2] Hdis Hd; simpl.
  - auto.
  - apply Forall_cons in Hdis as [Hxy Hdis].
    destruct Hd as (Hy1 & Hy2 & Hd).
    destruct (start y <=? start x) eqn:Hle.
    + apply Nat.leb_le in Hle. simpl. repeat split; try done.
      destruct Hxy as [H|H]; lia.
    + apply Nat.leb_gt in Hle. simpl. repeat split; try done.
      apply IH; [|done|done]. split; [done|].
      destruct Hxy as [H|H]; lia.
Qed.

(** Spans of a text that pairwise do not overlap are, sorted by descending
    start, a chain in which each span ends before the one before it
    starts. *)
Lemma sorted_desc_disjoint (bound : nat) (es : list DetectedEntity) :
  Forall (in_range bound) es ->
  pairwise_disjoint es ->
  descending_disjoint bound (sorted_desc start es).
Proof.
  induction es as [|e es IH]; intros Hr Hp; [done|].
  change (sorted_desc start (e :: es))
    with (insert_desc start e (sorted_desc start es)).
  apply Forall_cons in Hr as [He Hr]. destruct Hp as [Hdis Hp].
  apply insert_desc_disjoint; [done| |by apply IH].
  apply Forall_forall. intros y Hy. apply elem_of_sorted_desc in Hy.
  rewrite Forall_forall in Hdis. by apply Hdis.
Qed.

End span_facts.

(** ** The orchestrator: one document *)

Section process_document_facts.
Context {U : UnicodeDB}.

Import orchestrator.

Lemma initialize_initialized (o : PipelineOrchestrator) :
  initialized o = true -> initialize o = (inr tt, o).
Proof. unfold initialize. intros ->. reflexivity. Qed.

(** What a successful [process_document] did: it filtered the text, asked
    the engine (if there is one), filtered the entities, and rewrote the
    filtered text with the strategy when entities were left. *)
Lemma process_document_success (o : PipelineOrchestrator) (text : pystr)
    (md : option dict) (r : PipelineResult) :
  initialized o = true ->
  (process_document text md o).1 = inr r ->
  success r = true ->
  exists filtered_text detected again,
    filters.apply_text_filters (filter_chain o) text = inr filtered_text
    /\ match primary_engine o with
       | Some e => detect_entities e filtered_text
       | None => ret []
       end = inr detected
    /\ filters.apply (filter_chain o) filtered_text (Some detected)
       = inr (again, Some (entities r))
    /\ original_text r = text
    /\ match entities r with
       | [] => anonymized_text r = filtered_text
       | _ :: _ =>
           exists s,
             replacement_strategy o = Some s
             /\ (strategies.replace_all s filtered_text (entities r)).1
                = inr (anonymized_text r)
       end.
Proof.
  intros Hinit Hrun Hok.
  unfold process_document, mthen in Hrun.
  rewrite (initialize_initialized o Hinit) in Hrun.
  unfold try_except, process_document_try, mthen, lift, mreturn in Hrun.
  unfold filters.apply at 1 in Hrun. unfold bind, ret in Hrun.
  destruct (filters.apply_text_filters (filter_chain o) text)
    as [e|filtered_text] eqn:Htext; simpl in Hrun.
  { injection Hrun as <-. discriminate. }
  destruct (match primary_engine o with
            | Some e => detect_entities e filtered_text
            | None => inr []
            end) as [e|detected] eqn:Hdet; simpl in Hrun.
  { injection Hrun as <-. discriminate. }
  destruct (filters.apply (filter_chain o) filtered_text (Some detected))
    as [e|[again fes]] eqn:Happ; simpl in Hrun.
  { injection Hrun as <-. discriminate. }
  assert (Hfes : fes = Some (default [] fes)).
  { unfold filters.apply, bind, ret in Happ.
    destruct (filters.apply_text_filters (filter_chain o) filtered_text);
      [discriminate|].
    destruct (filters.apply_entity_filters _ _ _); [discriminate|].
    by injection Happ as _ <-. }
  exists filtered_text, detected, again.
  destruct (default [] fes) as [|e0 fes'] eqn:Hd; simpl in Hrun.
  - injection Hrun as <-. simpl. rewrite Hfes in Happ. done.
  - unfold strategy_replace_all in Hrun.
    destruct (replacement_strategy o) as [s|] eqn:Hs; simpl in Hrun.
    2:{ injection Hrun as <-. discriminate. }
    destruct (strategies.replace_all s filtered_text (e0 :: fes'))
      as [[e|out] s'] eqn:Hall; simpl in Hrun.
    { injection Hrun as <-. discriminate. }
    injection Hrun as <-. simpl. rewrite Hfes in Happ.
    repeat split; try done.
    exists s. rewrite Hall. done.
Qed.

End process_document_facts.

Section no_leakage_facts.
Context {U : UnicodeDB}.

Import orchestrator.

(** C1, amended.  A successful [process_document] returns the filtered
    (normalized) text in which the characters [start .. end) of every span
    of the result are replaced by the replacement the strategy gave for the
    span, and which is unchanged outside the spans -- provided the spans lie
    in the filtered text and do not overlap.  ([rs] are the replacements in
    the order of descending start.) *)
Theorem process_document_rewrites_spans (o : PipelineOrchestrator)
    (text : pystr) (md : option dict) (r : PipelineResult) :
  initialized o = true ->
  (process_document text md o).1 = inr r ->
  success r = true ->
  exists filtered_text rs,
    filters.apply_text_filters (filter_chain o) text = inr filtered_text
    /\ length rs = length (entities r)
    /\ (entities r <> [] ->
        exists s,
          replacement_strategy o = Some s
          /\ (replacements s (sorted_desc start (entities r))).1 = inr rs)
    /\ (Forall (in_range (length filtered_text)) (entities r) ->
        pairwise_disjoint (entities r) ->
        anonymized_text r
        = weave 0 (length filtered_text) filtered_text
            (rev (zip (sorted_desc start (entities r)) rs))).
Proof.
  intros Hinit Hrun Hok.
  destruct (process_document_success o text md r Hinit Hrun Hok)
    as (filtered_text & detected & again & Htext & _ & _ & _ & Hanon).
  exists filtered_text.
  destruct (entities r) as [|e0 es] eqn:Hes.
  - exists []. repeat split; try done.
    intros _ _. simpl. unfold slice.
    rewrite drop_0, Nat.sub_0_r, take_ge by lia. exact Hanon.
  - destruct Hanon as (s & Hs & Hall).
    destruct (strategies.replace_all s filtered_text (e0 :: es))
      as [out s'] eqn:Hall'. simpl in Hall. subst out.
    unfold strategies.replace_all in Hall'.
    rewrite replace_loop_splices in Hall'.
    destruct (replacements s (sorted_desc start (e0 :: es)))
      as [[e|rs] s1] eqn:Hrs; [discriminate|].
    injection Hall' as Hout _.
    pose proof (replacements_length _ _ _ _ Hrs) as Hlen.
    exists rs. repeat split.
    + exact Htext.
    + rewrite Hlen. clear. generalize (e0 :: es). intros l.
      induction l as [|x l IH]; [done|].
      change (sorted_desc start (x :: l))
        with (insert_desc start x (sorted_desc start l)).
      simpl. rewrite <- IH. clear. generalize (sorted_desc start l).
      intros k. induction k as [|y k IH]; simpl; [done|].
      destruct (start y <=? start x); simpl; [done|]. by rewrite IH.
    + intros _. exists s. by rewrite Hrs.
    + intros Hrange Hdis. rewrite <- Hout.
      pose proof (foldl_splice_weave filtered_text
                    (sorted_desc start (e0 :: es)) rs
                    (length filtered_text) []) as Hw.
      rewrite take_ge, !app_nil_r in Hw by lia.
      apply Hw; [lia|exact Hlen|]. by apply sorted_desc_disjoint.
Qed.

End no_leakage_facts.

(** ** Concrete runs *)

(** A PERSON span as an engine reports it. *)
Definition person (name : string) (start : nat) : DetectedEntity :=
  {| text := str name; type := PERSON;
     start := start; end_ := start + String.length name;
     confidence := 0.95;
     context_before := None; context_after := None; metadata := [] |}.

(** An engine with canned answers (the tests' [mock_engine]): the entities
    listed for a text, and none for any other text. *)
Fixpoint canned (answers : list (string * list DetectedEntity))
    (text : pystr) : list DetectedEntity :=
  match answers with
  | [] => []
  | (t, es) :: rest =>
      if bool_decide (str t = text) then es else canned rest text
  end.

Definition mock_engine (answers : list (string * list DetectedEntity))
    : orchestrator.Engine :=
  {| orchestrator.detect_entities := fun text => ret (canned answers text) |}.

(** The default configuration (deterministic strategy with the consistency
    wrapper, all filters on); the Faker locale is not used by it. *)
Definition default_config : config.PrivacyConfig :=
  config.default_config (fun _ e => text e).

(** An initialized orchestrator over [engine], on Latin-1 texts. *)
Definition orchestrator_with (engine : orchestrator.Engine)
    : orchestrator.PipelineOrchestrator :=
  (orchestrator.initialize (U := latin1)
     (orchestrator.init default_config (Some engine))).2.

(** [process_document(text)] on [o]: the result, if it returns one, and the
    orchestrator afterwards. *)
Definition run_document (text : string)
    (o : orchestrator.PipelineOrchestrator)
    : option PipelineResult * orchestrator.PipelineOrchestrator :=
  match orchestrator.process_document (U := latin1) (str text) None o with
  | (inr r, o') => (Some r, o')
  | (inl _, o') => (None, o')
  end.

(** *** No-leakage *)

Definition formula_text : string :=
  "Visto il ricorso, Mario Rossi chiede il risarcimento del danno subito nel sinistro stradale; Mario Rossi paga.".

(** The engine finds both mentions of the name. *)
Definition formula_engine : orchestrator.Engine :=
  mock_engine
    [(formula_text, [person "Mario Rossi" 18; person "Mario Rossi" 93])].

(** C1, refuted.  The first mention stands within 50 characters of the
    legal formula "visto il", so the legal-formula filter drops its span and
    the rewriter leaves it in place; the second mention is kept as a span of
    the result and replaced.  The call succeeds, its result holds the span
    ("Mario Rossi", 93, 104), and the anonymized text still contains "Mario
    Rossi". *)
Lemma process_document_leaks_filtered_mention :
  exists r span,
    (run_document formula_text (orchestrator_with formula_engine)).1 = Some r
    /\ success r = true
    /\ entities r = [span]
    /\ text span = str "Mario Rossi"
    /\ (start span, end_ span) = (93, 104)
    /\ anonymized_text r
       = str "Visto il ricorso, Mario Rossi chiede il risarcimento del danno subito nel sinistro stradale; PERSON_A paga."
    /\ contains (text span) (anonymized_text r) = true.
Proof.
  eexists. eexists. split; [vm_compute; reflexivity|].
  repeat split; vm_compute; reflexivity.
Qed.

(** *** Scenario S2: one name, twice *)

Definition S2_text : string := "Mario Rossi ha incontrato Mario Rossi.".

Definition S2_engine : orchestrator.Engine :=
  mock_engine [(S2_text, [person "Mario Rossi" 0; person "Mario Rossi" 26])].

(** The result of scenario S2 (its anonymized text is the one of
    [S2_anonymized] below). *)
Definition S2_result : PipelineResult :=
  Eval vm_compute in
    default
      {| original_text := []; anonymized_text := []; entities := [];
         success := false; error_message := None; result_metadata := [] |}
      (run_document S2_text (orchestrator_with S2_engine)).1.

Lemma S2_anonymized :
  success S2_result = true
  /\ anonymized_text S2_result = str "PERSON_A ha incontrato PERSON_A."
  /\ map (fun e => (start e, end_ e)) (entities S2_result) = [(0, 11); (26, 37)].
Proof. repeat split; vm_compute; reflexivity. Qed.

(** Both spans of scenario S2 are replaced where they stand. *)
Lemma process_document_rewrites_spans_witness :
  exists filtered_text rs,
    filters.apply_text_filters
      (orchestrator.filter_chain (orchestrator_with S2_engine)) (str S2_text)
    = inr filtered_text
    /\ length rs = length (entities S2_result)
    /\ (entities S2_result <> [] ->
        exists s,
          orchestrator.replacement_strategy (orchestrator_with S2_engine)
          = Some s
          /\ (replacements (U := latin1) s
                (sorted_desc start (entities S2_result))).1 = inr rs)
    /\ (Forall (in_range (length filtered_text)) (entities S2_result) ->
        pairwise_disjoint (entities S2_result) ->
        anonymized_text S2_result
        = weave 0 (length filtered_text) filtered_text
            (rev (zip (sorted_desc start (entities S2_result)) rs))).
Proof.
  apply (process_document_rewrites_spans (U := latin1)
           (orchestrator_with S2_engine) (str S2_text) None S2_result);
    vm_compute; reflexivity.
Defined.

(** *** The consistency map across documents *)

Definition two_documents_engine : orchestrator.Engine :=
  mock_engine
    [ ("Mario Rossi ha firmato.", [person "Mario Rossi" 0]);
      ("Luigi Verdi ha firmato.", [person "Luigi Verdi" 0]) ].

(** C2.  Processed first, "Luigi Verdi ha firmato." becomes "PERSON_A ha
    firmato."; processed after "Mario Rossi ha firmato." on the same
    orchestrator it becomes "PERSON_B ha firmato.": nothing resets the
    strategy between the two calls, so the first document's entry
    (PERSON, "mario rossi") and the counter of PERSON are still there. *)
Theorem process_document_keeps_consistency_map :
  let o := orchestrator_with two_documents_engine in
  let o1 := (run_document "Mario Rossi ha firmato." o).2 in
  anonymized_text <$> (run_document "Luigi Verdi ha firmato." o).1
  = Some (str "PERSON_A ha firmato.")
  /\ anonymized_text <$> (run_document "Mario Rossi ha firmato." o).1
     = Some (str "PERSON_A ha firmato.")
  /\ anonymized_text <$> (run_document "Luigi Verdi ha firmato." o1).1
     = Some (str "PERSON_B ha firmato.")
  /\ match orchestrator.replacement_strategy o1 with
     | Some (strategies.Consistent _ m) =>
         m !! (PERSON, str "mario rossi") = Some (str "PERSON_A")
     | _ => False
     end.
Proof. repeat split; vm_compute; reflexivity. Qed.

(** After an explicit [reset] the second document gets "PERSON_A" again. *)
Lemma reset_between_documents :
  let o := orchestrator_with two_documents_engine in
  let o1 := (run_document "Mario Rossi ha firmato." o).2 in
  let o1' :=
    (orchestrator.set_replacement_strategy
       (strategies.reset <$> orchestrator.replacement_strategy o1) o1).2 in
  anonymized_text <$> (run_document "Luigi Verdi ha firmato." o1').1
  = Some (str "PERSON_A ha firmato.").
Proof. vm_compute; reflexivity. Qed.

(** ** The orchestrator: batches *)

Section process_batch_facts.
Context {U : UnicodeDB}.

Import orchestrator.

(** On an initialized orchestrator [process_document] always returns a
    result, for the text it was given, and leaves the orchestrator
    initialized. *)
Lemma process_document_total (o : PipelineOrchestrator) (text : pystr)
    (md : option dict) :
  initialized o = true ->
  exists r o',
    process_document text md o = (inr r, o')
    /\ initialized o' = true
    /\ original_text r = text.
Proof.
  intros Hinit. unfold process_document, mthen.
  rewrite (initialize_initialized o Hinit).
  unfold try_except, process_document_try, mthen, lift, mreturn, ret.
  cbn beta iota.
  destruct (filters.apply (filter_chain o) text None) as [e|x];
    [by eauto|].
  destruct (match primary_engine o with
            | Some e => detect_entities e x.1
            | None => inr []
            end) as [e|detected]; [by eauto|].
  destruct (filters.apply (filter_chain o) x.1 (Some detected))
    as [e|y]; [by eauto|].
  destruct (default [] y.2) as [|e0 fes]; [by eauto|].
  unfold strategy_replace_all.
  destruct (replacement_strategy o) as [s|]; [|by eauto].
  destruct (strategies.replace_all s x.1 (e0 :: fes)) as [[e|out] s'];
    by eauto.
Qed.





End process_batch_facts.

Section process_batch_order.
Context {U : UnicodeDB}.

Import orchestrator.

Lemma outcome_of_elem {A} (rs : list (nat * A)) (i : nat) (r : A) :
  NoDup rs.*1 -> (i, r) ∈ rs -> outcome_of rs i = Some r.
Proof.
  induction rs as [|[j q] rs IH]; simpl; intros Hnd Hin.
  - by apply not_elem_of_nil in Hin.
  - apply NoDup_cons in Hnd as [Hj Hnd].
    apply elem_of_cons in Hin as [[= -> ->]|Hin].
    + by rewrite Nat.eqb_refl.
    + destruct (Nat.eqb_spec j i) as [->|_]; [|by apply IH].
      exfalso. apply Hj. apply list_elem_of_fmap. by exists (i, r).
Qed.

Lemma omap_all {A B} (f : A -> option B) (Q : A -> B -> Prop) (l : list A) :
  (forall x, x ∈ l -> exists y, f x = Some y /\ Q x y) ->
  Forall2 Q l (omap f l).
Proof.
  induction l as [|x l IH]; intros H; simpl; [constructor|].
  destruct (H x) as (y & -> & Hy); [apply elem_of_cons; by left|].
  constructor; [done|]. apply IH. intros z Hz. apply H.
  apply elem_of_cons. by right.
Qed.




End process_batch_order.

(** *** Batches *)

(** A document given by its string entries. *)
Definition document (entries : list (string * string))
    : orchestrator.Document :=
  {| orchestrator.items := map (fun kv => (kv.1, str kv.2)) entries;
     orchestrator.doc_metadata := None |}.

(** The first document has no 'text'. *)
Definition incomplete_batch : list orchestrator.Document :=
  [ document [("document_id", "d0")];
    document [("text", "ciao"); ("document_id", "d1")] ].


(** Scenario S5: a short, a long and a short document, two at a time; the
    third document completes first. *)
Definition S5_batch : list orchestrator.Document :=
  [ document [("text", "Breve."); ("document_id", "d0")];
    document [("text", "Il contratto tra le parti prevede una lunga serie di clausole, allegati e condizioni generali di fornitura."); ("document_id", "d1")];
    document [("text", "Corto."); ("document_id", "d2")] ].


(** The texts of the results of scenario S5 are those of the documents, in
    input order. *)
Lemma S5_results_in_input_order :
  match (orchestrator.process_batch (U := latin1) S5_batch (Some 2%Z)
           [2; 0; 0] (orchestrator_with (mock_engine []))).1 with
  | orchestrator.Returns batch =>
      map (fun r => inr (original_text r)) (orchestrator.results batch)
      = map (fun doc => orchestrator.doc_getitem doc "text") S5_batch
  | _ => False
  end.
Proof. vm_compute; reflexivity. Qed.

(** ** The normalizer *)

Section re_sub_facts.

Variable m : pystr -> option nat.
Variable repl : pystr.

Lemma sub_from_drop (k : nat) (s : pystr) :
  sub_from m repl k s = sub_from m repl 0 (drop k s).
Proof.
  revert k. induction s as [|c t IH]; intros [|k]; try reflexivity.
  simpl. apply IH.
Qed.

Lemma re_sub_nil : re_sub m repl [] = [].
Proof. reflexivity. Qed.

(** One step of the scan. *)
Lemma re_sub_cons (c : char) (t : pystr) :
  re_sub m repl (c :: t)
  = match m (c :: t) with
    | Some (S k) => repl ++ re_sub m repl (drop k t)
    | _ => c :: re_sub m repl t
    end.
Proof.
  unfold re_sub. simpl. destruct (m (c :: t)) as [[|k]|]; try reflexivity.
  by rewrite sub_from_drop.
Qed.

(** A text in which the pattern matches nowhere is left as it is. *)
Lemma re_sub_no_match (s : pystr) :
  (forall k, m (drop k s) = None) -> re_sub m repl s = s.
Proof.
  induction s as [|c t IH]; intros H; [reflexivity|].
  rewrite re_sub_cons. pose proof (H 0) as H0. simpl in H0. rewrite H0.
  f_equal. apply IH. intros k. apply (H (S k)).
Qed.

End re_sub_facts.

(** Induction on the length of a text. *)
Lemma length_ind (P : pystr -> Prop) :
  (forall s, (forall t, length t < length s -> P t) -> P s) ->
  forall s, P s.
Proof.
  intros H s. remember (length s) as n eqn:Hn. revert s Hn.
  induction n as [n IH] using lt_wf_ind. intros s ->.
  apply H. intros t Ht. by apply (IH (length t)).
Qed.

Section strip_facts.

Lemma dropwhile_suffix (p : char -> bool) (s : pystr) :
  exists h, s = h ++ dropwhile p s /\ forallb p h = true.
Proof.
  induction s as [|c t (h & IH & Hh)]; simpl; [by exists []|].
  destruct (p c) eqn:Hc; [|by exists []].
  exists (c :: h). simpl. rewrite Hc, Hh. by rewrite <- IH.
Qed.

Lemma dropwhile_head (p : char -> bool) (s : pystr) :
  match dropwhile p s with
  | [] => True
  | c :: _ => p c = false
  end.
Proof.
  induction s as [|c t IH]; simpl; [done|]. by destruct (p c) eqn:Hc.
Qed.

Lemma dropwhile_id (p : char -> bool) (s : pystr) :
  match s with [] => True | c :: _ => p c = false end ->
  dropwhile p s = s.
Proof. destruct s as [|c t]; simpl; [done|]. by intros ->. Qed.

Lemma takewhile_dropwhile (p : char -> bool) (s : pystr) :
  takewhile p s ++ dropwhile p s = s.
Proof.
  induction s as [|c t IH]; simpl; [done|].
  destruct (p c); simpl; [by rewrite IH|done].
Qed.

Lemma drop_takewhile (p : char -> bool) (s : pystr) :
  drop (length (takewhile p s)) s = dropwhile p s.
Proof.
  induction s as [|c t IH]; simpl; [done|]. by destruct (p c).
Qed.

Lemma length_dropwhile (p : char -> bool) (s : pystr) :
  length (dropwhile p s) <= length s.
Proof.
  induction s as [|c t IH]; simpl; [done|]. destruct (p c); simpl; lia.
Qed.

(** [rstrip] keeps a prefix, whose last character is not whitespace. *)
Lemma rstrip_prefix (s : pystr) :
  exists tl, s = rstrip s ++ tl.
Proof.
  unfold rstrip.
  destruct (dropwhile_suffix isspace (rev s)) as (h & Hh & _).
  exists (rev h). rewrite <- rev_app_distr, <- Hh. by rewrite rev_involutive.
Qed.

Lemma lstrip_suffix (s : pystr) :
  exists hd, s = hd ++ lstrip s.
Proof.
  destruct (dropwhile_suffix isspace s) as (h & Hh & _). by exists h.
Qed.

Lemma rstrip_idem (s : pystr) : rstrip (rstrip s) = rstrip s.
Proof.
  unfold rstrip. rewrite rev_involutive. f_equal.
  apply dropwhile_id. apply dropwhile_head.
Qed.

(** The head of a text survives [rstrip] when it is not whitespace. *)
Lemma rstrip_head (c : char) (t : pystr) :
  isspace c = false -> exists t', rstrip (c :: t) = c :: t'.
Proof.
  intros Hc. unfold rstrip. simpl.
  destruct (dropwhile_suffix isspace (rev t ++ [c])) as (h & Hh & Hall).
  destruct (dropwhile isspace (rev t ++ [c])) as [|d u] eqn:Hd.
  - rewrite app_nil_r in Hh. subst h.
    rewrite forallb_app in Hall. simpl in Hall. rewrite Hc in Hall.
    by rewrite andb_false_r in Hall.
  - assert (Hrev : c :: t = rev (d :: u) ++ rev h).
    { rewrite <- rev_app_distr, <- Hh, rev_app_distr. simpl.
      by rewrite rev_involutive. }
    destruct (rev (d :: u)) as [|x v] eqn:Hx.
    + apply (f_equal (@length _)) in Hx. rewrite length_rev in Hx.
      discriminate.
    + simpl in Hrev. injection Hrev as <- _. by exists v.
Qed.

Lemma strip_idem (s : pystr) : strip (strip s) = strip s.
Proof.
  unfold strip.
  assert (Hl : lstrip (rstrip (lstrip s)) = rstrip (lstrip s)).
  { pose proof (dropwhile_head isspace s) as Hh. fold (lstrip s) in Hh.
    destruct (lstrip s) as [|c t]; [reflexivity|].
    destruct (rstrip_head c t Hh) as (t' & ->).
    unfold lstrip. simpl. by rewrite Hh. }
  rewrite Hl. apply rstrip_idem.
Qed.

(** [strip] cuts a piece out of the text. *)
Lemma strip_infix (s : pystr) : exists hd tl, s = hd ++ strip s ++ tl.
Proof.
  destruct (lstrip_suffix s) as (hd & Hhd).
  destruct (rstrip_prefix (lstrip s)) as (tl & Htl).
  exists hd, tl. unfold strip. by rewrite <- Htl.
Qed.

End strip_facts.

Section blanks_facts.

Import filters.

(** [re.sub(r'[ \t]+', ' ', text)] *)
Definition collapse_blanks (s : pystr) : pystr :=
  re_sub match_blanks [SP] s.

Definition head_is_blank (s : pystr) : bool :=
  match s with
  | [] => false
  | c :: _ => is_blank c
  end.

(** A text without tabs in which no space is followed by a blank. *)
Fixpoint blank_normal (s : pystr) : bool :=
  match s with
  | [] => true
  | c :: t =>
      if is_blank c
      then (c =? SP)%N && negb (head_is_blank t) && blank_normal t
      else blank_normal t
  end.

Lemma takewhile_head_false (p : char -> bool) (s : pystr) :
  match s with [] => true | c :: _ => negb (p c) end = true ->
  takewhile p s = [].
Proof. destruct s as [|c t]; simpl; [done|]. by destruct (p c). Qed.

Lemma collapse_blanks_blank (c : char) (t : pystr) :
  is_blank c = true ->
  collapse_blanks (c :: t) = SP :: collapse_blanks (dropwhile is_blank t).
Proof.
  intros Hc. unfold collapse_blanks. rewrite re_sub_cons.
  unfold match_blanks. simpl. rewrite Hc. simpl.
  by rewrite drop_takewhile.
Qed.

Lemma collapse_blanks_other (c : char) (t : pystr) :
  is_blank c = false ->
  collapse_blanks (c :: t) = c :: collapse_blanks t.
Proof.
  intros Hc. unfold collapse_blanks. rewrite re_sub_cons.
  unfold match_blanks. simpl. by rewrite Hc.
Qed.

Lemma collapse_blanks_head (s : pystr) :
  head_is_blank s = false -> head_is_blank (collapse_blanks s) = false.
Proof.
  destruct s as [|c t]; simpl; [done|]. intros Hc.
  by rewrite collapse_blanks_other.
Qed.

(** The result of collapsing is blank-normal ... *)
Lemma collapse_blanks_normal (s : pystr) :
  blank_normal (collapse_blanks s) = true.
Proof.
  induction s as [s IH] using length_ind.
  destruct s as [|c t]; [reflexivity|].
  destruct (is_blank c) eqn:Hc.
  - rewrite collapse_blanks_blank by done. simpl.
    rewrite IH by (pose proof (length_dropwhile is_blank t); simpl; lia).
    rewrite collapse_blanks_head; [done|].
    pose proof (dropwhile_head is_blank t) as Hh.
    by destruct (dropwhile is_blank t).
  - rewrite collapse_blanks_other by done. simpl. rewrite Hc.
    apply IH. simpl. lia.
Qed.

(** ... and a blank-normal text is left as it is. *)
Lemma collapse_blanks_fix (s : pystr) :
  blank_normal s = true -> collapse_blanks s = s.
Proof.
  induction s as [|c t IH]; [reflexivity|]. simpl.
  destruct (is_blank c) eqn:Hc.
  - intros [[Hsp Hh]%andb_prop Ht]%andb_prop.
    apply N.eqb_eq in Hsp as ->.
    rewrite collapse_blanks_blank by done.
    rewrite dropwhile_id.
    + by rewrite IH.
    + destruct t as [|d t']; [done|]. simpl in Hh.
      by destruct (is_blank d).
  - intros Ht. rewrite collapse_blanks_other by done. by rewrite IH.
Qed.

Lemma blank_normal_suffix (hd s : pystr) :
  blank_normal (hd ++ s) = true -> blank_normal s = true.
Proof.
  induction hd as [|c hd IH]; simpl; [done|].
  destruct (is_blank c); [|done].
  intros [_ H]%andb_prop. by apply IH.
Qed.

Lemma blank_normal_prefix (s tl : pystr) :
  blank_normal (s ++ tl) = true -> blank_normal s = true.
Proof.
  induction s as [|c s IH]; simpl; [done|].
  destruct (is_blank c); [|done].
  intros [[Hsp Hh]%andb_prop H]%andb_prop.
  rewrite Hsp, (IH H). simpl. rewrite andb_true_r.
  destruct s; [done|exact Hh].
Qed.

End blanks_facts.

Section blank_lines_facts.

Import filters.

(** [re.sub(r'\n\s+\n', '\n\n', text)] *)
Definition squeeze_lines (s : pystr) : pystr :=
  re_sub match_blank_lines [NL; NL] s.

(** No position of the text starts a match of [\n\s+\n]. *)
Fixpoint no_blank_lines (s : pystr) : bool :=
  match match_blank_lines s with
  | Some _ => false
  | None =>
      match s with
      | [] => true
      | _ :: t => no_blank_lines t
      end
  end.

Lemma last_index_absent (c : char) (l : pystr) :
  c ∉ l -> last_index c l = None.
Proof.
  induction l as [|a l IH]; simpl; [done|].
  intros [Hne Hl]%not_elem_of_cons. rewrite IH by done.
  destruct (a =? c)%N eqn:E; [|done].
  apply N.eqb_eq in E. congruence.
Qed.

Lemma last_index_None (c : char) (l : pystr) :
  last_index c l = None -> c ∉ l.
Proof.
  induction l as [|a l IH]; simpl; [intros _; apply not_elem_of_nil|].
  destruct (last_index c l); [done|].
  destruct (a =? c)%N eqn:E; [done|]. intros _.
  apply not_elem_of_cons. split; [|by apply IH].
  apply N.eqb_neq in E. congruence.
Qed.

Lemma last_index_Some (c : char) (l : pystr) (k : nat) :
  last_index c l = Some k -> k < length l /\ c ∉ drop (S k) l.
Proof.
  revert k. induction l as [|a l IH]; simpl; [done|]. intros k.
  destruct (last_index c l) as [j|] eqn:E.
  - intros [= <-]. destruct (IH j eq_refl) as [Hlt Hd]. split; [lia|done].
  - destruct (a =? c)%N; [|done]. intros [= <-]. split; [lia|].
    simpl. rewrite drop_0. by apply last_index_None.
Qed.

Lemma takewhile_drop (p : char -> bool) (n : nat) (s : pystr) :
  n <= length (takewhile p s) ->
  takewhile p (drop n s) = drop n (takewhile p s).
Proof.
  revert s. induction n as [|n IH]; intros s; [by rewrite !drop_0|].
  destruct s as [|c t]; simpl; [done|].
  destruct (p c) eqn:E; simpl; [|lia]. intros H. apply IH. lia.
Qed.

Lemma takewhile_app (p : char -> bool) (a b : pystr) :
  exists x, takewhile p (a ++ b) = takewhile p a ++ x.
Proof.
  induction a as [|c a [x IH]]; simpl; [by eexists|].
  destruct (p c); [|by eexists].
  exists x. by rewrite IH.
Qed.

(** A match starts with a newline, is at least three characters long, and
    the whitespace behind it holds no further newline. *)
Lemma match_blank_lines_Some (c : char) (t : pystr) (n : nat) :
  match_blank_lines (c :: t) = Some n ->
  c = NL /\ exists k, n = S k /\ NL ∉ takewhile isspace (drop k t).
Proof.
  destruct t as [|w r]; simpl; [done|].
  destruct (c =? NL)%N eqn:Hc; simpl; [|done].
  destruct (isspace w); [|done].
  destruct (last_index NL (takewhile isspace r)) as [k|] eqn:E; [|done].
  intros [= <-]. apply N.eqb_eq in Hc. split; [done|].
  exists (k + 2). split; [lia|].
  destruct (last_index_Some _ _ _ E) as [Hlt Hd].
  replace (k + 2) with (S (S k)) by lia. simpl.
  rewrite takewhile_drop by lia. done.
Qed.

Lemma match_blank_lines_far (c w : char) (r : pystr) :
  NL ∉ takewhile isspace r -> match_blank_lines (c :: w :: r) = None.
Proof.
  intros H. simpl. rewrite (last_index_absent _ _ H).
  by destruct ((c =? NL)%N && isspace w).
Qed.

Lemma match_blank_lines_after_newline (c : char) (s : pystr) :
  NL ∉ takewhile isspace s -> match_blank_lines (c :: s) = None.
Proof.
  destruct s as [|w r]; [done|]. intros H.
  destruct (isspace w) eqn:Hw.
  - apply match_blank_lines_far. simpl in H. rewrite Hw in H.
    by apply not_elem_of_cons in H as [_ H].
  - simpl. rewrite Hw. by rewrite andb_false_r.
Qed.

Lemma squeeze_lines_cons (c : char) (t : pystr) :
  squeeze_lines (c :: t)
  = match match_blank_lines (c :: t) with
    | Some (S k) => [NL; NL] ++ squeeze_lines (drop k t)
    | _ => c :: squeeze_lines t
    end.
Proof. apply re_sub_cons. Qed.

(** Whitespace at the start that holds no newline is not touched. *)
Lemma squeeze_lines_run (s : pystr) :
  NL ∉ takewhile isspace s ->
  takewhile isspace (squeeze_lines s) = takewhile isspace s.
Proof.
  induction s as [|c t IH]; [done|]. intros H.
  rewrite squeeze_lines_cons.
  assert (Hm : match_blank_lines (c :: t) = None).
  { destruct t as [|w r]; [done|]. simpl.
    destruct (c =? NL)%N eqn:Hc; [|done].
    apply N.eqb_eq in Hc. subst c. exfalso. apply H.
    change (takewhile isspace (NL :: w :: r))
      with (NL :: takewhile isspace (w :: r)).
    by left. }
  rewrite Hm. simpl. simpl in H.
  destruct (isspace c); [|done]. f_equal. apply IH.
  by apply not_elem_of_cons in H as [_ H].
Qed.

End blank_lines_facts.

Section squeeze_lines_facts.

Import filters.

Lemma no_blank_lines_cons (c : char) (t : pystr) :
  no_blank_lines (c :: t) = true
  <-> match_blank_lines (c :: t) = None /\ no_blank_lines t = true.
Proof.
  change (no_blank_lines (c :: t))
    with (match match_blank_lines (c :: t) with
          | Some _ => false
          | None => no_blank_lines t
          end).
  destruct (match_blank_lines (c :: t)); split; try done.
  - by intros [? _].
  - by intros [_ ?].
Qed.

Lemma no_blank_lines_drop (s : pystr) (k : nat) :
  no_blank_lines s = true -> match_blank_lines (drop k s) = None.
Proof.
  revert k. induction s as [|c t IH]; intros k H.
  - by destruct k.
  - apply no_blank_lines_cons in H as [Hm Ht].
    destruct k as [|k]; [done|]. simpl. by apply IH.
Qed.

Lemma squeeze_lines_fix (s : pystr) :
  no_blank_lines s = true -> squeeze_lines s = s.
Proof.
  intros H. apply re_sub_no_match. intros k. by apply no_blank_lines_drop.
Qed.

(** Where the scan finds no match, the squeezed rest gives none either. *)
Lemma match_blank_lines_squeezed (c : char) (t : pystr) :
  match_blank_lines (c :: t) = None ->
  match_blank_lines (c :: squeeze_lines t) = None.
Proof.
  destruct t as [|w r]; [done|]. intros E.
  destruct ((c =? NL)%N && isspace w) eqn:Hc.
  - assert (Hr : NL ∉ takewhile isspace r).
    { simpl in E. rewrite Hc in E. apply last_index_None.
      by destruct (last_index NL (takewhile isspace r)). }
    rewrite squeeze_lines_cons.
    rewrite (match_blank_lines_after_newline w r Hr).
    apply match_blank_lines_far. by rewrite squeeze_lines_run.
  - rewrite squeeze_lines_cons.
    destruct (match_blank_lines (w :: r)) as [n|] eqn:E2.
    + apply match_blank_lines_Some in E2 as (-> & k & -> & _).
      simpl. by rewrite Hc.
    + destruct (squeeze_lines r); simpl; by rewrite ?Hc.
Qed.

(** The squeezed text holds no match any more. *)
Lemma squeeze_lines_normal (s : pystr) :
  no_blank_lines (squeeze_lines s) = true.
Proof.
  induction s as [s IH] using length_ind.
  destruct s as [|c t]; [reflexivity|].
  rewrite squeeze_lines_cons.
  destruct (match_blank_lines (c :: t)) as [n|] eqn:E.
  - apply match_blank_lines_Some in E as (-> & k & -> & Hr).
    pose proof (squeeze_lines_run _ Hr) as Hrun.
    assert (Hr' : NL ∉ takewhile isspace (squeeze_lines (drop k t)))
      by (by rewrite Hrun).
    simpl app. apply no_blank_lines_cons. split.
    { destruct (squeeze_lines (drop k t)) as [|w r] eqn:Hx.
      - reflexivity.
      - by apply match_blank_lines_far. }
    apply no_blank_lines_cons. split.
    { by apply match_blank_lines_after_newline. }
    apply IH. rewrite length_drop. simpl. lia.
  - apply no_blank_lines_cons. split.
    + by apply match_blank_lines_squeezed.
    + apply IH. simpl. lia.
Qed.

Lemma match_blank_lines_prefix (a b : pystr) :
  match_blank_lines (a ++ b) = None -> match_blank_lines a = None.
Proof.
  destruct a as [|c [|w r]]; [done..|]. simpl.
  destruct ((c =? NL)%N && isspace w); [|done].
  destruct (last_index NL (takewhile isspace (r ++ b))) eqn:E; [done|].
  intros _. apply last_index_None in E.
  destruct (takewhile_app isspace r b) as [x Hx]. rewrite Hx in E.
  rewrite last_index_absent; [done|].
  intros Hin. apply E, elem_of_app. by left.
Qed.

Lemma no_blank_lines_suffix (hd s : pystr) :
  no_blank_lines (hd ++ s) = true -> no_blank_lines s = true.
Proof.
  induction hd as [|c hd IH]; [done|].
  intros [_ H]%no_blank_lines_cons. by apply IH.
Qed.

Lemma no_blank_lines_prefix (s tl : pystr) :
  no_blank_lines (s ++ tl) = true -> no_blank_lines s = true.
Proof.
  induction s as [|c s IH]; [done|].
  intros [Hm H]%no_blank_lines_cons. apply no_blank_lines_cons. split.
  - by apply (match_blank_lines_prefix (c :: s) tl).
  - by apply IH.
Qed.

Lemma squeeze_lines_head (s : pystr) :
  head_is_blank (squeeze_lines s) = head_is_blank s.
Proof.
  destruct s as [|c t]; [done|]. rewrite squeeze_lines_cons.
  destruct (match_blank_lines (c :: t)) as [n|] eqn:E; [|done].
  by apply match_blank_lines_Some in E as (-> & k & -> & _).
Qed.

(** Squeezing blank lines keeps a text blank-normal. *)
Lemma squeeze_lines_blank_normal (s : pystr) :
  blank_normal s = true -> blank_normal (squeeze_lines s) = true.
Proof.
  induction s as [s IH] using length_ind.
  destruct s as [|c t]; [done|]. intros H.
  rewrite squeeze_lines_cons.
  destruct (match_blank_lines (c :: t)) as [n|] eqn:E.
  - apply match_blank_lines_Some in E as (-> & k & -> & _).
    simpl app.
    change (blank_normal (squeeze_lines (drop k t)) = true).
    apply IH; [rewrite length_drop; simpl; lia|].
    apply (blank_normal_suffix (NL :: take k t)).
    simpl. by rewrite take_drop.
  - simpl in *. rewrite squeeze_lines_head.
    destruct (is_blank c).
    + apply andb_prop in H as [-> Ht]. simpl. apply IH; [lia|done].
    + apply IH; [lia|done].
Qed.

End squeeze_lines_facts.

Section normalize_text_facts.

Context {U : UnicodeDB}.

Import filters.

(** What [normalize_text] does to the whitespace of a text under the default
    options: the two substitutions, then [strip]. *)
Definition whitespace_normal_form (s : pystr) : pystr :=
  strip (squeeze_lines (collapse_blanks s)).

Lemma normalize_text_default_unfold (x : pystr) :
  normalize_text_default x
  = match x with
    | [] => []
    | _ => whitespace_normal_form (normalize_NFC x)
    end.
Proof. by destruct x. Qed.

Lemma whitespace_normal_form_normal (s : pystr) :
  blank_normal (whitespace_normal_form s) = true
  /\ no_blank_lines (whitespace_normal_form s) = true.
Proof.
  unfold whitespace_normal_form.
  destruct (strip_infix (squeeze_lines (collapse_blanks s)))
    as (hd & tl & Heq).
  pose proof (squeeze_lines_blank_normal _ (collapse_blanks_normal s)) as Hb.
  pose proof (squeeze_lines_normal (collapse_blanks s)) as Hn.
  rewrite Heq in Hb, Hn. split.
  - by apply blank_normal_suffix, blank_normal_prefix in Hb.
  - by apply no_blank_lines_suffix, no_blank_lines_prefix in Hn.
Qed.

(** The whitespace part of the normalizer is idempotent, whatever the
    text. *)
Lemma whitespace_normal_form_idem (s : pystr) :
  whitespace_normal_form (whitespace_normal_form s)
  = whitespace_normal_form s.
Proof.
  destruct (whitespace_normal_form_normal s) as [Hb Hn].
  unfold whitespace_normal_form at 1.
  rewrite (collapse_blanks_fix _ Hb), (squeeze_lines_fix _ Hn).
  apply strip_idem.
Qed.

(** Without Unicode normalization the normalizer is idempotent with no
    assumption at all. *)
Lemma normalize_text_no_unicode_idem (x : pystr) :
  normalize_text (normalize_text x false true false true)
    false true false true
  = normalize_text x false true false true.
Proof.
  assert (Hu : forall y, normalize_text y false true false true
                         = whitespace_normal_form y) by (by intros []).
  rewrite !Hu. apply whitespace_normal_form_idem.
Qed.

End normalize_text_facts.

Section normalize_text_nfc.

Context {U : UnicodeDB}.

Import filters.

(** What is used of [unicodedata.normalize('NFC', _)], in terms of the
    texts in NFC, the texts that it leaves as they are: it returns a text
    in NFC; a part of a text in NFC is in NFC; and two texts in NFC with a
    space or a newline between them make a text in NFC (a space or newline
    is not reordered and enters no composition). *)
Definition in_NFC (s : pystr) : Prop := normalize_NFC s = s.

Definition NFC_idempotent : Prop := forall s, in_NFC (normalize_NFC s).

Definition NFC_parts : Prop :=
  forall a b, in_NFC (a ++ b) -> in_NFC a /\ in_NFC b.

Definition NFC_joined : Prop :=
  forall a b w, w = SP \/ w = NL ->
                in_NFC a -> in_NFC b -> in_NFC (a ++ w :: b).

Hypothesis parts : NFC_parts.
Hypothesis joined : NFC_joined.

(** A substitution that puts [repl] in the place of its matches keeps a
    text in NFC when two texts in NFC with [repl] between them are in
    NFC. *)
Lemma re_sub_in_NFC (m : pystr -> option nat) (repl : pystr) :
  (forall a b, in_NFC a -> in_NFC b -> in_NFC (a ++ repl ++ b)) ->
  forall s p, in_NFC (p ++ s) -> in_NFC (p ++ re_sub m repl s).
Proof.
  intros Hrepl s.
  induction s as [s IH] using (induction_ltof1 _ (@length char)).
  unfold ltof in IH. intros p Hp.
  destruct s as [|c t]; [by rewrite re_sub_nil|].
  rewrite re_sub_cons. destruct (m (c :: t)) as [[|k]|].
  - change (p ++ c :: re_sub m repl t) with (p ++ [c] ++ re_sub m repl t).
    rewrite app_assoc. apply IH; [simpl; lia|].
    by rewrite <- app_assoc.
  - destruct (parts p (c :: t) Hp) as [Hpre Hrest].
    rewrite <- (take_drop k t) in Hrest.
    change (c :: take k t ++ drop k t)
      with ((c :: take k t) ++ drop k t) in Hrest.
    destruct (parts _ _ Hrest) as [_ Hdrop].
    rewrite !app_assoc. apply IH.
    + rewrite length_drop. simpl. lia.
    + rewrite <- app_assoc. by apply Hrepl.
  - change (p ++ c :: re_sub m repl t) with (p ++ [c] ++ re_sub m repl t).
    rewrite app_assoc. apply IH; [simpl; lia|].
    by rewrite <- app_assoc.
Qed.

(** The whitespace rewriting of [normalize_text] keeps a text in NFC. *)
Lemma whitespace_normal_form_in_NFC (s : pystr) :
  in_NFC s -> in_NFC (whitespace_normal_form s).
Proof.
  intros Hs.
  assert (Hnil : in_NFC []) by (by destruct (parts [] s Hs)).
  assert (Hc : in_NFC (collapse_blanks s)).
  { apply (re_sub_in_NFC match_blanks [SP]) with (p := []); [|done].
    intros a b Ha Hb. apply joined; auto. }
  assert (Hq : in_NFC (squeeze_lines (collapse_blanks s))).
  { apply (re_sub_in_NFC match_blank_lines [NL; NL]) with (p := []); [|done].
    intros a b Ha Hb. apply joined; [auto|done|].
    apply (joined [] b NL); auto. }
  unfold whitespace_normal_form.
  destruct (strip_infix (squeeze_lines (collapse_blanks s)))
    as (hd & tl & Heq).
  rewrite Heq in Hq. destruct (parts _ _ Hq) as [_ Hq'].
  by destruct (parts _ _ Hq') as [Hq'' _].
Qed.

(** C8. [normalize_text] under its default options (no lower-casing,
    whitespace removal, NFC, newlines kept) is idempotent:
    normalize_text(normalize_text(x)) = normalize_text(x) for every text x.
    [unicodedata.normalize] is a parameter of the model; what is used of it
    are three facts of NFC: it is idempotent, a part of a text in NFC is in
    NFC, and two texts in NFC with a space or a newline between them are in
    NFC. *)
Theorem normalize_text_idempotent :
  NFC_idempotent ->
  forall x : pystr,
    normalize_text_default (normalize_text_default x)
    = normalize_text_default x.
Proof.
  intros Hidem x.
  rewrite (normalize_text_default_unfold x).
  destruct x as [|c t]; [reflexivity|].
  set (y := whitespace_normal_form (normalize_NFC (c :: t))).
  rewrite normalize_text_default_unfold.
  destruct y as [|d y'] eqn:Hy; [reflexivity|]. rewrite <- Hy.
  subst y.
  rewrite (whitespace_normal_form_in_NFC _ (Hidem (c :: t))).
  apply whitespace_normal_form_idem.
Qed.

End normalize_text_nfc.

(** A clause with runs of spaces and tabs, blank lines and whitespace at both
    ends. *)
Definition clause_text : pystr :=
  str "  Art.  1		Il   conduttore
 
	
  paga il canone.

".

Example normalize_text_clause :
  filters.normalize_text_default (U := latin1) clause_text
  = str "Art. 1 Il conduttore

 paga il canone.".
Proof. vm_compute. reflexivity. Qed.

(** *** An NFC that is not the identity *)

(** The accent U+0301 and the letters it is composed with here. *)
Definition ACUTE : char := 769%N.

(** The composition of "e" with a combining acute accent that follows it
    to U+00E9: the part of NFC that a text of Latin-1 letters and this
    accent calls for. *)
Fixpoint compose_acute (s : pystr) : pystr :=
  match s with
  | [] => []
  | a :: t =>
      match t with
      | b :: t' =>
          if (a =? 101)%N && (b =? ACUTE)%N then 233%N :: compose_acute t'
          else a :: compose_acute t
      | [] => [a]
      end
  end.

Definition latin1_acute : UnicodeDB :=
  {| lower := lower (UnicodeDB := latin1);
     upper := upper (UnicodeDB := latin1);
     isdigit_char := latin1_db.isdigit_char;
     int_of_char := latin1_db.int_of_char;
     normalize_NFC := compose_acute;
     tolower_char := latin1_db.lower_char;
     toupper_char := latin1_db.simple_upper_char;
     isalnum_char := latin1_db.isalnum_char |}.

(** No "e" of the text is followed by the accent. *)
Fixpoint composed (s : pystr) : bool :=
  match s with
  | [] => true
  | a :: t =>
      match t with
      | b :: _ => negb ((a =? 101)%N && (b =? ACUTE)%N) && composed t
      | [] => true
      end
  end.

Lemma compose_acute_fix (s : pystr) :
  compose_acute s = s <-> composed s = true.
Proof.
  induction s as [|a t IH]; [done|].
  destruct t as [|b t']; [done|].
  change (compose_acute (a :: b :: t'))
    with (if (a =? 101)%N && (b =? ACUTE)%N
          then 233%N :: compose_acute t'
          else a :: compose_acute (b :: t')).
  change (composed (a :: b :: t'))
    with (negb ((a =? 101)%N && (b =? ACUTE)%N) && composed (b :: t')).
  destruct ((a =? 101)%N && (b =? ACUTE)%N) eqn:Hab; cbn [negb andb].
  - split; [|discriminate]. intros [= Ha _].
    apply andb_prop in Hab as [Ha'%N.eqb_eq _]. subst a. discriminate.
  - split; [intros [= H]; by apply IH|].
    intros H. f_equal. by apply IH.
Qed.

Lemma compose_acute_composed (s : pystr) :
  composed (compose_acute s) = true
  /\ (forall c t, compose_acute s = c :: t -> c = ACUTE ->
                  exists t', s = ACUTE :: t').
Proof.
  induction s as [s IH] using (induction_ltof1 _ (@length char)).
  unfold ltof in IH.
  destruct s as [|a [|b t']]; [done| |].
  { split; [done|]. intros c t [= <- <-] ->. by eexists. }
  change (compose_acute (a :: b :: t'))
    with (if (a =? 101)%N && (b =? ACUTE)%N
          then 233%N :: compose_acute t'
          else a :: compose_acute (b :: t')).
  destruct ((a =? 101)%N && (b =? ACUTE)%N) eqn:Hab.
  - destruct (IH t') as [Hc Hh]; [simpl; lia|]. split.
    + destruct (compose_acute t') as [|c t] eqn:Ht; [done|].
      change (composed (233%N :: c :: t))
        with (negb ((233 =? 101)%N && (c =? ACUTE)%N) && composed (c :: t)).
      by rewrite Hc.
    + intros c t [= <- _] Hc'. discriminate.
  - destruct (IH (b :: t')) as [Hc Hh]; [simpl; lia|]. split.
    + destruct (compose_acute (b :: t')) as [|c t] eqn:Ht; [done|].
      change (composed (a :: c :: t))
        with (negb ((a =? 101)%N && (c =? ACUTE)%N) && composed (c :: t)).
      rewrite Hc, andb_true_r. apply negb_true_iff.
      destruct (c =? ACUTE)%N eqn:Hc'; [|apply andb_false_r].
      apply N.eqb_eq in Hc'.
      destruct (Hh c t eq_refl Hc') as (t'' & [= -> _]).
      by rewrite N.eqb_refl in Hab.
    + intros c t [= <- _] ->. by eexists.
Qed.

Lemma composed_app (a b : pystr) :
  composed (a ++ b) = true -> composed a = true /\ composed b = true.
Proof.
  induction a as [|x a IH]; [done|].
  destruct a as [|y a'].
  - destruct b as [|z b']; [done|].
    change (composed ([x] ++ z :: b'))
      with (negb ((x =? 101)%N && (z =? ACUTE)%N) && composed (z :: b')).
    by intros [_ H]%andb_prop.
  - change (composed ((x :: y :: a') ++ b))
      with (negb ((x =? 101)%N && (y =? ACUTE)%N)
            && composed ((y :: a') ++ b)).
    change (composed (x :: y :: a'))
      with (negb ((x =? 101)%N && (y =? ACUTE)%N) && composed (y :: a')).
    intros [-> H]%andb_prop. destruct (IH H) as [-> ->]. done.
Qed.

Lemma composed_joined (a b : pystr) (w : char) :
  w = SP \/ w = NL ->
  composed a = true -> composed b = true -> composed (a ++ w :: b) = true.
Proof.
  intros Hw Ha Hb.
  assert (Hwb : composed (w :: b) = true).
  { destruct b as [|z b']; [done|].
    change (composed (w :: z :: b'))
      with (negb ((w =? 101)%N && (z =? ACUTE)%N) && composed (z :: b')).
    rewrite Hb. by destruct Hw as [-> | ->]. }
  induction a as [|x a IH]; [done|].
  destruct a as [|y a'].
  - change (composed ([x] ++ w :: b))
      with (negb ((x =? 101)%N && (w =? ACUTE)%N) && composed (w :: b)).
    rewrite Hwb, andb_true_r.
    destruct Hw as [-> | ->]; by rewrite andb_false_r.
  - change (composed ((x :: y :: a') ++ w :: b))
      with (negb ((x =? 101)%N && (y =? ACUTE)%N)
            && composed ((y :: a') ++ w :: b)).
    change (composed (x :: y :: a'))
      with (negb ((x =? 101)%N && (y =? ACUTE)%N) && composed (y :: a'))
      in Ha.
    apply andb_prop in Ha as [-> Ha]. by rewrite (IH Ha).
Qed.

Lemma latin1_acute_NFC :
  NFC_idempotent (U := latin1_acute)
  /\ NFC_parts (U := latin1_acute)
  /\ NFC_joined (U := latin1_acute).
Proof.
  unfold NFC_idempotent, NFC_parts, NFC_joined, in_NFC.
  change (@normalize_NFC latin1_acute) with compose_acute.
  split; [|split].
  - intros s. apply compose_acute_fix, compose_acute_composed.
  - intros a b. rewrite !compose_acute_fix. apply composed_app.
  - intros a b w. rewrite !compose_acute_fix. apply composed_joined.
Qed.

(** A clause in which an accent is to be composed, with runs of spaces and
    tabs, blank lines and whitespace at both ends. *)
Definition accent_text : pystr :=
  [SP; 9%N] ++ str "perche" ++ [ACUTE; SP; SP; NL; SP; 9%N; NL]
  ++ str "e" ++ [SP; ACUTE; 9%N] ++ str "paga" ++ [NL].

Example normalize_text_accent :
  filters.normalize_text_default (U := latin1_acute) accent_text
  = str "perch" ++ [233%N; SP; NL; NL] ++ str "e" ++ [SP; ACUTE; SP]
    ++ str "paga".
Proof. vm_compute. reflexivity. Qed.

(** Normalizing the normalized clause changes nothing. *)
Lemma normalize_text_idempotent_witness :
  filters.normalize_text_default (U := latin1_acute)
    (filters.normalize_text_default (U := latin1_acute) accent_text)
  = filters.normalize_text_default (U := latin1_acute) accent_text.
Proof.
  destruct latin1_acute_NFC as (Hidem & Hparts & Hjoined).
  exact (normalize_text_idempotent (U := latin1_acute) Hparts Hjoined Hidem
           accent_text).
Defined.

(* ===================================================================== *)
(** * Further properties *)
(* ===================================================================== *)

(** ** The normalizer: what its output looks like *)

Definition starts_with_space (s : pystr) : bool :=
  match s with
  | [] => false
  | c :: _ => isspace c
  end.

Definition ends_with_space (s : pystr) : bool := starts_with_space (rev s).

Lemma strip_no_outer_space (s : pystr) :
  starts_with_space (strip s) = false /\ ends_with_space (strip s) = false.
Proof.
  split.
  - unfold strip. pose proof (dropwhile_head isspace s) as Hh.
    fold (lstrip s) in Hh. destruct (lstrip s) as [|c t]; [reflexivity|].
    by destruct (rstrip_head c t Hh) as (t' & ->).
  - unfold ends_with_space, strip, rstrip. rewrite rev_involutive.
    pose proof (dropwhile_head isspace (rev (lstrip s))) as Hh.
    by destruct (dropwhile isspace (rev (lstrip s))).
Qed.

Section normalize_text_output.

Context {U : UnicodeDB}.

Import filters.

(** X1.  [normalize_text], whatever its options, returns a text that neither
    starts nor ends with whitespace. *)
Theorem normalize_text_no_outer_whitespace (text : pystr)
    (lowercase remove_extra_whitespace normalize_unicode preserve_newlines
       : bool) :
  let out :=
    normalize_text text lowercase remove_extra_whitespace normalize_unicode
      preserve_newlines in
  starts_with_space out = false /\ ends_with_space out = false.
Proof.
  cbv zeta. destruct text as [|c t]; [done|]. apply strip_no_outer_space.
Qed.

(** X2.  Under the default options the output of [normalize_text] holds no tab,
    no blank that is followed by another blank, and no newline that is
    followed by whitespace and a further newline (no place where
    [\n\s+\n] matches), whatever [unicodedata.normalize] does. *)
Theorem normalize_text_default_normal_form (text : pystr) :
  let out := normalize_text_default text in
  blank_normal out = true
  /\ no_blank_lines out = true
  /\ contains [TAB] out = false.
Proof.
  cbv zeta. rewrite normalize_text_default_unfold.
  assert (Htab : forall s, blank_normal s = true -> contains [TAB] s = false).
  { induction s as [|c s IH]; [done|].
    cbn [blank_normal contains startswith].
    destruct (is_blank c) eqn:Hc.
    - intros [[Hsp _]%andb_prop Hs]%andb_prop.
      apply N.eqb_eq in Hsp as ->. by rewrite (IH Hs).
    - intros Hs. rewrite (IH Hs).
      apply orb_false_elim in Hc as [_ Ht].
      rewrite N.eqb_sym in Ht. by rewrite Ht. }
  destruct text as [|c t]; [done|].
  destruct (whitespace_normal_form_normal (normalize_NFC (c :: t)))
    as [Hb Hn].
  auto.
Qed.

End normalize_text_output.

(** ** Context detection: the window *)

Section detect_context_window.

Context {U : UnicodeDB}.

(** X3.  [detect_context] reads the first [max_chars] characters only: what
    follows them has no influence on the result. *)
Theorem detect_context_ignores_rest (text rest : pystr) (max_chars : Z) :
  (0 <= max_chars)%Z ->
  (max_chars <= Z.of_nat (length text))%Z ->
  filters.detect_context (text ++ rest) max_chars
  = filters.detect_context text max_chars.
Proof.
  intros H0 Hle. unfold filters.detect_context.
  assert (Hs : slice_to (text ++ rest) max_chars = slice_to text max_chars).
  { unfold slice_to. destruct (max_chars <? 0)%Z eqn:Hneg; [lia|].
    apply take_app_le. lia. }
  by rewrite Hs.
Qed.

End detect_context_window.

(** A contract whose sixth character onwards names a court: with a window of
    five characters the court is not seen. *)
Lemma detect_context_ignores_rest_witness :
  filters.detect_context (U := latin1) (str "Patto" ++ str " tribunale") 5
  = filters.detect_context (U := latin1) (str "Patto") 5.
Proof.
  apply (detect_context_ignores_rest (U := latin1)); vm_compute; discriminate.
Defined.

(** ** The filter chain *)

Section filter_chain_facts.

Context {U : UnicodeDB}.

Import filters.

Lemma run_filters_app {A} (fs gs : list (A -> result A)) (x : A) :
  run_filters (fs ++ gs) x = (y <- run_filters fs x ;; run_filters gs y).
Proof.
  revert x. induction fs as [|f fs IH]; intros x; simpl; [done|].
  unfold bind. destruct (f x) as [e|y]; [done|]. apply IH.
Qed.

Lemma run_filters_singleton {A} (f : A -> result A) (x : A) :
  run_filters [f] x = f x.
Proof. simpl. unfold bind, ret. by destruct (f x). Qed.

(** X4.  Filters run in the order in which they were added: a filter added to a
    chain gets what the chain made of the input before, and an exception of
    an earlier filter keeps it from running.  Context filters run behind all
    entity filters. *)
Theorem filter_chain_runs_in_order (c : FilterChain)
    (f : pystr -> result pystr)
    (g : list DetectedEntity -> result (list DetectedEntity))
    (h : pystr -> list DetectedEntity -> result (list DetectedEntity))
    (text : pystr) (entities : list DetectedEntity) (ch : char) :
  apply_text_filters (add_text_filter c f) text
  = (y <- apply_text_filters c text ;; f y)
  /\ apply_entity_filters (add_entity_filter c g) entities None
     = (es <- apply_entity_filters c entities None ;; g es)
  /\ apply_entity_filters (add_context_filter c h) entities
       (Some (ch :: text))
     = (es <- apply_entity_filters c entities (Some (ch :: text)) ;;
        h (ch :: text) es).
Proof.
  unfold apply_text_filters, apply_entity_filters. simpl.
  rewrite !run_filters_app. repeat split.
  - unfold bind. destruct (run_filters (text_filters c) text); [done|].
    apply run_filters_singleton.
  - unfold bind, ret.
    destruct (run_filters (entity_filters c) entities) as [e|es]; [done|].
    rewrite run_filters_singleton. by destruct (g es).
  - unfold bind.
    destruct (run_filters (entity_filters c) entities) as [e|es]; [done|].
    rewrite map_app, run_filters_app. unfold bind.
    destruct (run_filters _ es); [done|]. apply run_filters_singleton.
Qed.

End filter_chain_facts.

(** ** Sensitivity scoring *)

Section dict_facts.

Context {V : Type}.

Lemma dict_get_set_eq (d : list (string * V)) (k : string) (v : V) :
  dict_get (dict_set d k v) k = Some v.
Proof.
  induction d as [|[k' v'] d IH]; simpl.
  - by rewrite String.eqb_refl.
  - destruct (String.eqb k' k) eqn:E; simpl; rewrite E; [done|exact IH].
Qed.

Lemma dict_get_set_ne (d : list (string * V)) (k k' : string) (v : V) :
  k' <> k -> dict_get (dict_set d k v) k' = dict_get d k'.
Proof.
  intros Hne. induction d as [|[k0 v0] d IH]; simpl.
  - apply String.eqb_neq in Hne. rewrite String.eqb_sym in Hne.
    by rewrite Hne.
  - destruct (String.eqb k0 k) eqn:E; simpl.
    + apply String.eqb_eq in E as ->.
      apply String.eqb_neq in Hne. rewrite String.eqb_sym in Hne.
      by rewrite Hne.
    + by rewrite IH.
Qed.

Lemma dict_set_idem (d : list (string * V)) (k : string) (v : V) :
  dict_set (dict_set d k v) k v = dict_set d k v.
Proof.
  induction d as [|[k' v'] d IH]; simpl.
  - by rewrite String.eqb_refl.
  - destruct (String.eqb k' k) eqn:E; simpl; rewrite E; [done|].
    by rewrite IH.
Qed.

End dict_facts.

Section sensitivity_scorer_facts.

Context {U : UnicodeDB}.

Import filters.

(** X5.  [sensitivity_scorer] only writes the entry 'sensitivity_level' of each
    entity's metadata, with one of the three levels: the entities keep
    their number, order, text, type, span, confidence and every other
    metadata entry; scoring twice gives what scoring once gives. *)
Theorem sensitivity_scorer_only_sets_level (entities : list DetectedEntity) :
  sensitivity_scorer (sensitivity_scorer entities)
  = sensitivity_scorer entities
  /\ Forall2
       (fun e e' =>
          text e' = text e /\ type e' = type e
          /\ start e' = start e /\ end_ e' = end_ e
          /\ confidence e' = confidence e
          /\ (exists level,
                dict_get (metadata e') "sensitivity_level"
                = Some (PyStr (level_value level)))
          /\ forall k, k <> "sensitivity_level"%string ->
                       dict_get (metadata e') k = dict_get (metadata e) k)
       entities (sensitivity_scorer entities).
Proof.
  split.
  - unfold sensitivity_scorer. rewrite map_map. apply map_ext.
    intros e. simpl. by rewrite dict_set_idem.
  - unfold sensitivity_scorer. induction entities as [|e es IH]; simpl.
    + constructor.
    + constructor; [|exact IH]. simpl. repeat split.
      * eexists. apply dict_get_set_eq.
      * intros k Hk. by apply dict_get_set_ne.
Qed.

End sensitivity_scorer_facts.

(** ** Entity validation *)

Section validate_entities_facts.

Context {U : UnicodeDB}.

Import filters.

(** X6.  When [validate_entities] returns, it returns the entities it was given
    without some of the fiscal codes, VAT numbers, e-mail addresses and
    phone numbers, in the order they came in; an entity of any other type
    is always kept. *)
Theorem validate_entities_only_drops_checked (entities validated
    : list DetectedEntity) :
  validate_entities entities = inr validated ->
  sublist validated entities
  /\ forall e, e ∈ entities ->
               type e <> FISCAL_CODE -> type e <> VAT_NUMBER ->
               type e <> EMAIL -> type e <> PHONE ->
               e ∈ validated.
Proof.
  revert validated.
  induction entities as [|e es IH]; intros validated; simpl.
  - intros [= <-]. split; [constructor|]. intros e He.
    by apply not_elem_of_nil in He.
  - unfold bind, ret.
    match goal with
    | |- match ?m with _ => _ end = _ -> _ =>
        destruct m as [x|is_valid] eqn:Hv; [done|]
    end.
    destruct (validate_entities es) as [x|vs]; [done|].
    destruct (IH vs eq_refl) as [Hsub Hkeep].
    intros [= <-]. split.
    + destruct is_valid; by constructor.
    + intros e' [->|He']%elem_of_cons H1 H2 H3 H4.
      * revert Hv H1 H2 H3 H4.
        destruct (type e); intros Hv H1 H2 H3 H4; try congruence;
          injection Hv as <-; apply elem_of_cons; by left.
      * specialize (Hkeep e' He' H1 H2 H3 H4).
        destruct is_valid; [apply elem_of_cons; by right|done].
Qed.

End validate_entities_facts.

(** ** The checksum validators *)

(** What the validators need of the character database: the ASCII digits
    are digits with their value, and the capital letters A..Z are not
    digits. *)
Definition ascii_digits {U : UnicodeDB} : Prop :=
  forall c, filters.is_09 c = true ->
            isdigit_char c = true
            /\ int_of_char c = Some (N.to_nat (c - 48)).

Definition capitals_no_digits {U : UnicodeDB} : Prop :=
  forall c, filters.is_AZ c = true -> isdigit_char c = false.

Lemma latin1_ascii_digits : ascii_digits (U := latin1).
Proof.
  intros c Hc. unfold filters.is_09 in Hc. simpl.
  unfold latin1_db.isdigit_char, latin1_db.int_of_char.
  rewrite Hc. done.
Qed.

Lemma latin1_capitals_no_digits : capitals_no_digits (U := latin1).
Proof.
  intros c Hc. unfold filters.is_AZ in Hc. simpl.
  unfold latin1_db.isdigit_char.
  apply andb_prop in Hc as [H1%N.leb_le H2%N.leb_le].
  repeat (apply orb_false_intro);
    try (apply andb_false_intro2, N.leb_gt; lia);
    apply N.eqb_neq; lia.
Qed.

Lemma index_elem (c : char) (s : pystr) :
  c ∈ s -> exists n, index c s = inr n /\ n < length s.
Proof.
  induction s as [|a s IH]; intros Hin.
  - by apply not_elem_of_nil in Hin.
  - simpl. destruct (a =? c)%N eqn:E.
    + exists 0. split; [done|lia].
    + apply elem_of_cons in Hin as [->|Hin].
      * by rewrite N.eqb_refl in E.
      * destruct (IH Hin) as (n & -> & Hn). exists (S n).
        split; [done|lia].
Qed.

Lemma capital_elem (c : char) :
  filters.is_AZ c = true -> c ∈ str "ABCDEFGHIJKLMNOPQRSTUVWXYZ".
Proof.
  intros [H1%N.leb_le H2%N.leb_le]%andb_prop.
  change (str "ABCDEFGHIJKLMNOPQRSTUVWXYZ") with (N.of_nat <$> seq 65 26).
  apply list_elem_of_fmap. exists (N.to_nat c). split; [lia|].
  apply elem_of_seq. lia.
Qed.

Lemma capital_lookup (k : nat) :
  k < 26 ->
  str "ABCDEFGHIJKLMNOPQRSTUVWXYZ" !! k = Some (N.of_nat (65 + k)).
Proof.
  intros Hk.
  change (str "ABCDEFGHIJKLMNOPQRSTUVWXYZ") with (N.of_nat <$> seq 65 26).
  rewrite list_lookup_fmap, lookup_seq_lt by done. done.
Qed.

Section fiscal_code_facts.

Context {U : UnicodeDB}.

Import filters.

Lemma matches_shape_Forall2 (shape : list (char -> bool)) (s : pystr) :
  matches_shape shape s = true ->
  Forall2 (fun p c => p c = true) shape s.
Proof.
  revert s. induction shape as [|p shape IH]; intros [|c s]; simpl;
    try done.
  intros [Hp Hs]%andb_prop. constructor; [done|by apply IH].
Qed.

Lemma cf_shape_alnum (s : pystr) :
  matches_shape cf_shape s = true ->
  Forall (fun c => is_AZ c || is_09 c = true) s.
Proof.
  intros H%matches_shape_Forall2.
  assert (Hs : Forall (fun p : char -> bool =>
                         forall c, p c = true -> is_AZ c || is_09 c = true)
                 cf_shape).
  { unfold cf_shape. simpl. repeat constructor; intros c ->;
      by rewrite ?orb_true_r. }
  induction H as [|p c shape s Hpc _ IH]; [constructor|].
  apply Forall_cons in Hs as [Hp Hs]. constructor; auto.
Qed.

Lemma cf_total_cons (i : nat) (c : char) (cs : pystr) :
  cf_total i (c :: cs)
  = (v <- (if Nat.even i then
             if isdigit_char c
             then (d <- int c ;; list_getitem odd_digit_values d)
             else index c odd_chars
           else if isdigit_char c then int c else index c even_chars) ;;
     r <- cf_total (S i) cs ;;
     ret (v + r)).
Proof. reflexivity. Qed.

Lemma capital_in_odd_chars (c : char) :
  is_AZ c = true -> c ∈ odd_chars.
Proof.
  intros Hc. apply capital_elem in Hc. revert c Hc.
  apply Forall_forall. apply (bool_decide_unpack _). vm_compute.
  reflexivity.
Qed.

Lemma cf_total_returns (cs : pystr) (i : nat) :
  ascii_digits -> capitals_no_digits ->
  Forall (fun c => is_AZ c || is_09 c = true) cs ->
  exists n, cf_total i cs = inr n.
Proof.
  intros Hdig Hcap Hall. revert i.
  induction Hall as [|c cs Hc _ IH]; intros i; [by eexists|].
  rewrite cf_total_cons.
  destruct (IH (S i)) as (r & ->).
  assert (Hv : exists v,
             (if Nat.even i then
                if isdigit_char c
                then (d <- int c ;; list_getitem odd_digit_values d)
                else index c odd_chars
              else if isdigit_char c then int c else index c even_chars)
             = inr v).
  { destruct (is_09 c) eqn:H9.
    - destruct (Hdig c H9) as [-> Hint]. unfold int. rewrite Hint.
      unfold bind, ret, list_getitem.
      assert (Hlt : N.to_nat (c - 48) < length odd_digit_values).
      { unfold is_09 in H9.
        apply andb_prop in H9 as [H1%N.leb_le H2%N.leb_le].
        change (length odd_digit_values) with 10. lia. }
      destruct (lookup_lt_is_Some_2 _ _ Hlt) as [v ->].
      destruct (Nat.even i); by eexists.
    - rewrite orb_false_r in Hc. rewrite (Hcap c Hc).
      destruct (index_elem c even_chars (capital_elem c Hc))
        as (n & -> & _).
      destruct (index_elem c odd_chars (capital_in_odd_chars c Hc))
        as (n' & -> & _).
      destruct (Nat.even i); by eexists. }
  destruct Hv as (v & ->). by eexists.
Qed.

(** X7.  The validator of the filter chain always answers: for no text does
    [validate_italian_fiscal_code] raise an exception. *)
Theorem validate_italian_fiscal_code_returns (cf : pystr) :
  ascii_digits -> capitals_no_digits ->
  exists is_valid, validate_italian_fiscal_code cf = inr is_valid.
Proof.
  intros Hdig Hcap. unfold validate_italian_fiscal_code.
  set (cf' := strip (upper cf)).
  destruct (length cf' =? 16) eqn:Hlen; cbn [negb]; [|by eexists].
  apply Nat.eqb_eq in Hlen.
  destruct (matches_shape cf_shape cf') eqn:Hshape; cbn [negb];
    [|by eexists].
  apply cf_shape_alnum in Hshape.
  destruct (cf_total_returns (take 15 cf') 0 Hdig Hcap) as (total & ->).
  { by apply Forall_take. }
  unfold bind, ret, getitem, check_chars.
  rewrite capital_lookup by (apply Nat.mod_upper_bound; lia).
  destruct (lookup_lt_is_Some_2 cf' 15) as [x ->]; [lia|].
  by eexists.
Qed.

End fiscal_code_facts.

(** The lower-case spelling of the code of scenario S1 gets an answer. *)
Lemma validate_italian_fiscal_code_returns_witness :
  exists is_valid,
    filters.validate_italian_fiscal_code (U := latin1)
      (str " rssmra85t10a562s ") = inr is_valid.
Proof.
  apply (validate_italian_fiscal_code_returns (U := latin1)).
  - exact latin1_ascii_digits.
  - exact latin1_capitals_no_digits.
Defined.

Section cf_recognizer_facts.

Import cf_recognizer.

(** X8.  The recognizer's checksum always answers, and for any fifteen
    characters it accepts exactly one sixteenth: a capital letter. *)
Theorem cf_checksum_accepts_one_letter (body : pystr) :
  length body = 15 ->
  exists letter,
    filters.is_AZ letter = true
    /\ forall x, _validate_cf_checksum (body ++ [x]) = inr (x =? letter)%N.
Proof.
  intros Hlen.
  set (k := checksum_total 0 body mod 26).
  assert (Hk : k < 26) by (apply Nat.mod_upper_bound; lia).
  exists (N.of_nat (65 + k)). split.
  { unfold filters.is_AZ. apply andb_true_intro.
    split; apply N.leb_le; lia. }
  intros x. unfold _validate_cf_checksum.
  rewrite length_app, Hlen. cbn [length Nat.add Nat.eqb negb].
  rewrite take_app_le, take_ge by lia. fold k.
  unfold getitem, CHECKSUM_LETTERS, bind, ret.
  rewrite capital_lookup by done.
  rewrite lookup_app_r, Hlen by lia. done.
Qed.

Lemma get_absent (d : list (char * nat)) (c : char) (default : nat) :
  c ∉ d.*1 -> get d c default = default.
Proof.
  induction d as [|[k v] d IH]; simpl; [done|].
  intros [Hne Hd]%not_elem_of_cons.
  destruct (k =? c)%N eqn:E; [|by apply IH].
  apply N.eqb_eq in E. congruence.
Qed.

Lemma checksum_total_unknown (cs : pystr) (i : nat) :
  Forall (fun c => filters.is_AZ c || filters.is_09 c = false) cs ->
  checksum_total i cs = 0.
Proof.
  intros Hall. revert i. induction Hall as [|c cs Hc _ IH]; intros i;
    [done|].
  cbn [checksum_total]. rewrite IH.
  assert (Hkeys : forall d,
             Forall (fun k => filters.is_AZ k || filters.is_09 k = true)
               d.*1 ->
             get d c 0 = 0).
  { intros d Hd. apply get_absent. intros Hin.
    rewrite Forall_forall in Hd. apply Hd in Hin. congruence. }
  rewrite !Hkeys; [by destruct (Nat.even i)| |];
    apply (bool_decide_unpack _); vm_compute; reflexivity.
Qed.

(** X9.  Characters outside 0-9 and A-Z count nothing ([.get(char, 0)]): when
    none of the first fifteen characters is a digit or a capital letter,
    the checksum is the letter 'A', whatever the characters are. *)
Theorem cf_checksum_ignores_unknown_characters (body : pystr) :
  length body = 15 ->
  Forall (fun c => filters.is_AZ c || filters.is_09 c = false) body ->
  forall x, _validate_cf_checksum (body ++ [x]) = inr (x =? 65)%N.
Proof.
  intros Hlen Hall x. unfold _validate_cf_checksum.
  rewrite length_app, Hlen. cbn [length Nat.add Nat.eqb negb].
  rewrite take_app_le, take_ge by lia.
  rewrite checksum_total_unknown by done.
  unfold getitem, bind, ret. rewrite lookup_app_r, Hlen by lia. done.
Qed.

End cf_recognizer_facts.

Lemma cf_checksum_accepts_one_letter_witness :
  exists letter,
    filters.is_AZ letter = true
    /\ forall x,
         cf_recognizer._validate_cf_checksum (str "RSSMRA85T10A562" ++ [x])
         = inr (x =? letter)%N.
Proof.
  apply (cf_checksum_accepts_one_letter (str "RSSMRA85T10A562")).
  reflexivity.
Defined.

(** Fifteen lower-case letters and an 'A' pass [_validate_cf_checksum]. *)
Lemma cf_checksum_ignores_unknown_characters_witness :
  cf_recognizer._validate_cf_checksum (str "rssmraxxtxxaxxxA") = inr true.
Proof.
  apply (cf_checksum_ignores_unknown_characters (str "rssmraxxtxxaxxx")
           eq_refl).
  repeat constructor.
Defined.

Lemma forallb_elem (p : char -> bool) (s : pystr) (c : char) :
  forallb p s = true -> c ∈ s -> p c = true.
Proof.
  intros H Hc. rewrite forallb_forall in H. by apply H, list_elem_of_In.
Qed.

Lemma forallb_lookup (p : char -> bool) (s : pystr) (i : nat) (c : char) :
  forallb p s = true -> s !! i = Some c -> p c = true.
Proof.
  intros H Hc. eapply forallb_elem; [done|].
  by eapply list_elem_of_lookup_2.
Qed.

Lemma forallb_take (p : char -> bool) (n : nat) (s : pystr) :
  forallb p s = true -> forallb p (take n s) = true.
Proof.
  intros H. apply forallb_forall. intros c Hc%list_elem_of_In.
  apply elem_of_take in Hc as (j & Hj & _). by eapply forallb_lookup.
Qed.

(** ** The VAT-number validators *)

Lemma digit_no_space (c : char) :
  filters.is_09 c = true -> isspace c = false.
Proof.
  intros [H1%N.leb_le H2%N.leb_le]%andb_prop. unfold isspace.
  repeat (apply orb_false_intro);
    first [ apply N.eqb_neq; lia
          | apply andb_false_intro1, N.leb_gt; lia
          | apply andb_false_intro2, N.leb_gt; lia ].
Qed.

(** A text that neither starts nor ends with whitespace is its own
    [strip]. *)
Lemma strip_id (s : pystr) :
  starts_with_space s = false -> ends_with_space s = false -> strip s = s.
Proof.
  intros Hs He. unfold strip.
  assert (Hl : lstrip s = s).
  { apply dropwhile_id. by destruct s. }
  rewrite Hl. unfold rstrip.
  rewrite dropwhile_id; [apply rev_involutive|].
  unfold ends_with_space in He. by destruct (rev s).
Qed.

Lemma all_no_outer_space (p : char -> bool) (s : pystr) :
  (forall c, p c = true -> isspace c = false) ->
  forallb p s = true ->
  starts_with_space s = false /\ ends_with_space s = false.
Proof.
  intros Hp Hall.
  assert (Hhd : forall t, forallb p t = true -> starts_with_space t = false).
  { intros [|c t]; simpl; [done|]. intros [Hc _]%andb_prop. by apply Hp. }
  split; [by apply Hhd|]. apply Hhd.
  apply forallb_forall. intros c Hc. apply in_rev in Hc.
  rewrite forallb_forall in Hall. by apply Hall.
Qed.

(** [s.replace(old, new)] leaves a text as it is when the first character
    of [old] does not occur in it. *)
Lemma replace_absent (a : char) (old new s : pystr) :
  a ∉ s -> replace (a :: old) new s = s.
Proof.
  intros Ha. apply re_sub_no_match. intros k.
  unfold match_literal.
  destruct (drop k s) as [|b t] eqn:Hd; [done|]. simpl.
  destruct (a =? b)%N eqn:E; [|done].
  apply N.eqb_eq in E as <-. exfalso. apply Ha.
  apply (list_elem_of_lookup_2 s k).
  rewrite <- (Nat.add_0_r k), <- lookup_drop, Hd. done.
Qed.

(** The value of an ASCII digit. *)
Definition digit_value (c : char) : nat := N.to_nat (c - 48).

Lemma digit_value_lt (c : char) :
  filters.is_09 c = true -> digit_value c < 10.
Proof.
  intros [H1%N.leb_le H2%N.leb_le]%andb_prop. unfold digit_value. lia.
Qed.

Lemma digit_value_inj (c c' : char) :
  filters.is_09 c = true -> filters.is_09 c' = true ->
  digit_value c = digit_value c' -> c = c'.
Proof.
  intros [H1%N.leb_le H2%N.leb_le]%andb_prop
         [H3%N.leb_le H4%N.leb_le]%andb_prop.
  unfold digit_value. lia.
Qed.

(** The two ways of adding the digits of a doubled digit agree. *)
Lemma doubled_digit (n : nat) :
  n < 10 ->
  (let n := n * 2 in if 9 <? n then n / 10 + n mod 10 else n)
  = (let doubled := n * 2 in if 9 <? doubled then doubled - 9 else doubled).
Proof.
  intros Hn. do 10 (destruct n as [|n]; [reflexivity|]). lia.
Qed.

Section vat_facts.

Context {U : UnicodeDB}.

Hypothesis digits : ascii_digits.

Lemma int_digit (c : char) :
  filters.is_09 c = true -> filters.int c = inr (digit_value c).
Proof.
  intros Hc. unfold filters.int. by destruct (digits c Hc) as [_ ->].
Qed.

Lemma ints_digits (cs : pystr) :
  forallb filters.is_09 cs = true ->
  piva_recognizer.ints cs = inr (map digit_value cs).
Proof.
  induction cs as [|c cs IH]; simpl; [done|].
  intros [Hc Hcs]%andb_prop. rewrite (int_digit c Hc), (IH Hcs). done.
Qed.

Lemma vat_total_digits (cs : pystr) (i : nat) :
  forallb filters.is_09 cs = true ->
  filters.vat_total i cs
  = inr (piva_recognizer.checksum_total i (map digit_value cs)).
Proof.
  revert i. induction cs as [|c cs IH]; intros i; simpl; [done|].
  intros [Hc Hcs]%andb_prop. rewrite (int_digit c Hc), (IH _ Hcs).
  unfold bind, ret. do 2 f_equal.
  rewrite <- Nat.negb_even.
  destruct (Nat.even i); [done|]. cbn [negb].
  apply (doubled_digit _ (digit_value_lt c Hc)).
Qed.

Lemma isdigit_digits (cs : pystr) :
  forallb filters.is_09 cs = true -> forallb isdigit_char cs = true.
Proof.
  intros H. apply forallb_forall. intros c Hc%list_elem_of_In.
  by destruct (digits c (forallb_elem _ _ _ H Hc)).
Qed.

(** What the recognizer's checksum computes on eleven ASCII digits. *)
Lemma piva_checksum_digits (piva : pystr) :
  length piva = 11 ->
  forallb filters.is_09 piva = true ->
  piva_recognizer._validate_piva_checksum piva
  = inr (nth 10 (map digit_value piva) 0
         =? (10 - piva_recognizer.checksum_total 0
                    (map digit_value (take 10 piva)) mod 10) mod 10).
Proof.
  intros Hlen Hall. unfold piva_recognizer._validate_piva_checksum.
  unfold piva_recognizer.isdigit. rewrite Hlen, (isdigit_digits _ Hall).
  cbn [Nat.eqb negb orb andb].
  pose proof (forallb_take _ 10 _ Hall) as Htake.
  rewrite (ints_digits _ Htake). unfold bind, getitem.
  destruct (lookup_lt_is_Some_2 piva 10) as [x Hx]; [lia|].
  rewrite Hx. unfold ret.
  pose proof (forallb_lookup _ _ _ _ Hall Hx) as Hx9.
  rewrite (int_digit x Hx9). do 2 f_equal. symmetry.
  apply nth_lookup_Some with (d := 0). rewrite list_lookup_fmap, Hx. done.
Qed.

End vat_facts.

Section vat_theorems.

Context {U : UnicodeDB}.

(** X10.  On eleven ASCII digits the validator of the filter chain and the
    checksum of the recognizer give the same answer: the two codings of the
    Luhn sum agree. *)
Theorem vat_validators_agree (piva : pystr) :
  ascii_digits ->
  length piva = 11 ->
  forallb filters.is_09 piva = true ->
  filters.validate_italian_vat piva
  = piva_recognizer._validate_piva_checksum piva.
Proof.
  intros digits Hlen Hall.
  rewrite (piva_checksum_digits digits piva Hlen Hall).
  unfold filters.validate_italian_vat.
  destruct (all_no_outer_space filters.is_09 piva digit_no_space Hall)
    as [Hs He].
  rewrite (strip_id piva Hs He).
  assert (Hno : forall a, filters.is_09 a = false -> a ∉ piva).
  { intros a Ha Hin. pose proof (forallb_elem _ _ _ Hall Hin). congruence. }
  change (str "IT") with (73%N :: str "T").
  rewrite replace_absent by (by apply Hno).
  change (str "it") with (105%N :: str "t").
  rewrite replace_absent by (by apply Hno).
  rewrite Hlen, (isdigit_digits digits _ Hall). cbn [Nat.eqb negb].
  pose proof (forallb_take _ 10 _ Hall) as Htake.
  rewrite (vat_total_digits digits _ 0 Htake). unfold bind, getitem.
  destruct (lookup_lt_is_Some_2 piva 10) as [x Hx]; [lia|].
  rewrite Hx. unfold ret.
  pose proof (forallb_lookup _ _ _ _ Hall Hx) as Hx9.
  rewrite (int_digit digits x Hx9). f_equal. rewrite Nat.eqb_sym. f_equal.
  symmetry. apply nth_lookup_Some with (d := 0).
  rewrite list_lookup_fmap, Hx. done.
Qed.


(** The contribution of a digit to the Luhn sum at position [j]. *)
Definition luhn_term (j d : nat) : nat :=
  if Nat.even j then d
  else let doubled := d * 2 in if 9 <? doubled then doubled - 9 else doubled.

Lemma checksum_total_insert (ds : list nat) :
  forall (i k d d' : nat),
    ds !! k = Some d ->
    piva_recognizer.checksum_total i (<[k := d']> ds) + luhn_term (i + k) d
    = piva_recognizer.checksum_total i ds + luhn_term (i + k) d'.
Proof.
  induction ds as [|x ds IH]; intros i k d d' Hk; [done|].
  destruct k as [|k]; simpl in Hk.
  - injection Hk as ->. simpl. rewrite Nat.add_0_r. unfold luhn_term.
    cbv zeta. lia.
  - simpl. specialize (IH (S i) k d d' Hk).
    replace (i + S k) with (S i + k) by lia. lia.
Qed.

Lemma luhn_term_lt (j d : nat) : d < 10 -> luhn_term j d < 10.
Proof.
  intros Hd. unfold luhn_term. cbv zeta.
  destruct (Nat.even j); [done|].
  destruct (Nat.ltb_spec 9 (d * 2)); lia.
Qed.

Lemma luhn_term_inj (j d d' : nat) :
  d < 10 -> d' < 10 -> luhn_term j d = luhn_term j d' -> d = d'.
Proof.
  intros Hd Hd'. unfold luhn_term. cbv zeta.
  destruct (Nat.even j); [done|].
  destruct (Nat.ltb_spec 9 (d * 2)), (Nat.ltb_spec 9 (d' * 2)); lia.
Qed.

Lemma check_digit_inj (a b : nat) :
  a < 10 -> b < 10 -> (10 - a) mod 10 = (10 - b) mod 10 -> a = b.
Proof.
  intros Ha Hb.
  destruct a as [|a], b as [|b]; try done.
  - rewrite Nat.Div0.mod_same, Nat.mod_small by lia. lia.
  - rewrite Nat.Div0.mod_same, Nat.mod_small by lia. lia.
  - rewrite !Nat.mod_small by lia. lia.
Qed.

(** Sums that differ by less than ten in one term have different last
    digits. *)
Lemma last_digit_differs (t t' x y : nat) :
  x < 10 -> y < 10 -> t' + x = t + y -> t mod 10 = t' mod 10 -> x = y.
Proof.
  intros Hx Hy Hsum Hmod.
  pose proof (Nat.div_mod_eq t 10) as Ht.
  pose proof (Nat.div_mod_eq t' 10) as Ht'.
  rewrite Hmod in Ht.
  generalize dependent (t / 10). generalize dependent (t' / 10).
  generalize dependent (t' mod 10). intros. lia.
Qed.

Lemma luhn_wrong_digit (ds : list nat) (i d d' : nat) :
  length ds = 11 ->
  ds !! i = Some d ->
  d < 10 -> d' < 10 -> d' <> d ->
  nth 10 ds 0
  = (10 - piva_recognizer.checksum_total 0 (take 10 ds) mod 10) mod 10 ->
  nth 10 (<[i := d']> ds) 0
  <> (10 - piva_recognizer.checksum_total 0 (take 10 (<[i := d']> ds))
             mod 10) mod 10.
Proof.
  intros Hlen Hi Hd Hd' Hne Hok.
  assert (Hi11 : i < 11) by (rewrite <- Hlen; by eapply lookup_lt_Some).
  rewrite nth_lookup in Hok. rewrite nth_lookup.
  destruct (decide (i = 10)) as [->|Hi10].
  - rewrite take_insert_ge by lia.
    rewrite list_lookup_insert_eq by lia.
    rewrite Hi in Hok. simpl in Hok |- *. congruence.
  - rewrite list_lookup_insert_ne by done.
    rewrite take_insert_lt by lia.
    assert (Ht : take 10 ds !! i = Some d).
    { rewrite lookup_take_lt by lia. done. }
    pose proof (checksum_total_insert (take 10 ds) 0 i d d' Ht) as Hsum.
    rewrite Nat.add_0_l in Hsum.
    rewrite Hok. intros Hbad.
    apply check_digit_inj in Hbad; try (apply Nat.mod_upper_bound; lia).
    apply Hne. apply (luhn_term_inj i); [done..|].
    symmetry. eapply last_digit_differs; [| |exact Hsum|exact Hbad];
      by apply luhn_term_lt.
Qed.

(** X11.  The Luhn checksum of the recognizer detects every single wrong digit: a
    number that passes stops passing when one of its eleven digits is
    replaced by another digit. *)
Theorem piva_checksum_detects_wrong_digit (piva : pystr) (i : nat)
    (c c' : char) :
  ascii_digits ->
  length piva = 11 ->
  forallb filters.is_09 piva = true ->
  piva !! i = Some c ->
  filters.is_09 c' = true ->
  c' <> c ->
  piva_recognizer._validate_piva_checksum piva = inr true ->
  piva_recognizer._validate_piva_checksum (<[i := c']> piva) = inr false.
Proof.
  intros digits Hlen Hall Hi Hc' Hne.
  assert (Hc : filters.is_09 c = true) by (by eapply forallb_lookup).
  assert (Hall' : forallb filters.is_09 (<[i := c']> piva) = true).
  { apply forallb_forall. intros x Hx%list_elem_of_In.
    apply list_elem_of_lookup in Hx as [j Hj].
    destruct (decide (i = j)) as [<-|Hij].
    - rewrite list_lookup_insert_eq in Hj by (by eapply lookup_lt_Some).
      by injection Hj as <-.
    - rewrite list_lookup_insert_ne in Hj by done.
      by eapply forallb_lookup. }
  rewrite (piva_checksum_digits digits piva Hlen Hall).
  rewrite (piva_checksum_digits digits _ (eq_trans (length_insert _ _ _) Hlen)
             Hall').
  intros Hok.
  assert (Hok' : (nth 10 (map digit_value piva) 0
                  =? (10 - piva_recognizer.checksum_total 0
                             (map digit_value (take 10 piva)) mod 10) mod 10)
                 = true) by congruence.
  clear Hok. apply Nat.eqb_eq in Hok'.
  f_equal. apply Nat.eqb_neq.
  change map with (@fmap list _) in *.
  rewrite fmap_take in Hok' |- *. rewrite list_fmap_insert.
  apply (luhn_wrong_digit _ i (digit_value c)); try done.
  - rewrite length_fmap. done.
  - rewrite list_lookup_fmap, Hi. done.
  - by apply digit_value_lt.
  - by apply digit_value_lt.
  - intros Heq. by apply Hne, digit_value_inj.
Qed.

End vat_theorems.

Lemma vat_validators_agree_witness :
  filters.validate_italian_vat (U := latin1) (str "12345678903")
  = piva_recognizer._validate_piva_checksum (U := latin1)
      (str "12345678903").
Proof.
  apply (vat_validators_agree (U := latin1)).
  - exact latin1_ascii_digits.
  - reflexivity.
  - reflexivity.
Defined.

(** "12345678903" passes; with its third digit changed to 8 it does not. *)
Lemma piva_checksum_detects_wrong_digit_witness :
  piva_recognizer._validate_piva_checksum (U := latin1)
    (<[2 := 56%N]> (str "12345678903")) = inr false.
Proof.
  apply (piva_checksum_detects_wrong_digit (U := latin1)
           (str "12345678903") 2 51%N 56%N).
  - exact latin1_ascii_digits.
  - reflexivity.
  - reflexivity.
  - reflexivity.
  - reflexivity.
  - discriminate.
  - vm_compute. reflexivity.
Defined.

(** *** Digits that [int] refuses *)



Section vat_int_facts.
Context {U : UnicodeDB}.



End vat_int_facts.


(** A code that the filter refuses (scenario S1) next to a name. *)
Definition fiscal_code (code : string) (start : nat) : DetectedEntity :=
  {| text := str code; type := FISCAL_CODE;
     start := start; end_ := start + String.length code;
     confidence := 0.9;
     context_before := None; context_after := None; metadata := [] |}.

Lemma validate_entities_only_drops_checked_witness :
  let entities :=
    [person "Mario Rossi" 0; fiscal_code "RSSMRA85T10A562S" 17] in
  sublist [person "Mario Rossi" 0] entities
  /\ forall e, e ∈ entities ->
               type e <> FISCAL_CODE -> type e <> VAT_NUMBER ->
               type e <> EMAIL -> type e <> PHONE ->
               e ∈ [person "Mario Rossi" 0].
Proof.
  apply (validate_entities_only_drops_checked (U := latin1)).
  vm_compute. reflexivity.
Defined.

(** ** Placeholders: which spans share one *)

Lemma str_inj (s s' : string) : str s = str s' -> s = s'.
Proof.
  unfold str. intros H.
  rewrite <- (string_of_list_ascii_of_string s),
          <- (string_of_list_ascii_of_string s').
  f_equal. revert H.
  generalize (list_ascii_of_string s) (list_ascii_of_string s').
  induction l as [|a l IH]; intros [|b l']; simpl; try done.
  intros [= Hab Hl]. f_equal; [|by apply IH].
  by rewrite <- (ascii_N_embedding a), <- (ascii_N_embedding b), Hab.
Qed.

(** [str(n)] tells the numbers apart, and consists of decimal digits. *)
Lemma str_of_nat_inj (n n' : nat) : str_of_nat n = str_of_nat n' -> n = n'.
Proof.
  unfold str_of_nat. intros H%str_inj.
  assert (Hnn : forall m, Nat.to_uint m <> Decimal.Nil).
  { intros m E. pose proof (Unsigned.to_of (Nat.to_uint m)) as Hm.
    rewrite Unsigned.of_to, E in Hm.
    by apply (DecimalFacts.unorm_nonnil Decimal.Nil). }
  apply (f_equal NilZero.uint_of_string) in H.
  rewrite !NilZero.usu in H by apply Hnn.
  injection H as H. by apply Unsigned.to_uint_inj.
Qed.

Lemma str_of_nat_digits (n : nat) :
  forallb filters.is_09 (str_of_nat n) = true.
Proof.
  unfold str_of_nat.
  assert (Hd : forall d,
             forallb filters.is_09 (str (NilEmpty.string_of_uint d)) = true).
  { induction d; simpl; try done; exact IHd. }
  destruct (Nat.to_uint n); try apply Hd. done.
Qed.

(** All kinds. *)
Definition all_types : list EntityType :=
  [ PERSON; ORGANIZATION; LOCATION; DATE; FISCAL_CODE; VAT_NUMBER; EMAIL;
    PHONE; ADDRESS; COURT; JUDGE; LAWYER; ID_CARD; PASSPORT; IBAN; OTHER ].

(** No tag followed by an underscore begins another one: the tag can be
    read off a placeholder. *)
Lemma tag_prefix_free (K K' : EntityType) (x x' : pystr) :
  value K ++ str "_" ++ x = value K' ++ str "_" ++ x' -> K = K'.
Proof.
  intros H.
  assert (Hpre : forall a b y y' : pystr,
             a ++ y = b ++ y' -> length a <= length b ->
             take (length a) b = a).
  { intros a b y y' Hab Hle.
    rewrite <- (take_app_le b y') by done. rewrite <- Hab.
    by rewrite take_app_length. }
  rewrite !app_assoc in H.
  assert (Hcheck :
    forallb (fun K1 =>
      forallb (fun K2 =>
        bool_decide (K1 = K2)
        || negb (bool_decide
                   (take (length (value K1 ++ str "_"))
                      (value K2 ++ str "_")
                    = value K1 ++ str "_")))
        all_types) all_types = true) by (vm_compute; reflexivity).
  assert (Hall : forall T, In T all_types) by (intros []; simpl; tauto).
  rewrite forallb_forall in Hcheck.
  destruct (Nat.le_ge_cases (length (value K ++ str "_"))
              (length (value K' ++ str "_"))) as [Hle|Hle].
  - pose proof (Hpre _ _ _ _ H Hle) as Ht.
    specialize (Hcheck K (Hall K)). rewrite forallb_forall in Hcheck.
    specialize (Hcheck K' (Hall K')).
    apply orb_prop in Hcheck as [Heq|Hn].
    + by apply bool_decide_eq_true in Heq.
    + apply negb_true_iff, bool_decide_eq_false in Hn. done.
  - symmetry in H. pose proof (Hpre _ _ _ _ H Hle) as Ht.
    specialize (Hcheck K' (Hall K')). rewrite forallb_forall in Hcheck.
    specialize (Hcheck K (Hall K)).
    apply orb_prop in Hcheck as [Heq|Hn].
    + by apply bool_decide_eq_true in Heq.
    + apply negb_true_iff, bool_decide_eq_false in Hn. done.
Qed.

(** Placeholders with different kinds or numbers are different texts. *)
Lemma placeholder_inj (K K' : EntityType) (n n' : nat) :
  placeholder K n = placeholder K' n' -> K = K' /\ n = n'.
Proof.
  intros H. pose proof (tag_prefix_free _ _ _ _ H) as <-.
  split; [done|]. unfold placeholder in H.
  do 2 apply app_inv_head in H.
  assert (Hnum : forall m m', str_of_nat m = str_of_nat m' -> m = m')
    by apply str_of_nat_inj.
  assert (Hmix : forall m m', [N.of_nat (64 + m)] = str_of_nat m' -> False).
  { intros m m' E. pose proof (str_of_nat_digits m') as Hd.
    rewrite <- E in Hd. cbn [forallb] in Hd. rewrite andb_true_r in Hd.
    apply andb_prop in Hd as [_ Hd%N.leb_le]. lia. }
  set (letters := match K with
                  | PERSON | ORGANIZATION => true
                  | _ => false
                  end).
  assert (H' : (if letters
                then if n <=? 26 then [N.of_nat (64 + n)] else str_of_nat n
                else str_of_nat n)
               = (if letters
                  then if n' <=? 26 then [N.of_nat (64 + n')]
                       else str_of_nat n'
                  else str_of_nat n')) by (destruct K; exact H).
  clear H. destruct letters; [|exact (Hnum _ _ H')].
  destruct (n <=? 26), (n' <=? 26).
  - injection H' as H'. lia.
  - exfalso. exact (Hmix _ _ H').
  - exfalso. symmetry in H'. exact (Hmix _ _ H').
  - exact (Hnum _ _ H').
Qed.

Section placeholder_sharing.

Context {U : UnicodeDB}.

Import strategies.

(** The states of the default strategy (the deterministic replacer under
    the consistency wrapper): both maps are the same map, every entry holds
    a placeholder of its kind with a number up to the counter of the kind,
    and no two keys hold the same placeholder. *)
Definition default_strategy_inv (d : DeterministicReplacer)
    (m : gmap (EntityType * pystr) pystr) : Prop :=
  format_template d = deterministic_default
  /\ use_letters_for_names d = true
  /\ m = entity_map d
  /\ (forall k r, m !! k = Some r ->
                  exists n, 1 <= n <= counter d k.1
                            /\ r = placeholder k.1 n)
  /\ (forall k1 k2 r, m !! k1 = Some r -> m !! k2 = Some r -> k1 = k2).

Lemma default_strategy_step (d : DeterministicReplacer)
    (m : gmap (EntityType * pystr) pystr) (e : DetectedEntity) :
  default_strategy_inv d m ->
  exists r d' m',
    replace (Consistent (Deterministic d) m) e
    = (inr r, Consistent (Deterministic d') m')
    /\ default_strategy_inv d' m'
    /\ m ⊆ m'
    /\ m' !! key_of e = Some r
    /\ (m !! key_of e = None ->
        r = placeholder (type e) (S (counter d (type e)))).
Proof.
  intros Hinv. pose proof Hinv as (Ht & Hl & Hm & Hnum & Hinj).
  cbn [replace]. destruct (m !! key_of e) as [r|] eqn:Hk.
  { by exists r, d, m. }
  unfold deterministic_replace. rewrite <- Hm, Hk.
  rewrite Ht, Hl, format_default, index_str_placeholder.
  set (c := counter d (type e)).
  assert (Hc : match entity_counters d !! type e with
               | Some n => n + 1 | None => 0 + 1 end = S c).
  { unfold c, counter. destruct (entity_counters d !! type e); simpl; lia. }
  rewrite Hc.
  eexists _, _, _. split; [reflexivity|].
  assert (Hcnt : forall K,
             counter d K
             <= counter
                  {| format_template := deterministic_default;
                     use_letters_for_names := true;
                     entity_map :=
                       <[key_of e := placeholder (type e) (S c)]> m;
                     entity_counters :=
                       <[type e := S c]> (entity_counters d) |} K).
  { intros K. unfold counter at 2. simpl.
    destruct (decide (type e = K)) as [<-|HK].
    - rewrite lookup_insert_eq. simpl. fold c. lia.
    - rewrite lookup_insert_ne by done. done. }
  repeat split; try done.
  - intros k r. destruct (decide (key_of e = k)) as [<-|Hne].
    + rewrite lookup_insert_eq. intros [= <-]. exists (S c).
      split; [|done]. unfold counter. simpl. rewrite lookup_insert_eq.
      simpl. lia.
    + rewrite lookup_insert_ne by done. intros Hr.
      destruct (Hnum k r Hr) as (n & [Hn1 Hn2] & ->).
      exists n. split; [|done]. specialize (Hcnt k.1). lia.
  - intros k1 k2 r H1 H2.
    assert (Hfresh : forall k, m !! k = Some (placeholder (type e) (S c)) ->
                               False).
    { intros k Hr. destruct (Hnum k _ Hr) as (n & [Hn1 Hn2] & Heq).
      apply placeholder_inj in Heq as [HK <-]. rewrite <- HK in Hn2.
      fold c in Hn2. lia. }
    destruct (decide (key_of e = k1)) as [<-|Hne1];
      destruct (decide (key_of e = k2)) as [<-|Hne2]; try done.
    + rewrite lookup_insert_eq in H1. injection H1 as <-.
      rewrite lookup_insert_ne in H2 by done. by apply Hfresh in H2.
    + rewrite lookup_insert_eq in H2. injection H2 as <-.
      rewrite lookup_insert_ne in H1 by done. by apply Hfresh in H1.
    + rewrite lookup_insert_ne in H1, H2 by done. by eapply Hinj.
  - by apply insert_subseteq.
  - apply lookup_insert_eq.
Qed.

Lemma default_strategy_run (es : list DetectedEntity) :
  forall d m,
    default_strategy_inv d m ->
    exists rs d' m',
      replacements (Consistent (Deterministic d) m) es
      = (inr rs, Consistent (Deterministic d') m')
      /\ default_strategy_inv d' m'
      /\ m ⊆ m'
      /\ Forall2 (fun e r => m' !! key_of e = Some r) es rs.
Proof.
  induction es as [|e es IH]; intros d m Hinv.
  - exists [], d, m. split; [done|]. split; [done|]. split; [done|].
    constructor.
  - destruct (default_strategy_step d m e Hinv)
      as (r & d1 & m1 & Hstep & Hinv1 & Hsub1 & Hr & _).
    destruct (IH d1 m1 Hinv1) as (rs & d' & m' & Hrun & Hinv' & Hsub & Hall).
    exists (r :: rs), d', m'. cbn [replacements]. rewrite Hstep, Hrun.
    split; [done|]. split; [done|]. split; [by etrans|].
    constructor; [|done]. by eapply lookup_weaken.
Qed.

(** X13.  The strategy of the default configuration: whatever spans it is asked
    to replace, in whatever order, it gives two of them the same
    placeholder exactly when they have the same kind and, up to case, the
    same text. *)
Theorem default_strategy_shares_placeholder_iff_same_key
    (es : list DetectedEntity) :
  let s0 :=
    Consistent
      (Deterministic (DeterministicReplacer_init deterministic_default true))
      ∅ in
  exists rs s',
    replacements s0 es = (inr rs, s')
    /\ length rs = length es
    /\ forall i j ei ej ri rj,
         es !! i = Some ei -> es !! j = Some ej ->
         rs !! i = Some ri -> rs !! j = Some rj ->
         (ri = rj <-> key_of ei = key_of ej).
Proof.
  cbv zeta.
  destruct (default_strategy_run es
              (DeterministicReplacer_init deterministic_default true) ∅)
    as (rs & d' & m' & Hrun & Hinv & _ & Hall).
  { repeat split; try done. }
  exists rs, (Consistent (Deterministic d') m').
  split; [done|]. split; [symmetry; by eapply Forall2_length|].
  intros i j ei ej ri rj Hi Hj Hri Hrj.
  destruct (Forall2_lookup_l _ _ _ i ei Hall Hi) as (ri' & Hri' & Hmi).
  destruct (Forall2_lookup_l _ _ _ j ej Hall Hj) as (rj' & Hrj' & Hmj).
  rewrite Hri in Hri'. injection Hri' as <-.
  rewrite Hrj in Hrj'. injection Hrj' as <-.
  destruct Hinv as (_ & _ & _ & _ & Hinj). split.
  - intros <-. by eapply Hinj.
  - intros Hk. rewrite Hk in Hmi. congruence.
Qed.

(** The strategy as successive calls of [replace] leave it, whatever the
    calls answer. *)
Definition after_calls_of (s : ReplacementStrategy)
    (es : list DetectedEntity) : ReplacementStrategy :=
  fold_left (fun s e => (replace s e).2) es s.

(** No call takes an entry out of the consistency map or changes it. *)
Lemma consistent_keeps (base : ReplacementStrategy)
    (m : gmap (EntityType * pystr) pystr) (e : DetectedEntity)
    (k : EntityType * pystr) (r : pystr) :
  m !! k = Some r ->
  exists base' m',
    (replace (Consistent base m) e).2 = Consistent base' m'
    /\ m' !! k = Some r.
Proof.
  intros Hk. cbn [replace].
  destruct (m !! key_of e) as [r0|] eqn:Hm.
  - by exists base, m.
  - destruct (replace base e) as [[x|r0] base'].
    + by exists base', m.
    + exists base', (<[key_of e := r0]> m). split; [done|].
      rewrite lookup_insert_ne; [done|]. intros <-. congruence.
Qed.

Lemma consistent_keeps_all (es : list DetectedEntity)
    (k : EntityType * pystr) (r : pystr) :
  forall base m,
    m !! k = Some r ->
    exists base' m',
      after_calls_of (Consistent base m) es = Consistent base' m'
      /\ m' !! k = Some r.
Proof.
  induction es as [|e es IH]; intros base m Hk.
  - by exists base, m.
  - destruct (consistent_keeps base m e k r Hk) as (b1 & m1 & Hs & Hk1).
    destruct (IH b1 m1 Hk1) as (b2 & m2 & Hs2 & Hk2).
    exists b2, m2. split; [|done].
    unfold after_calls_of in *. cbn [fold_left]. by rewrite Hs.
Qed.

(** X14.  Under the consistency wrapper, once a span has got a replacement,
    every later call for a span of the same kind and, up to [str.lower], the
    same text returns that replacement and leaves the strategy as it is:
    whatever the base strategy is and would answer now, and whatever spans
    the strategy was asked to replace in between (and whether those calls
    returned or raised). *)
Theorem consistent_replace_repeats (base : ReplacementStrategy)
    (m : gmap (EntityType * pystr) pystr) (e e' : DetectedEntity)
    (r : pystr) (s' : ReplacementStrategy) (between : list DetectedEntity) :
  replace (Consistent base m) e = (inr r, s') ->
  type e' = type e -> lower (text e') = lower (text e) ->
  let s'' := after_calls_of s' between in
  replace s'' e' = (inr r, s'').
Proof.
  intros Hrun Hty Htx.
  assert (Hkey : key_of e' = key_of e) by (unfold key_of; congruence).
  assert (Hs' : exists b1 m1, s' = Consistent b1 m1
                              /\ m1 !! key_of e = Some r).
  { cbn [replace] in Hrun. destruct (m !! key_of e) as [r0|] eqn:Hm.
    - injection Hrun as <- <-. by exists base, m.
    - destruct (replace base e) as [[x|r0] base']; [done|].
      injection Hrun as <- <-. eexists _, _. split; [done|].
      apply lookup_insert_eq. }
  destruct Hs' as (b1 & m1 & -> & Hk).
  destruct (consistent_keeps_all between _ _ b1 m1 Hk)
    as (b2 & m2 & Hs2 & Hk2).
  cbv zeta. rewrite Hs2. cbn [replace]. by rewrite Hkey, Hk2.
Qed.

End placeholder_sharing.

(** The hash strategy as the factory builds it. *)
Definition default_hash : strategies.ReplacementStrategy :=
  strategies.Hash
    {| strategies.algorithm := "sha256";
       strategies.truncate := Some 16;
       strategies.salt := [];
       strategies.prefix := str "HASH_" |}.

(** A hash strategy that uses MD5, salted and cut to twelve digits. *)
Definition md5_hash : strategies.ReplacementStrategy :=
  strategies.Hash
    {| strategies.algorithm := "md5";
       strategies.truncate := Some 12;
       strategies.salt := str "pepe";
       strategies.prefix := str "HASH_" |}.

(** Alone, the hash strategy tells "Mario Rossi" from "MARIO ROSSI"; under
    the wrapper the second spelling gets the hash of the first, also after
    two other names were replaced. *)
Lemma consistent_replace_repeats_witness :
  let s0 := strategies.Consistent md5_hash ∅ in
  let s' := (strategies.replace (U := latin1) s0 (person "Mario Rossi" 0)).2 in
  let s'' := after_calls_of (U := latin1) s'
               [person "Anna Verdi" 20; person "Luca Neri" 40] in
  let r := str "HASH_e6832694d3cb" in
  strategies.replace (U := latin1) s0 (person "Mario Rossi" 0) = (inr r, s')
  /\ strategies.replace (U := latin1) s'' (person "MARIO ROSSI" 60)
     = (inr r, s'')
  /\ (strategies.replace (U := latin1) md5_hash (person "MARIO ROSSI" 60)).1
     <> inr r.
Proof.
  intros s0 s' s'' r.
  assert (Hfirst : strategies.replace (U := latin1) s0
                     (person "Mario Rossi" 0) = (inr r, s'))
    by (vm_compute; reflexivity).
  split; [exact Hfirst|]. split; [|vm_compute; congruence].
  apply (consistent_replace_repeats (U := latin1) md5_hash ∅
           (person "Mario Rossi" 0) (person "MARIO ROSSI" 60) r s'
           [person "Anna Verdi" 20; person "Luca Neri" 40] Hfirst);
    vm_compute; reflexivity.
Defined.

(** ** The rewriter: the order of the spans *)

Section sorted_desc_facts.

Context {A : Type} (key : A -> nat).

Lemma insert_desc_perm (x : A) (l : list A) : insert_desc key x l ≡ₚ x :: l.
Proof.
  induction l as [|y l IH]; simpl; [done|].
  destruct (key y <=? key x); [done|]. rewrite IH. apply Permutation_swap.
Qed.

Lemma sorted_desc_perm (l : list A) : sorted_desc key l ≡ₚ l.
Proof.
  induction l as [|x l IH]; [done|].
  change (sorted_desc key (x :: l))
    with (insert_desc key x (sorted_desc key l)).
  by rewrite insert_desc_perm, IH.
Qed.

Lemma insert_desc_sorted (x : A) (l : list A) :
  StronglySorted (fun a b => key b <= key a) l ->
  StronglySorted (fun a b => key b <= key a) (insert_desc key x l).
Proof.
  induction 1 as [|y l Hl IH Hy]; simpl.
  - repeat constructor.
  - destruct (key y <=? key x) eqn:E.
    + apply Nat.leb_le in E. constructor.
      * by constructor.
      * constructor; [done|]. eapply Forall_impl; [exact Hy|].
        simpl. intros z Hz. lia.
    + apply Nat.leb_gt in E. constructor; [done|].
      apply Forall_forall. intros z Hz.
      apply elem_of_insert_desc in Hz as [->|Hz]; [lia|].
      rewrite Forall_forall in Hy. by apply Hy.
Qed.

Lemma sorted_desc_sorted (l : list A) :
  StronglySorted (fun a b => key b <= key a) (sorted_desc key l).
Proof.
  induction l as [|x l IH]; [constructor|].
  change (sorted_desc key (x :: l))
    with (insert_desc key x (sorted_desc key l)).
  by apply insert_desc_sorted.
Qed.

(** With pairwise different keys the sorted list does not depend on the
    order of the input. *)
Lemma sorted_desc_permutation (l l' : list A) :
  NoDup (key <$> l) -> l ≡ₚ l' -> sorted_desc key l = sorted_desc key l'.
Proof.
  intros Hnd Hperm.
  apply (StronglySorted_unique_strong (fun a b => key b <= key a)).
  - intros x1 x2 H1%elem_of_sorted_desc H2%elem_of_sorted_desc Ha Hb.
    rewrite <- Hperm in H2.
    apply list_elem_of_lookup in H1 as [i Hi], H2 as [j Hj].
    assert (Hij : i = j).
    { apply (NoDup_lookup _ i j (key x1) Hnd).
      - by rewrite list_lookup_fmap, Hi.
      - rewrite list_lookup_fmap, Hj. simpl. f_equal. lia. }
    subst j. congruence.
  - apply sorted_desc_sorted.
  - apply sorted_desc_sorted.
  - by rewrite !sorted_desc_perm.
Qed.

(** The first span of the sorted list has the greatest key. *)
Lemma sorted_desc_head (l : list A) (x : A) (rest : list A) :
  sorted_desc key l = x :: rest -> forall y, y ∈ l -> key y <= key x.
Proof.
  intros Hs y Hy. rewrite <- (elem_of_sorted_desc key) in Hy.
  pose proof (sorted_desc_sorted l) as Hsorted. rewrite Hs in *.
  apply StronglySorted_inv in Hsorted as [_ Hall].
  apply elem_of_cons in Hy as [->|Hy]; [done|].
  rewrite Forall_forall in Hall. by apply Hall.
Qed.

End sorted_desc_facts.

Section replace_all_order.

Context {U : UnicodeDB}.

Import strategies.

(** X15.  [replace_all] does not depend on the order in which the entities are
    listed, as long as no two of them start at the same offset. *)
Theorem replace_all_order_independent (s : ReplacementStrategy)
    (text : pystr) (entities entities' : list DetectedEntity) :
  NoDup (start <$> entities) ->
  entities ≡ₚ entities' ->
  replace_all s text entities = replace_all s text entities'.
Proof.
  intros Hnd Hperm. unfold replace_all.
  by rewrite (sorted_desc_permutation start entities entities' Hnd Hperm).
Qed.

(** X16.  The default strategy numbers the spans from the end of the text: the
    span that starts last gets number 1 of its kind, so a rewritten text
    ends with that placeholder and what followed the span. *)
Theorem replace_all_numbers_from_the_end (text : pystr)
    (entities : list DetectedEntity) (last : DetectedEntity) :
  let s0 :=
    Consistent
      (Deterministic (DeterministicReplacer_init deterministic_default true))
      ∅ in
  Forall (in_range (length text)) entities ->
  pairwise_disjoint entities ->
  last ∈ entities ->
  (forall e, e ∈ entities -> start e <= start last) ->
  exists before,
    (replace_all s0 text entities).1
    = inr (before ++ placeholder (type last) 1 ++ drop (end_ last) text).
Proof.
  intros s0 Hrange Hdis Hlast Hmax.
  pose proof (sorted_desc_disjoint _ _ Hrange Hdis) as Hdd.
  destruct (sorted_desc start entities) as [|e0 rest] eqn:Hs.
  { rewrite <- (elem_of_sorted_desc start) in Hlast. rewrite Hs in Hlast.
    by apply not_elem_of_nil in Hlast. }
  assert (He0 : e0 = last).
  { pose proof (sorted_desc_head start _ _ _ Hs last Hlast) as Hle.
    assert (Hin : e0 ∈ entities).
    { rewrite <- (elem_of_sorted_desc start), Hs. by left. }
    pose proof (Hmax e0 Hin) as Hge.
    assert (Hl' : last ∈ e0 :: rest)
      by (rewrite <- Hs; by rewrite elem_of_sorted_desc).
    apply elem_of_cons in Hl' as [->|Hl']; [done|].
    destruct Hdd as (H1 & H2 & Hrest).
    exfalso. clear -Hl' Hrest Hle Hge H1.
    destruct rest as [|e1 rest]; [by apply not_elem_of_nil in Hl'|].
    assert (Hall : forall bound l, descending_disjoint bound l ->
                                   forall e, e ∈ l -> end_ e <= bound
                                                     /\ start e < end_ e).
    { intros bound l. revert bound.
      induction l as [|a l IH]; intros bound Hd e He.
      - by apply not_elem_of_nil in He.
      - destruct Hd as (Ha1 & Ha2 & Hd).
        apply elem_of_cons in He as [->|He]; [done|].
        destruct (IH _ Hd e He). lia. }
    destruct (Hall _ _ Hrest last Hl'). lia. }
  subst e0.
  assert (Hinv0 : default_strategy_inv
                    (DeterministicReplacer_init deterministic_default true)
                    ∅) by (repeat split; done).
  destruct (default_strategy_step _ _ last Hinv0)
    as (r0 & d1 & m1 & Hstep & Hinv1 & _ & _ & Hr0).
  assert (Hr0' := Hr0 (lookup_empty (key_of last))). clear Hr0.
  rename Hr0' into Hr0.
  assert (Hc0 : counter
                   (DeterministicReplacer_init deterministic_default true)
                   (type last) = 0).
  { unfold counter. simpl. by rewrite lookup_empty. }
  rewrite Hc0 in Hr0. subst r0.
  destruct (default_strategy_run rest d1 m1 Hinv1)
    as (rs & d' & m' & Hrun & _ & _ & _).
  fold s0 in Hstep.
  assert (Hrs : replacements s0 (last :: rest)
                = (inr (placeholder (type last) 1 :: rs),
                   Consistent (Deterministic d') m')).
  { cbn [replacements]. by rewrite Hstep, Hrun. }
  destruct (replace_all s0 text entities) as [out s'] eqn:Hall.
  assert (Hout : exists o, out = inr o).
  { unfold replace_all in Hall. rewrite Hs, replace_loop_splices in Hall.
    rewrite Hrs in Hall. injection Hall as <- _. by eexists. }
  destruct Hout as [o ->].
  destruct (replace_all_weave s0 s' text o entities) as (rs' & Hrs' & ->);
    [by rewrite Hs|done|].
  rewrite Hs in Hrs' |- *. rewrite Hrs in Hrs'. injection Hrs' as <- _.
  cbn [zip zip_with rev fst]. fold (zip rest rs).
  rewrite weave_snoc. cbn [fst snd].
  eexists. do 3 f_equal. unfold slice.
  apply take_ge. rewrite length_drop. lia.
Qed.

End replace_all_order.

(** "Mario Rossi ha incontrato Luigi Verdi.": the second name becomes
    PERSON_A. *)
Lemma replace_all_numbers_from_the_end_witness :
  let text := str "Mario Rossi ha incontrato Luigi Verdi." in
  let entities := [person "Mario Rossi" 0; person "Luigi Verdi" 26] in
  exists before,
    (strategies.replace_all (U := latin1)
       (strategies.Consistent
          (strategies.Deterministic
             (strategies.DeterministicReplacer_init
                strategies.deterministic_default true)) ∅)
       text entities).1
    = inr (before ++ placeholder PERSON 1 ++ drop 37 text).
Proof.
  apply (replace_all_numbers_from_the_end (U := latin1)
           (str "Mario Rossi ha incontrato Luigi Verdi.")
           [person "Mario Rossi" 0; person "Luigi Verdi" 26]
           (person "Luigi Verdi" 26)).
  - repeat constructor; vm_compute; lia.
  - simpl. repeat split; try constructor; try (left; vm_compute; lia).
  - apply elem_of_cons. right. apply elem_of_cons. by left.
  - intros e [->|[->|He]%elem_of_cons]%elem_of_cons; simpl; try lia.
    by apply not_elem_of_nil in He.
Defined.

Lemma replace_all_order_independent_witness :
  strategies.replace_all (U := latin1)
    (strategies.Redaction
       {| strategies.redaction_template := strategies.redaction_default;
          strategies.use_italian_labels := true |})
    (str "Mario Rossi ha incontrato Luigi Verdi.")
    [person "Mario Rossi" 0; person "Luigi Verdi" 26]
  = strategies.replace_all (U := latin1)
      (strategies.Redaction
         {| strategies.redaction_template := strategies.redaction_default;
            strategies.use_italian_labels := true |})
      (str "Mario Rossi ha incontrato Luigi Verdi.")
      [person "Luigi Verdi" 26; person "Mario Rossi" 0].
Proof.
  apply (replace_all_order_independent (U := latin1)).
  - apply (bool_decide_unpack _). vm_compute. reflexivity.
  - apply Permutation_swap.
Defined.

(** ** Digests: cache keys and hash replacements *)

Section sha256_facts.

Import Sha256.

Lemma round_length (st : list N) (kw : N * N) :
  length (round st kw) = length st.
Proof.
  unfold round.
  do 9 (destruct st as [|? st]; [reflexivity|]). reflexivity.
Qed.

Lemma compress_length (h block : list N) :
  length (compress h block) = length h.
Proof.
  unfold compress. cbv zeta. rewrite length_zip_with.
  assert (Hfold : forall l st, length (fold_left round l st) = length st).
  { induction l as [|kw l IH]; intros st; simpl; [done|].
    by rewrite IH, round_length. }
  rewrite Hfold. lia.
Qed.

Lemma be_bytes_bytes (k : nat) (x : N) :
  Forall (fun b => (b < 256)%N) (be_bytes k x).
Proof.
  induction k as [|k IH]; simpl; constructor; [|done].
  apply N.mod_lt. done.
Qed.

(** A digest has 32 bytes. *)
Lemma digest_bytes (msg : list N) :
  length (digest msg) = 32 /\ Forall (fun b => (b < 256)%N) (digest msg).
Proof.
  unfold digest. cbv zeta.
  set (h := fold_left compress _ H0).
  assert (Hlen : length h = 8).
  { unfold h. generalize (chunks (length (pad msg) / 64) 64 (pad msg)).
    assert (Hfold : forall l st,
               length (fold_left compress l st) = length st).
    { induction l as [|b l IH]; intros st; simpl; [done|].
      by rewrite IH, compress_length. }
    intros l. by rewrite Hfold. }
  split.
  - do 9 (destruct h as [|? h]; try discriminate). reflexivity.
  - clear Hlen. induction h as [|x h IH]; cbn [flat_map]; [constructor|].
    apply Forall_app. split; [|done]. apply be_bytes_bytes.
Qed.

End sha256_facts.

(** The lower-case hexadecimal digits. *)
Definition is_hex (c : char) : bool :=
  filters.is_09 c || (97 <=? c)%N && (c <=? 102)%N.

(** A hex digest has 64 characters, all of them hexadecimal digits. *)
Lemma hexdigest_format (msg : list N) :
  length (Sha256.hexdigest msg) = 64
  /\ forallb is_hex (Sha256.hexdigest msg) = true.
Proof.
  unfold Sha256.hexdigest. destruct (digest_bytes msg) as [Hlen Hall].
  revert Hlen Hall. generalize (Sha256.digest msg). intros l Hlen Hall.
  assert (Hhex : forall d, (d < 16)%N -> is_hex (Sha256.hex_digit d) = true).
  { intros d Hd. unfold Sha256.hex_digit, is_hex, filters.is_09.
    destruct (N.ltb_spec d 10).
    - apply orb_true_intro. left. apply andb_true_intro.
      split; apply N.leb_le; lia.
    - apply orb_true_intro. right. apply andb_true_intro.
      split; apply N.leb_le; lia. }
  split.
  - assert (H2 : forall l' : list N,
               length (flat_map
                         (fun b => [Sha256.hex_digit (b / 16);
                                    Sha256.hex_digit (b mod 16)]) l')
               = 2 * length l').
    { induction l' as [|b l' IH]; [done|].
      cbn [flat_map app length]. rewrite IH. lia. }
    rewrite H2, Hlen. done.
  - clear Hlen. induction Hall as [|b l Hb _ IH]; [done|].
    cbn [flat_map app forallb]. rewrite IH, !Hhex; [done| |].
    + apply N.mod_lt. done.
    + apply N.Div0.div_lt_upper_bound. lia.
Qed.

Definition is_surrogate (c : char) : bool :=
  (55296 <=? c)%N && (c <? 57344)%N.

(** [str.encode()] fails on the surrogates and on nothing else. *)
Lemma encode_cases (s : pystr) :
  if existsb is_surrogate s
  then exists msg, encode s = inl (ValueError msg)
  else exists bytes, encode s = inr bytes.
Proof.
  induction s as [|c s IH]; [by eexists|].
  cbn [existsb encode]. unfold encode_char, is_surrogate at 1.
  destruct (N.ltb_spec c 128).
  { rewrite (proj2 (N.leb_gt _ _)) by lia. cbn [andb orb bind ret].
    destruct (existsb is_surrogate s).
    - destruct IH as [msg ->]. by eexists.
    - destruct IH as [bs ->]. by eexists. }
  destruct (N.ltb_spec c 2048).
  { rewrite (proj2 (N.leb_gt _ _)) by lia. cbn [andb orb bind ret].
    destruct (existsb is_surrogate s).
    - destruct IH as [msg ->]. by eexists.
    - destruct IH as [bs ->]. by eexists. }
  destruct ((55296 <=? c)%N && (c <? 57344)%N); cbn [orb bind raise];
    [by eexists|].
  destruct (c <? 65536)%N; cbn [bind ret];
    (destruct (existsb is_surrogate s);
     [destruct IH as [msg ->]|destruct IH as [bs ->]]; by eexists).
Qed.

(** X17.  [generate_cache_key] raises (UnicodeEncodeError, a ValueError) exactly
    when one of its arguments holds a surrogate code point; otherwise it
    returns "privacy:doc:" followed by sixteen lower-case hexadecimal
    digits. *)
Theorem generate_cache_key_format (text engine_name config_hash : pystr) :
  if existsb is_surrogate (text ++ engine_name ++ config_hash)
  then exists msg,
         cache_manager.generate_cache_key text engine_name config_hash
         = inl (ValueError msg)
  else exists h,
         cache_manager.generate_cache_key text engine_name config_hash
         = inr (str "privacy:doc:" ++ h)
         /\ length h = 16
         /\ forallb is_hex h = true.
Proof.
  unfold cache_manager.generate_cache_key, cache_manager.doc_hash.
  pose proof (encode_cases
                (cache_manager.key_data text engine_name config_hash)) as He.
  assert (Hex : existsb is_surrogate
                  (cache_manager.key_data text engine_name config_hash)
                = existsb is_surrogate (text ++ engine_name ++ config_hash)).
  { unfold cache_manager.key_data. rewrite !existsb_app.
    change (existsb is_surrogate (str "|")) with false.
    by rewrite !orb_false_l. }
  rewrite Hex in He.
  destruct (existsb is_surrogate (text ++ engine_name ++ config_hash)).
  - destruct He as [msg ->]. by eexists.
  - destruct He as [bytes ->]. cbn [bind ret].
    destruct (hexdigest_format bytes) as [Hlen Hhex].
    eexists. split; [reflexivity|]. split.
    + rewrite length_take, Hlen. done.
    + by apply forallb_take.
Qed.

Section hash_replace_facts.

Import strategies.

(** X18.  A hash replacement is the prefix followed by hexadecimal digits: as
    many as [truncate] says (at most the 64 of the digest), and all 64 when
    [truncate] is 0 or [None] ([if self.truncate:]). *)
Theorem hash_replace_format (h : HashReplacer) (entity : DetectedEntity)
    (replacement : pystr) :
  algorithm h = "sha256"%string ->
  hash_replace h entity = inr replacement ->
  exists digits,
    replacement = prefix h ++ digits
    /\ forallb is_hex digits = true
    /\ length digits
       = match truncate h with
         | Some (S n) => Nat.min (S n) 64
         | _ => 64
         end.
Proof.
  intros Halg. unfold hash_replace. rewrite Halg.
  destruct (encode (text entity ++ salt h)) as [x|data]; [done|].
  cbn [bind]. change (String.eqb "sha256" "sha256") with true. cbv iota.
  destruct (hexdigest_format data) as [Hlen Hhex].
  intros [= <-]. eexists. split; [reflexivity|].
  destruct (truncate h) as [[|n]|].
  - done.
  - split; [by apply forallb_take|]. by rewrite length_take, Hlen.
  - done.
Qed.

End hash_replace_facts.

(** [HashReplacer(truncate=0, salt="s")] on "Mario Rossi": the whole digest
    of "Mario Rossis". *)
Lemma hash_replace_format_witness :
  exists digits,
    str "HASH_a2626f79b6e970f96bf53387fe4b75a57cd747a4de45747ad6b72a2495b9fec3"
    = str "HASH_" ++ digits
    /\ forallb is_hex digits = true
    /\ length digits = 64.
Proof.
  apply (hash_replace_format
           {| strategies.algorithm := "sha256";
              strategies.truncate := Some 0;
              strategies.salt := str "s";
              strategies.prefix := str "HASH_" |}
           (person "Mario Rossi" 0)).
  - reflexivity.
  - vm_compute. reflexivity.
Defined.

(** ** The orchestrator: failures and missing parts *)

Section process_document_outcomes.

Context {U : UnicodeDB}.

Import orchestrator.

(** X19.  On an initialized orchestrator [process_document] never raises.  It
    returns a result for the text it was given, with the document context
    in its metadata; a result that reports a failure carries the original
    text, unchanged, as its anonymized text, no entities, and the message
    of the exception.  Of the orchestrator only the replacement strategy
    may have changed. *)
Theorem process_document_never_raises (o : PipelineOrchestrator)
    (text : pystr) (md : option dict) :
  initialized o = true ->
  exists r o',
    process_document text md o = (inr r, o')
    /\ original_text r = text
    /\ is_Some (dict_get (result_metadata r) "document_context")
    /\ (success r = false ->
        anonymized_text r = text /\ entities r = []
        /\ is_Some (error_message r))
    /\ config o' = config o
    /\ primary_engine o' = primary_engine o
    /\ filter_chain o' = filter_chain o
    /\ initialized o' = true.
Proof.
  intros Hinit. unfold process_document, mthen.
  rewrite (initialize_initialized o Hinit).
  unfold try_except, process_document_try, mthen, lift, mreturn, ret.
  cbn beta iota.
  assert (Hmd : forall m c,
             is_Some (dict_get (with_document_context m c)
                        "document_context")).
  { intros m c. unfold with_document_context.
    rewrite dict_get_set_eq. by eexists. }
  destruct (filters.apply (filter_chain o) text None) as [e|x].
  { eexists _, _. split; [reflexivity|]. simpl. by repeat split. }
  destruct (match primary_engine o with
            | Some e => detect_entities e x.1
            | None => inr []
            end) as [e|detected].
  { eexists _, _. split; [reflexivity|]. simpl. by repeat split. }
  destruct (filters.apply (filter_chain o) x.1 (Some detected)) as [e|y].
  { eexists _, _. split; [reflexivity|]. simpl. by repeat split. }
  destruct (default [] y.2) as [|e0 fes].
  { eexists _, _. split; [reflexivity|]. simpl. by repeat split. }
  unfold strategy_replace_all.
  destruct (replacement_strategy o) as [s|].
  2:{ eexists _, _. split; [reflexivity|]. simpl. by repeat split. }
  destruct (strategies.replace_all s x.1 (e0 :: fes)) as [[e|out] s'].
  - eexists _, _. split; [reflexivity|]. simpl. by repeat split.
  - eexists _, _. split; [reflexivity|]. simpl. by repeat split.
Qed.

(** X20.  A strategy name the factory does not know (the configuration's own
    comment suggests 'redact') makes [initialize] raise [ValueError];
    [process_document] on the new orchestrator then raises too, instead of
    returning a failed result, and leaves the orchestrator
    uninitialized. *)
Theorem process_document_raises_on_unknown_strategy
    (cfg : config.PrivacyConfig) (presidio : option Engine)
    (text : pystr) (md : option dict) :
  let name := config.default_strategy (config.replacement cfg) in
  name <> "deterministic"%string -> name <> "synthetic"%string ->
  name <> "redaction"%string -> name <> "hash"%string ->
  exists msg o',
    process_document text md (init cfg presidio)
    = (inl (ValueError msg), o')
    /\ initialized o' = false.
Proof.
  intros name H1%String.eqb_neq H2%String.eqb_neq H3%String.eqb_neq
         H4%String.eqb_neq.
  unfold process_document, mthen, initialize. cbn [init initialized].
  unfold mthen, _setup_filters, set_filter_chain.
  cbn [config init].
  unfold _setup_replacement_strategy. cbn [config].
  fold name.
  unfold strategies.create_consistent_strategy, strategies.create_strategy.
  rewrite H1, H2, H3, H4. cbn [bind raise].
  destruct (config.consistent_replacement (config.replacement cfg));
    eexists _, _; split; reflexivity.
Qed.

End process_document_outcomes.

Lemma process_document_never_raises_witness :
  exists r o',
    orchestrator.process_document (U := latin1) (str S2_text) None
      (orchestrator_with S2_engine) = (inr r, o')
    /\ original_text r = str S2_text
    /\ is_Some (dict_get (result_metadata r) "document_context")
    /\ (success r = false ->
        anonymized_text r = str S2_text /\ entities r = []
        /\ is_Some (error_message r))
    /\ orchestrator.config o'
       = orchestrator.config (orchestrator_with S2_engine)
    /\ orchestrator.primary_engine o'
       = orchestrator.primary_engine (orchestrator_with S2_engine)
    /\ orchestrator.filter_chain o'
       = orchestrator.filter_chain (orchestrator_with S2_engine)
    /\ orchestrator.initialized o' = true.
Proof.
  apply (process_document_never_raises (U := latin1)). reflexivity.
Defined.

(** The default configuration with the strategy name 'redact'. *)
Definition redact_config : config.PrivacyConfig :=
  {| config.filters := config.default_filters;
     config.replacement :=
       {| config.default_strategy := "redact";
          config.consistent_replacement := true;
          config.deterministic_format := strategies.deterministic_default;
          config.synthetic_locale := fun _ e => text e;
          config.synthetic_seed := None;
          config.redaction_format := strategies.redaction_default;
          config.hash_algorithm := "sha256";
          config.hash_salt := None |};
     config.max_concurrent_jobs := 10 |}.

Lemma process_document_raises_on_unknown_strategy_witness :
  exists msg o',
    orchestrator.process_document (U := latin1) (str "Mario Rossi") None
      (orchestrator.init redact_config None)
    = (inl (ValueError msg), o')
    /\ orchestrator.initialized o' = false.
Proof.
  apply (process_document_raises_on_unknown_strategy (U := latin1)
           redact_config None (str "Mario Rossi") None); discriminate.
Defined.

(** ** The counts of a batch *)

Section batch_counts.

Context {U : UnicodeDB}.

Import orchestrator.

(** The document has the keys ['text'] and ['document_id']. *)
Definition is_complete (doc : Document) : bool :=
  match doc_getitem doc "text", doc_getitem doc "document_id" with
  | inr _, inr _ => true
  | _, _ => false
  end.

(** The outcome is a value, not an exception. *)
Definition is_returned {A} (r : result A) : bool :=
  match r with inr _ => true | inl _ => false end.

(** The task of a document raises exactly when one of the keys is
    missing. *)
Lemma process_with_semaphore_outcome (o : PipelineOrchestrator)
    (doc : Document) :
  initialized o = true ->
  exists r o',
    process_with_semaphore doc o = (r, o')
    /\ initialized o' = true
    /\ is_returned r = is_complete doc.
Proof.
  intros Hinit. unfold process_with_semaphore, is_complete, mthen, lift.
  destruct (doc_getitem doc "text") as [e|text]; [by eauto|].
  destruct (doc_getitem doc "document_id") as [e|id]; [by eauto|].
  destruct (process_document_total o text (doc_metadata doc) Hinit)
    as (pr & o' & -> & Hinit' & _).
  by eauto.
Qed.

Lemma gather_run_returned (fuel : nat) :
  forall (choices : list nat) (pending : list (nat * Document))
         (o : PipelineOrchestrator),
    initialized o = true ->
    length pending <= fuel ->
    exists rs o',
      gather_run fuel choices pending o = (rs, o')
      /\ initialized o' = true
      /\ rs.*1 ≡ₚ pending.*1
      /\ Forall (fun ir =>
                   exists doc,
                     (ir.1, doc) ∈ pending
                     /\ is_returned ir.2 = is_complete doc) rs.
Proof.
  induction fuel as [|fuel IH]; intros choices pending o Hinit Hlen.
  - destruct pending; [|simpl in Hlen; lia].
    exists [], o. simpl. by repeat split.
  - simpl.
    destruct pending as [|p0 pending0] eqn:Hp.
    { exists [], o. simpl. by repeat split. }
    rewrite <- Hp in *.
    assert (Hk : hd 0 choices mod length pending < length pending).
    { apply Nat.mod_upper_bound. rewrite Hp. simpl. lia. }
    destruct (lookup_lt_is_Some_2 _ _ Hk) as [[i doc] Hlook].
    rewrite Hlook.
    destruct (process_with_semaphore_outcome o doc Hinit)
      as (r & o1 & Hrun & Hinit1 & Hr).
    rewrite Hrun.
    pose proof (delete_Permutation _ _ _ Hlook) as Hperm.
    destruct (IH (tl choices)
                (delete (hd 0 choices mod length pending) pending) o1)
      as (rs & o2 & Hrest & Hinit2 & Hidx & Hall).
    + exact Hinit1.
    + apply Permutation_length in Hperm. simpl in Hperm. lia.
    + rewrite Hrest. exists ((i, r) :: rs), o2.
      split; [done|]. split; [done|]. split.
      * rewrite Hperm. simpl. by rewrite Hidx.
      * apply Forall_cons. split.
        -- exists doc. simpl. split; [|done].
           eapply list_elem_of_lookup_2, Hlook.
        -- rewrite Forall_forall in *. intros x Hx.
           destruct (Hall x Hx) as (d & Hin & Heq).
           exists d. split; [|done].
           rewrite Hperm. apply elem_of_cons. by right.
Qed.

(** [gather] gives one outcome per document, an exception exactly at the
    documents with a missing key. *)
Lemma gather_returned (choices : list nat) (documents : list Document)
    (o : PipelineOrchestrator) :
  initialized o = true ->
  exists gathered o',
    gather choices documents o = (gathered, o')
    /\ initialized o' = true
    /\ is_returned <$> gathered = is_complete <$> documents.
Proof.
  intros Hinit. unfold gather.
  set (n := length documents).
  set (pending := zip (seq 0 n) documents).
  assert (Hfst : pending.*1 = seq 0 n).
  { apply fst_zip. rewrite length_seq. done. }
  assert (Hpend : forall i doc,
             (i, doc) ∈ pending -> documents !! i = Some doc).
  { intros i doc Hin. apply list_elem_of_lookup in Hin as [k Hk].
    apply lookup_zip_with_Some in Hk as (x & y & [= <- <-] & Hx & Hy).
    apply lookup_seq in Hx as [-> _]. done. }
  destruct (gather_run_returned n choices pending o Hinit)
    as (rs & o' & Hrun & Hinit' & Hperm & Hall).
  { unfold pending. rewrite length_zip, length_seq. lia. }
  rewrite Hrun. eexists _, _. split; [reflexivity|]. split; [done|].
  rewrite Hfst in Hperm.
  assert (Hnd : NoDup rs.*1) by (rewrite Hperm; apply NoDup_seq).
  assert (Hg : Forall2 (fun i g =>
                          exists doc, documents !! i = Some doc
                                      /\ is_returned g = is_complete doc)
                 (seq 0 n) (omap (outcome_of rs) (seq 0 n))).
  { apply omap_all. intros i Hi.
    rewrite <- Hperm in Hi.
    apply list_elem_of_fmap in Hi as ([j g] & -> & Hin).
    simpl. exists g. split; [by apply outcome_of_elem|].
    rewrite Forall_forall in Hall.
    destruct (Hall _ Hin) as (doc & Hdoc & Hr). simpl in *.
    exists doc. split; [by apply Hpend|done]. }
  pose proof (Forall2_length _ _ _ Hg) as Hlen. rewrite length_seq in Hlen.
  apply list_eq_same_length with n;
    [by rewrite length_fmap|by rewrite length_fmap|].
  intros i x y Hi Hx Hy.
  rewrite list_lookup_fmap in Hx. rewrite list_lookup_fmap in Hy.
  destruct (omap (outcome_of rs) (seq 0 n) !! i) as [g|] eqn:Hgi; [|done].
  destruct (documents !! i) as [doc|] eqn:Hdi; [|done].
  simpl in Hx, Hy. injection Hx as <-. injection Hy as <-.
  destruct (Forall2_lookup_r _ _ _ i g Hg Hgi) as (j & Hj & d & Hd & Hr).
  apply lookup_seq in Hj as [-> _]. simpl in Hd.
  rewrite Hdi in Hd. by injection Hd as <-.
Qed.

(** What the loop over the gathered outcomes counts. *)
Lemma collect_counts (gathered : list (result PipelineResult)) :
  let '(all_results, successful_count, failed_count) := collect gathered in
  successful_count + failed_count = length gathered
  /\ length all_results = length (List.filter id (is_returned <$> gathered))
  /\ successful_count = length (List.filter success all_results).
Proof.
  induction gathered as [|[e|r] gathered IH]; simpl; [done| |];
    destruct (collect gathered) as [[all_results sc] fc];
    destruct IH as (H1 & H2 & H3).
  - split; [lia|]. split; [exact H2|exact H3].
  - change (list_fmap _ _ is_returned gathered)
      with (is_returned <$> gathered).
    destruct (success r) eqn:Hs; simpl; rewrite ?Hs; simpl;
      repeat split; lia.
Qed.

(** X21.  On an initialized orchestrator and with a semaphore that admits a task,
    [process_batch] returns for any documents, whatever the order in which
    they complete.  Every document is counted once, as successful or as
    failed; the results list holds one entry for each document that has
    the keys 'text' and 'document_id' and none for the others; the
    successful count is the number of results that report success. *)
Theorem process_batch_counts (o : PipelineOrchestrator)
    (documents : list Document) (max_concurrent : option Z)
    (choices : list nat) :
  initialized o = true ->
  (0 < effective_max_concurrent (config o) max_concurrent)%Z ->
  exists batch o',
    process_batch documents max_concurrent choices o = (Returns batch, o')
    /\ total_documents batch = length documents
    /\ successful batch + failed batch = length documents
    /\ length (results batch) = length (List.filter is_complete documents)
    /\ successful batch = length (List.filter success (results batch))
    /\ initialized o' = true.
Proof.
  intros Hinit Hmc. unfold process_batch.
  rewrite (initialize_initialized o Hinit).
  destruct (effective_max_concurrent (config o) max_concurrent <? 0)%Z
    eqn:Hneg; [apply Z.ltb_lt in Hneg; lia|].
  destruct (effective_max_concurrent (config o) max_concurrent =? 0)%Z
    eqn:Hzero; [apply Z.eqb_eq in Hzero; lia|].
  simpl.
  destruct (gather_returned choices documents o Hinit)
    as (gathered & o' & -> & Hinit' & Hg).
  pose proof (collect_counts gathered) as Hc.
  destruct (collect gathered) as [[all_results sc] fc].
  destruct Hc as (H1 & H2 & H3).
  eexists _, _. split; [reflexivity|]. simpl.
  assert (Hlen : length gathered = length documents).
  { by rewrite <- (length_fmap is_returned), Hg, length_fmap. }
  repeat split; try done; try lia.
  rewrite H2, Hg. clear.
  induction documents as [|d l IH]; [done|].
  rewrite fmap_cons. cbn [List.filter]. unfold id at 1.
  destruct (is_complete d); simpl; by rewrite IH.
Qed.

End batch_counts.

Lemma process_batch_counts_witness :
  exists batch o',
    orchestrator.process_batch (U := latin1) incomplete_batch None []
      (orchestrator_with (mock_engine []))
    = (orchestrator.Returns batch, o')
    /\ orchestrator.total_documents batch = length incomplete_batch
    /\ orchestrator.successful batch + orchestrator.failed batch
       = length incomplete_batch
    /\ length (orchestrator.results batch)
       = length (List.filter is_complete incomplete_batch)
    /\ orchestrator.successful batch
       = length (List.filter success (orchestrator.results batch))
    /\ orchestrator.initialized o' = true.
Proof.
  apply (process_batch_counts (U := latin1)
           (orchestrator_with (mock_engine [])) incomplete_batch None []);
    vm_compute; reflexivity.
Defined.

(** ** An orchestrator without an engine *)

Section without_engine.

Context {U : UnicodeDB}.

Import orchestrator.

(** X22.  When the engine could not be built, [initialize] still succeeds, and
    every document is then processed with success: no entity is found, the
    anonymized text is the input after the text filter the configuration
    asks for, and the orchestrator is left as it was. *)
Theorem process_document_without_engine (cfg : config.PrivacyConfig)
    (o : PipelineOrchestrator) (text : pystr) (md : option dict) :
  initialize (init cfg None) = (inr tt, o) ->
  exists r,
    process_document text md o = (inr r, o)
    /\ success r = true
    /\ entities r = []
    /\ original_text r = text
    /\ anonymized_text r
       = if config.normalize_text (config.filters cfg)
         then filters.normalize_text text
                (config.lowercase (config.filters cfg))
                (config.remove_extra_whitespace (config.filters cfg))
                (config.normalize_unicode (config.filters cfg)) true
         else text.
Proof.
  unfold initialize. cbn [init initialized].
  unfold mthen at 1. unfold _setup_filters, set_filter_chain.
  cbn [config init presidio primary_engine filter_chain replacement_strategy
       initialized].
  unfold mthen at 1. unfold _setup_replacement_strategy.
  cbn [config init presidio primary_engine filter_chain replacement_strategy
       initialized].
  match goal with
  | |- context [match (if ?b then ?x else ?y) with _ => _ end] =>
      destruct (if b then x else y) as [e|s]
  end; [discriminate|].
  unfold set_replacement_strategy, mthen, _load_engines, set_primary_engine,
    set_initialized.
  cbn [config init presidio primary_engine filter_chain replacement_strategy
       initialized ret].
  intros [= <-].
  unfold process_document, mthen, initialize. cbn [initialized].
  unfold try_except, process_document_try, mthen, lift, mreturn, ret.
  cbn [filter_chain primary_engine].
  destruct (config.normalize_text (config.filters cfg));
    destruct (config.validate_entities (config.filters cfg));
    destruct (config.sensitivity_scoring (config.filters cfg));
    destruct (config.legal_pattern_matching (config.filters cfg));
    unfold filters.apply, filters.apply_text_filters,
      filters.apply_entity_filters, filters.add_text_filter,
      filters.add_entity_filter, filters.add_context_filter,
      filters.empty_chain;
    cbn [filters.text_filters filters.entity_filters filters.context_filters
         app filters.run_filters bind ret fst snd map
         filters.validate_entities filters.sensitivity_scorer default];
    try (eexists; split; [reflexivity|]; by repeat split).
  all: match goal with
       | |- context [match ?t with [] => _ | _ :: _ => _ end] =>
           destruct t eqn:Ht
       end;
    cbn [filters.run_filters bind ret fst snd map default
         filters.legal_pattern_matcher];
    try (eexists; split; [reflexivity|]; by repeat split).
Qed.

End without_engine.

Lemma process_document_without_engine_witness :
  exists r,
    orchestrator.process_document (U := latin1) (str S2_text) None
      (orchestrator.initialize (U := latin1)
         (orchestrator.init (config.default_config (fun _ e => text e))
            None)).2
    = (inr r,
       (orchestrator.initialize (U := latin1)
          (orchestrator.init (config.default_config (fun _ e => text e))
             None)).2)
    /\ success r = true
    /\ entities r = []
    /\ original_text r = str S2_text
    /\ anonymized_text r
       = filters.normalize_text (U := latin1) (str S2_text) false true true
           true.
Proof.
  apply (process_document_without_engine (U := latin1)
           (config.default_config (fun _ e => text e))).
  reflexivity.
Defined.

(** ** The L1 cache *)

Section lru_facts.

Import cachetools.

Context {V : Type}.
Implicit Types (items : list (pystr * V)) (c : LRUCache V).

Lemma contains_elem c (key : pystr) :
  contains c key = true <-> key ∈ (cachetools.items c).*1.
Proof.
  unfold contains. rewrite existsb_exists, list_elem_of_fmap.
  split.
  - intros ([k v] & Hin%list_elem_of_In & Hk%bool_decide_eq_true).
    by exists (k, v).
  - intros ([k v] & -> & Hin). exists (k, v).
    split; [by apply list_elem_of_In|by apply bool_decide_eq_true].
Qed.

Lemma elem_without (key k : pystr) items :
  k ∈ (without key items).*1 <-> k ∈ items.*1 /\ k <> key.
Proof.
  unfold without. rewrite !list_elem_of_fmap. split.
  - intros ([k' v] & -> & Hin%list_elem_of_In%filter_In).
    destruct Hin as [Hin Hk]. simpl in *.
    apply negb_true_iff, bool_decide_eq_false in Hk.
    split; [|done]. exists (k', v). split; [done|by apply list_elem_of_In].
  - intros [([k' v] & -> & Hin) Hk]. exists (k', v). split; [done|].
    apply list_elem_of_In, filter_In. split; [by apply list_elem_of_In|].
    simpl. by apply negb_true_iff, bool_decide_eq_false.
Qed.

Lemma without_absent (key : pystr) items :
  key ∉ items.*1 -> without key items = items.
Proof.
  induction items as [|[k v] items IH]; simpl; [done|].
  rewrite not_elem_of_cons. intros [Hk Hin].
  rewrite bool_decide_eq_false_2 by done. simpl. by rewrite IH.
Qed.

Lemma without_NoDup (key : pystr) items :
  NoDup items.*1 -> NoDup (without key items).*1.
Proof.
  induction items as [|[k v] items IH]; simpl; [done|].
  rewrite NoDup_cons. intros [Hk Hnd].
  destruct (bool_decide (k = key)); simpl; [by apply IH|].
  apply NoDup_cons. split; [|by apply IH].
  rewrite elem_without. by intros [? _].
Qed.

Lemma without_length (key : pystr) items :
  NoDup items.*1 -> key ∈ items.*1 ->
  S (length (without key items)) = length items.
Proof.
  induction items as [|[k v] items IH]; simpl.
  - intros _ Hin. by apply not_elem_of_nil in Hin.
  - rewrite NoDup_cons. intros [Hk Hnd] Hin.
    destruct (decide (k = key)) as [->|Hne].
    + rewrite bool_decide_eq_true_2 by done. simpl.
      by rewrite without_absent.
    + rewrite bool_decide_eq_false_2 by done. simpl.
      apply elem_of_cons in Hin as [Heq|Hin]; [by subst|].
      by rewrite IH.
Qed.

Lemma find_elem items (key : pystr) :
  key ∈ items.*1 -> is_Some (find items key).
Proof.
  induction items as [|[k v] items IH]; simpl.
  - intros Hin. by apply not_elem_of_nil in Hin.
  - intros Hin. destruct (decide (k = key)) as [->|Hne].
    + rewrite bool_decide_eq_true_2 by done. by eexists.
    + rewrite bool_decide_eq_false_2 by done.
      apply elem_of_cons in Hin as [Heq|Hin]; [by subst|]. by apply IH.
Qed.

Lemma find_absent items (key : pystr) :
  key ∉ items.*1 -> find items key = None.
Proof.
  induction items as [|[k v] items IH]; simpl; [done|].
  rewrite not_elem_of_cons. intros [Hk Hin].
  rewrite bool_decide_eq_false_2 by done. by apply IH.
Qed.

Lemma find_app_last items (key : pystr) (v : V) :
  key ∉ items.*1 -> find (items ++ [(key, v)]) key = Some v.
Proof.
  induction items as [|[k w] items IH]; simpl.
  - intros _. by rewrite bool_decide_eq_true_2.
  - rewrite not_elem_of_cons. intros [Hk Hin].
    rewrite bool_decide_eq_false_2 by done. by apply IH.
Qed.

(** What is left after making room are the most recently used items, one
    fewer than the cache can hold. *)
Lemma make_room_drop (m : Z) items :
  (1 <= m)%Z ->
  make_room m items = drop (S (length items) - Z.to_nat m) items.
Proof.
  intros Hm. induction items as [|kv items IH]; [by rewrite drop_nil|].
  cbn [make_room].
  destruct (m <? Z.of_nat (length (kv :: items)) + 1)%Z eqn:Hlt.
  - apply Z.ltb_lt in Hlt. rewrite IH. simpl length in *.
    replace (S (S (length items)) - Z.to_nat m)
      with (S (S (length items) - Z.to_nat m)) by lia.
    done.
  - apply Z.ltb_ge in Hlt. simpl length in *.
    replace (S (S (length items)) - Z.to_nat m) with 0 by lia.
    done.
Qed.

End lru_facts.

Section memory_cache_facts.

Import cachetools cache_manager.

#[local] Open Scope Z_scope.

(** A [set] returns when the cache has room for a value and the expiry is
    a date. *)
Lemma expiry_date (now ttl : Z) :
  0 <= now <= datetime_max ->
  0 <= now + 1000000 * ttl <= datetime_max ->
  timedelta ttl = inr (ttl * 1000000)
  /\ datetime_add now (ttl * 1000000) = inr (now + 1000000 * ttl).
Proof.
  unfold datetime_max. intros Hnow Hexp. unfold timedelta, datetime_add.
  assert (-3652059 <= ttl / 86400 <= 3652059).
  { split.
    - apply Z.div_le_lower_bound; lia.
    - apply Z.div_le_upper_bound; lia. }
  rewrite (proj2 (Z.ltb_ge _ _)) by lia.
  rewrite (proj2 (Z.ltb_ge _ _)) by lia.
  cbn [orb]. split; [done|].
  unfold datetime_max.
  rewrite (proj2 (Z.ltb_ge _ _)) by lia.
  rewrite (proj2 (Z.ltb_ge _ _)) by lia.
  cbn [orb]. f_equal. lia.
Qed.

(** When [set] returns, the key is in the cache with the date of the
    expiry. *)
Lemma MemoryCache_set_returned (now : Z) (key : pystr) (value : dict)
    (ttl : Z) (c c1 : MemoryCache) :
  MemoryCache_set now key value ttl c = (inr tt, c1) ->
  key ∈ (items (cache c1)).*1
  /\ find (items (cache c1)) key = Some value
  /\ expiry c1 !! key = Some (now + 1000000 * ttl).
Proof.
  unfold MemoryCache_set, setitem.
  destruct (maxsize (cache c) <? 1); [done|].
  unfold timedelta.
  destruct ((ttl / 86400 <? -999999999) || (999999999 <? ttl / 86400));
    [done|].
  unfold datetime_add.
  destruct ((now + ttl * 1000000 <? 0)
            || (datetime_max <? now + ttl * 1000000)); [done|].
  intros [= <-]. cbn [cache expiry items].
  assert (Hkept : key ∉ (if contains (cache c) key
                         then without key (items (cache c))
                         else make_room (maxsize (cache c))
                                (items (cache c))).*1).
  { destruct (contains (cache c) key) eqn:Hc.
    - rewrite elem_without. by intros [_ ?].
    - intros Hin. apply not_true_iff_false in Hc. apply Hc.
      apply contains_elem.
      destruct (decide (1 <= maxsize (cache c))) as [Hm|Hm].
      + rewrite make_room_drop in Hin by done.
        apply list_elem_of_fmap in Hin as (kv & -> & Hin).
        apply list_elem_of_fmap. exists kv. split; [done|].
        apply list_elem_of_lookup in Hin as [i Hi].
        rewrite lookup_drop in Hi. by eapply list_elem_of_lookup_2.
      + revert Hin. generalize (items (cache c)).
        induction l as [|kv l IH]; [done|]. cbn [make_room].
        rewrite (proj2 (Z.ltb_lt _ _)) by lia. intros Hin.
        rewrite fmap_cons. apply elem_of_cons. right. by apply IH. }
  split; [|split].
  - rewrite fmap_app. apply elem_of_app. right. simpl. apply elem_of_cons.
    by left.
  - by apply find_app_last.
  - rewrite lookup_insert_eq. f_equal. lia.
Qed.

End memory_cache_facts.

Section lru_operations.

Import cachetools.

Context {V : Type}.
Implicit Types (c : LRUCache V).

Lemma find_Some_elem (l : list (pystr * V)) (key : pystr) (v : V) :
  find l key = Some v -> key ∈ l.*1.
Proof.
  induction l as [|[k w] l IH]; simpl; [done|].
  destruct (decide (k = key)) as [->|Hne].
  - intros _. apply elem_of_cons. by left.
  - rewrite bool_decide_eq_false_2 by done. intros H.
    apply elem_of_cons. right. by apply IH.
Qed.

Lemma make_room_elem (m : Z) (l : list (pystr * V)) (k : pystr) :
  k ∈ (make_room m l).*1 -> k ∈ l.*1.
Proof.
  induction l as [|kv l IH]; [done|]. cbn [make_room].
  destruct (m <? Z.of_nat (length (kv :: l)) + 1)%Z; [|done].
  intros Hin. rewrite fmap_cons. apply elem_of_cons. right. by apply IH.
Qed.

Lemma make_room_NoDup (m : Z) (l : list (pystr * V)) :
  NoDup l.*1 -> NoDup (make_room m l).*1.
Proof.
  induction l as [|kv l IH]; [done|]. cbn [make_room].
  destruct (m <? Z.of_nat (length (kv :: l)) + 1)%Z; [|done].
  rewrite fmap_cons, NoDup_cons. intros [_ Hnd]. by apply IH.
Qed.

Lemma make_room_length (m : Z) (l : list (pystr * V)) :
  (1 <= m)%Z ->
  length (make_room m l) = Nat.min (length l) (Z.to_nat m - 1).
Proof.
  intros Hm. rewrite make_room_drop by done. rewrite length_drop. lia.
Qed.

(** The keys of the cache after an operation on [key]: only [key] can be
    new. *)
Lemma setitem_keys c (key : pystr) (v : V) (k : pystr) :
  k ∈ (items (setitem c key v).2).*1 -> k ∈ (items c).*1 \/ k = key.
Proof.
  unfold setitem. destruct (maxsize c <? 1)%Z; [by left|].
  cbn [snd items]. rewrite fmap_app, elem_of_app.
  intros [Hin|Hin].
  - left. destruct (contains c key).
    + by apply elem_without in Hin as [? _].
    + by eapply make_room_elem.
  - right. simpl in Hin. by apply list_elem_of_singleton in Hin.
Qed.

Lemma getitem_keys c (key k : pystr) :
  k ∈ (items (getitem c key).2).*1 -> k ∈ (items c).*1.
Proof.
  unfold getitem. destruct (find (items c) key) as [v|] eqn:Hf; [|done].
  cbn [snd items]. rewrite fmap_app, elem_of_app.
  intros [Hin|Hin].
  - by apply elem_without in Hin as [? _].
  - simpl in Hin. apply list_elem_of_singleton in Hin as ->.
    by eapply find_Some_elem.
Qed.

Lemma delitem_keys c (key k : pystr) :
  k ∈ (items (delitem c key).2).*1 -> k ∈ (items c).*1.
Proof.
  unfold delitem. destruct (contains c key); [|done].
  cbn [snd items]. by intros [? _]%elem_without.
Qed.

(** No operation lets the cache outgrow [maxsize], or hold a key twice. *)
Definition bounded c : Prop :=
  NoDup (items c).*1 /\ (Z.of_nat (len c) <= Z.max 0 (maxsize c))%Z.

Lemma setitem_bounded c (key : pystr) (v : V) :
  bounded c -> bounded (setitem c key v).2.
Proof.
  intros [Hnd Hlen]. unfold setitem.
  destruct (maxsize c <? 1)%Z eqn:Hm; [done|].
  apply Z.ltb_ge in Hm. unfold bounded, len in *. cbn [snd items maxsize].
  destruct (contains c key) eqn:Hc.
  - apply contains_elem in Hc.
    pose proof (without_length key _ Hnd Hc) as Hl.
    split.
    + rewrite fmap_app. apply NoDup_app. split; [by apply without_NoDup|].
      split; [|apply NoDup_singleton].
      intros k Hk Hk'. simpl in Hk'.
      apply list_elem_of_singleton in Hk' as ->.
      by apply elem_without in Hk as [_ ?].
    + rewrite length_app. simpl. lia.
  - split.
    + rewrite fmap_app. apply NoDup_app.
      split; [by apply make_room_NoDup|].
      split; [|apply NoDup_singleton].
      intros k Hk Hk'. simpl in Hk'.
      apply list_elem_of_singleton in Hk' as ->.
      apply make_room_elem, contains_elem in Hk. congruence.
    + rewrite length_app, make_room_length by done. simpl. lia.
Qed.

Lemma getitem_bounded c (key : pystr) :
  bounded c -> bounded (getitem c key).2.
Proof.
  intros [Hnd Hlen]. unfold getitem.
  destruct (find (items c) key) as [v|] eqn:Hf; [|done].
  apply find_Some_elem in Hf.
  pose proof (without_length key _ Hnd Hf) as Hl.
  unfold bounded, len in *. cbn [snd items maxsize]. split.
  - rewrite fmap_app. apply NoDup_app. split; [by apply without_NoDup|].
    split; [|apply NoDup_singleton].
    intros k Hk Hk'. simpl in Hk'.
    apply list_elem_of_singleton in Hk' as ->.
    by apply elem_without in Hk as [_ ?].
  - rewrite length_app. simpl. lia.
Qed.

Lemma delitem_bounded c (key : pystr) :
  bounded c -> bounded (delitem c key).2.
Proof.
  intros [Hnd Hlen]. unfold delitem.
  destruct (contains c key) eqn:Hc; [|done].
  apply contains_elem in Hc.
  pose proof (without_length key _ Hnd Hc) as Hl.
  unfold bounded, len in *. cbn [snd items maxsize].
  split; [by apply without_NoDup|lia].
Qed.

End lru_operations.

(** The calls of the L1 cache, each with the reading of the clock it
    makes. *)
Inductive call : Type :=
| call_get (now : Z) (key : pystr)
| call_set (now : Z) (key : pystr) (value : dict) (ttl_seconds : Z)
| call_invalidate (key : pystr)
| call_clear.

(** The cache after a call, whether it returned or raised. *)
Definition perform (c : cache_manager.MemoryCache) (op : call)
    : cache_manager.MemoryCache :=
  match op with
  | call_get now key => (cache_manager.MemoryCache_get now key c).2
  | call_set now key value ttl_seconds =>
      (cache_manager.MemoryCache_set now key value ttl_seconds c).2
  | call_invalidate key => (cache_manager.MemoryCache_invalidate key c).2
  | call_clear => cache_manager.MemoryCache_clear c
  end.

Definition after_calls (ops : list call) (c : cache_manager.MemoryCache)
    : cache_manager.MemoryCache :=
  fold_left perform ops c.

(** The call is not a [set] of [key]. *)
Definition leaves (key : pystr) (op : call) : Prop :=
  match op with
  | call_set _ k _ _ => k <> key
  | _ => True
  end.

Section memory_cache_ttl.

Import cachetools cache_manager.

#[local] Open Scope Z_scope.

(** While [key] is in the cache, its expiry is [e]. *)
Definition expires_at (key : pystr) (e : Z) (c : MemoryCache) : Prop :=
  key ∈ (items (cache c)).*1 -> expiry c !! key = Some e.

Lemma MemoryCache_get_cache (now : Z) (key : pystr) (c : MemoryCache) :
  cache (MemoryCache_get now key c).2 = cache c
  \/ cache (MemoryCache_get now key c).2 = (getitem (cache c) key).2
  \/ cache (MemoryCache_get now key c).2 = (delitem (cache c) key).2.
Proof.
  unfold MemoryCache_get.
  destruct (negb (contains (cache c) key)); [by left|].
  destruct (match expiry c !! key with
            | Some t => t <? now
            | None => false
            end).
  - right. right. by destruct (delitem (cache c) key) as [[e|u] cache'].
  - right. left. by destruct (getitem (cache c) key) as [[e|u] cache'].
Qed.

Lemma MemoryCache_set_cache (now : Z) (key : pystr) (value : dict)
    (ttl : Z) (c : MemoryCache) :
  cache (MemoryCache_set now key value ttl c).2
  = (setitem (cache c) key value).2.
Proof.
  unfold MemoryCache_set.
  destruct (setitem (cache c) key value) as [[e|u] cache']; [done|].
  destruct (timedelta ttl) as [e|delta]; [done|].
  by destruct (datetime_add now delta) as [e|t].
Qed.

Lemma MemoryCache_invalidate_cache (key : pystr) (c : MemoryCache) :
  cache (MemoryCache_invalidate key c).2 = cache c
  \/ cache (MemoryCache_invalidate key c).2 = (delitem (cache c) key).2.
Proof.
  unfold MemoryCache_invalidate.
  destruct (contains (cache c) key); [|by left].
  right. by destruct (delitem (cache c) key) as [[e|u] cache'].
Qed.

Lemma perform_keys (c : MemoryCache) (op : call) (key : pystr) :
  leaves key op ->
  key ∈ (items (cache (perform c op))).*1 -> key ∈ (items (cache c)).*1.
Proof.
  destruct op as [now k|now k value ttl|k|]; simpl; intros Hop.
  - destruct (MemoryCache_get_cache now k c) as [->|[->| ->]]; [done| |].
    + apply getitem_keys.
    + apply delitem_keys.
  - rewrite MemoryCache_set_cache. intros Hin.
    by apply setitem_keys in Hin as [Hin|Heq].
  - destruct (MemoryCache_invalidate_cache k c) as [->| ->]; [done|].
    apply delitem_keys.
  - intros Hin. by apply not_elem_of_nil in Hin.
Qed.

Lemma perform_expires_at (c : MemoryCache) (op : call) (key : pystr)
    (e : Z) :
  leaves key op -> expires_at key e c -> expires_at key e (perform c op).
Proof.
  intros Hop Hc Hin. pose proof (perform_keys c op key Hop Hin) as Hin0.
  specialize (Hc Hin0). revert Hin.
  destruct op as [now k|now k value ttl|k|]; simpl in *.
  - unfold MemoryCache_get.
    destruct (negb (contains (cache c) k)); [done|].
    destruct (match expiry c !! k with
              | Some t => t <? now
              | None => false
              end).
    + unfold delitem. destruct (contains (cache c) k); [|done].
      cbn [snd cache expiry items]. intros [_ Hne]%elem_without.
      by rewrite lookup_delete_ne.
    + by destruct (getitem (cache c) k) as [[x|u] cache'].
  - unfold MemoryCache_set.
    destruct (setitem (cache c) k value) as [[x|u] cache']; [done|].
    destruct (timedelta ttl) as [x|delta]; [done|].
    destruct (datetime_add now delta) as [x|t]; [done|].
    cbn [snd expiry]. intros _. by rewrite lookup_insert_ne.
  - unfold MemoryCache_invalidate, delitem.
    destruct (contains (cache c) k) eqn:Hk.
    + cbn [snd cache expiry items]. intros [_ Hne]%elem_without.
      destruct (expiry c !! k); [|done]. by rewrite lookup_delete_ne.
    + cbn [snd cache expiry items]. intros _.
      assert (k <> key).
      { intros ->. apply not_true_iff_false in Hk. apply Hk.
        by apply contains_elem. }
      destruct (expiry c !! k); [|done]. by rewrite lookup_delete_ne.
  - intros Hin. by apply not_elem_of_nil in Hin.
Qed.

Lemma after_calls_expires_at (ops : list call) (c : MemoryCache)
    (key : pystr) (e : Z) :
  Forall (leaves key) ops -> expires_at key e c ->
  expires_at key e (after_calls ops c).
Proof.
  intros Hops. revert c.
  induction Hops as [|op ops Hop _ IH]; intros c Hc; [done|].
  simpl. apply IH. by apply perform_expires_at.
Qed.

(** A [get] of a key whose expiry has passed returns [None]. *)
Lemma MemoryCache_get_expired (later : Z) (key : pystr) (e : Z)
    (c : MemoryCache) :
  expires_at key e c -> e < later ->
  (MemoryCache_get later key c).1 = inr None.
Proof.
  intros Hc Hlt. unfold MemoryCache_get.
  destruct (contains (cache c) key) eqn:Hk; [|done].
  cbn [negb]. rewrite (Hc (proj1 (contains_elem _ _) Hk)).
  rewrite (proj2 (Z.ltb_lt _ _) Hlt).
  unfold delitem. by rewrite Hk.
Qed.

(** X23.  Once [set] has stored a value with a time to live, no [get] made after
    the expiry returns it, whatever was done with the cache in between, at
    whatever times, as long as the key was not set again. *)
Theorem memory_cache_expired_never_returned (c c1 : MemoryCache)
    (now : Z) (key : pystr) (value : dict) (ttl : Z) (ops : list call)
    (later : Z) :
  MemoryCache_set now key value ttl c = (inr tt, c1) ->
  Forall (leaves key) ops ->
  now + 1000000 * ttl < later ->
  (MemoryCache_get later key (after_calls ops c1)).1 = inr None.
Proof.
  intros Hset Hops Hlater.
  apply MemoryCache_set_returned in Hset as (_ & _ & He).
  apply MemoryCache_get_expired with (now + 1000000 * ttl); [|done].
  apply after_calls_expires_at; [done|]. by intros _.
Qed.

(** X24.  A cache with room for a value stores it, when the expiry is a date;
    a [get] then returns the value up to and at the instant of the expiry,
    and [None] after it. *)
Theorem memory_cache_set_then_get (c : MemoryCache) (now : Z)
    (key : pystr) (value : dict) (ttl : Z) :
  1 <= maxsize (cache c) ->
  0 <= now <= datetime_max ->
  0 <= now + 1000000 * ttl <= datetime_max ->
  exists c1,
    MemoryCache_set now key value ttl c = (inr tt, c1)
    /\ forall later,
         (MemoryCache_get later key c1).1
         = inr (if now + 1000000 * ttl <? later then None else Some value).
Proof.
  intros Hm Hnow Hexp.
  destruct (expiry_date now ttl Hnow Hexp) as [Hd Ha].
  assert (Hset : exists c1,
             MemoryCache_set now key value ttl c = (inr tt, c1)).
  { unfold MemoryCache_set, setitem.
    rewrite (proj2 (Z.ltb_ge _ _)) by lia.
    rewrite Hd, Ha. by eexists. }
  destruct Hset as [c1 Hset]. exists c1. split; [done|].
  apply MemoryCache_set_returned in Hset as (Hin & Hfind & He).
  intros later. unfold MemoryCache_get.
  rewrite (proj2 (contains_elem _ _) Hin). cbn [negb]. rewrite He.
  destruct (now + 1000000 * ttl <? later).
  - unfold delitem. by rewrite (proj2 (contains_elem _ _) Hin).
  - unfold getitem. by rewrite Hfind.
Qed.

(** X25.  Whatever calls are made on a new cache, it never holds more than
    [max_size] entries, nor a key twice. *)
Theorem memory_cache_capacity (max_size : Z) (ops : list call) :
  let c := after_calls ops (MemoryCache_init max_size) in
  Z.of_nat (len (cache c)) <= Z.max 0 max_size
  /\ NoDup (items (cache c)).*1.
Proof.
  cbv zeta.
  assert (H : forall c,
             bounded (cache c) ->
             bounded (cache (after_calls ops c))
             /\ maxsize (cache (after_calls ops c)) = maxsize (cache c)).
  { induction ops as [|op ops IH]; intros c Hc; [done|]. simpl.
    assert (Hop : bounded (cache (perform c op))
                  /\ maxsize (cache (perform c op)) = maxsize (cache c)).
    { destruct op as [now k|now k value ttl|k|]; simpl.
      - destruct (MemoryCache_get_cache now k c) as [->|[->| ->]].
        + done.
        + split; [by apply getitem_bounded|].
          unfold getitem. by destruct (find (items (cache c)) k).
        + split; [by apply delitem_bounded|].
          unfold delitem. by destruct (contains (cache c) k).
      - rewrite MemoryCache_set_cache.
        split; [by apply setitem_bounded|].
        unfold setitem. by destruct (maxsize (cache c) <? 1).
      - destruct (MemoryCache_invalidate_cache k c) as [->| ->]; [done|].
        split; [by apply delitem_bounded|].
        unfold delitem. by destruct (contains (cache c) k).
      - split; [|done]. split; [apply NoDup_nil_2|].
        unfold len. simpl. lia. }
    destruct Hop as [Hb Hm].
    destruct (IH _ Hb) as [Hb' Hm']. split; [done|congruence]. }
  destruct (H (MemoryCache_init max_size)) as [[Hnd Hlen] Hm].
  { split; [apply NoDup_nil_2|]. unfold len. simpl. lia. }
  rewrite Hm in Hlen. done.
Qed.

End memory_cache_ttl.

(** The key a [set] stores. *)
Definition stored_key (op : call) : option pystr :=
  match op with
  | call_set _ key _ _ => Some key
  | _ => None
  end.

(** A [set] made at a date, with an expiry that is a date. *)
Definition timely (op : call) : Prop :=
  match op with
  | call_set now _ _ ttl_seconds =>
      (0 <= now <= cachetools.datetime_max
       /\ 0 <= now + 1000000 * ttl_seconds <= cachetools.datetime_max)%Z
  | _ => False
  end.

Section memory_cache_expiry.

Import cachetools cache_manager.

Lemma after_sets (sets : list call) :
  forall c : MemoryCache,
    (1 <= maxsize (cache c))%Z ->
    len (cache c) <= Z.to_nat (maxsize (cache c)) ->
    Forall timely sets ->
    NoDup (omap stored_key sets) ->
    (forall k, k ∈ omap stored_key sets ->
               (k ∉ (items (cache c)).*1) /\ expiry c !! k = None) ->
    size (expiry (after_calls sets c)) = size (expiry c) + length sets
    /\ len (cache (after_calls sets c))
       = Nat.min (len (cache c) + length sets)
           (Z.to_nat (maxsize (cache c))).
Proof.
  induction sets as [|op sets IH]; intros c Hm Hlen Ht Hnd Hnew.
  { simpl. split; lia. }
  apply Forall_cons in Ht as [Hop Ht].
  destruct op as [|now k value ttl| |]; try done.
  destruct Hop as [Hnow Hexp].
  cbn [omap stored_key] in Hnd, Hnew. apply NoDup_cons in Hnd as [Hk Hnd].
  destruct (Hnew k) as [Hin He]; [apply elem_of_cons; by left|].
  destruct (expiry_date now ttl Hnow Hexp) as [Hd Ha].
  assert (Hc : contains (cache c) k = false).
  { apply not_true_iff_false. by rewrite contains_elem. }
  assert (Hset : perform c (call_set now k value ttl)
                 = {| cache :=
                        {| maxsize := maxsize (cache c);
                           items := make_room (maxsize (cache c))
                                      (items (cache c)) ++ [(k, value)] |};
                      expiry := <[k := (now + 1000000 * ttl)%Z]> (expiry c);
                      max_size := max_size c |}).
  { cbn [perform]. unfold MemoryCache_set, setitem.
    rewrite (proj2 (Z.ltb_ge _ _)) by lia. rewrite Hc, Hd, Ha. done. }
  change (after_calls (call_set now k value ttl :: sets) c)
    with (after_calls sets (perform c (call_set now k value ttl))).
  rewrite Hset.
  match goal with |- context [after_calls sets ?x] => set (c1 := x) end.
  assert (Hlen1 : len (cache c1)
                  = Nat.min (len (cache c) + 1)
                      (Z.to_nat (maxsize (cache c)))).
  { unfold c1, len. cbn [cache items].
    rewrite length_app, make_room_length by done. unfold len in Hlen.
    simpl. lia. }
  destruct (IH c1) as [Hs Hl].
  - done.
  - rewrite Hlen1. unfold c1. cbn [cache maxsize]. lia.
  - done.
  - done.
  - intros k' Hk'. unfold c1. cbn [cache items expiry].
    assert (k' <> k) by (intros ->; done).
    destruct (Hnew k') as [Hin' He']; [apply elem_of_cons; by right|].
    split.
    + rewrite fmap_app, elem_of_app. intros [H'|H'].
      * by apply make_room_elem in H'.
      * simpl in H'. by apply list_elem_of_singleton in H'.
    + by rewrite lookup_insert_ne.
  - rewrite Hs, Hl, Hlen1. unfold c1. cbn [cache maxsize expiry].
    rewrite map_size_insert_None by done. simpl length. split; lia.
Qed.

(** X26.  Keys stored in a new cache, each once: the cache keeps the [max_size]
    most recent ones, but the dict of the expiries keeps an entry for every
    key, evicted or not. *)
Theorem memory_cache_expiry_outgrows_cache (max_size : Z)
    (sets : list call) :
  (1 <= max_size)%Z ->
  Forall timely sets ->
  NoDup (omap stored_key sets) ->
  let c := after_calls sets (MemoryCache_init max_size) in
  size (expiry c) = length sets
  /\ len (cache c) = Nat.min (length sets) (Z.to_nat max_size).
Proof.
  intros Hm Ht Hnd. cbv zeta.
  destruct (after_sets sets (MemoryCache_init max_size)) as [Hs Hl];
    try done.
  - unfold len. simpl. lia.
  - intros k _. split; [apply not_elem_of_nil|apply lookup_empty].
Qed.

End memory_cache_expiry.

(** Three keys stored in a cache for two. *)
Definition three_sets : list call :=
  [ call_set 0 (str "k1") [] 60;
    call_set 1000000 (str "k2") [] 60;
    call_set 2000000 (str "k3") [] 60 ].

Lemma memory_cache_expiry_outgrows_cache_witness :
  size (cache_manager.expiry
          (after_calls three_sets (cache_manager.MemoryCache_init 2))) = 3
  /\ cachetools.len
       (cache_manager.cache
          (after_calls three_sets (cache_manager.MemoryCache_init 2))) = 2.
Proof.
  apply (memory_cache_expiry_outgrows_cache 2 three_sets).
  - lia.
  - repeat constructor; vm_compute; congruence.
  - apply (bool_decide_unpack _). vm_compute. reflexivity.
Defined.

Lemma memory_cache_expired_never_returned_witness :
  (cache_manager.MemoryCache_get 61000001 (str "k1")
     (after_calls
        [call_get 30000000 (str "k1"); call_set 30000000 (str "k2") [] 60;
         call_invalidate (str "k2")]
        (cache_manager.MemoryCache_set 1000000 (str "k1") [] 60
           (cache_manager.MemoryCache_init 2)).2)).1
  = inr None.
Proof.
  apply (memory_cache_expired_never_returned
           (cache_manager.MemoryCache_init 2) _ 1000000 (str "k1") [] 60).
  - vm_compute. reflexivity.
  - repeat constructor. simpl. discriminate.
  - lia.
Defined.

Lemma memory_cache_set_then_get_witness :
  exists c1,
    cache_manager.MemoryCache_set 1000000 (str "k1") [] 60
      (cache_manager.MemoryCache_init 2) = (inr tt, c1)
    /\ forall later,
         (cache_manager.MemoryCache_get later (str "k1") c1).1
         = inr (if (1000000 + 1000000 * 60 <? later)%Z
                then None else Some []).
Proof.
  apply (memory_cache_set_then_get (cache_manager.MemoryCache_init 2)
           1000000 (str "k1") [] 60).
  - simpl. lia.
  - unfold cachetools.datetime_max. lia.
  - unfold cachetools.datetime_max. lia.
Defined.

(** ** The entity counts of a result *)

Section entity_counts.

Lemma count_types_lookup (es : list DetectedEntity) :
  forall (counts : gmap EntityType nat) (t : EntityType),
    count_types counts es !! t
    = match List.filter (fun e => bool_decide (type e = t)) es with
      | [] => counts !! t
      | found => Some (default 0 (counts !! t) + length found)
      end.
Proof.
  induction es as [|e es IH]; intros counts t; [done|].
  cbn [count_types List.filter]. rewrite IH.
  destruct (decide (type e = t)) as [<-|Hne].
  - rewrite bool_decide_eq_true_2 by done. rewrite lookup_insert_eq.
    destruct (List.filter (fun e0 => bool_decide (type e0 = type e)) es);
      simpl; f_equal; lia.
  - rewrite bool_decide_eq_false_2 by done.
    by rewrite lookup_insert_ne.
Qed.

(** The sum of the counts. *)
Definition total_count (counts : gmap EntityType nat) : nat :=
  map_fold (fun _ n acc => n + acc) 0 counts.

Lemma total_count_insert (counts : gmap EntityType nat) (t : EntityType)
    (n : nat) :
  total_count (<[t := n]> counts) + default 0 (counts !! t)
  = total_count counts + n.
Proof.
  unfold total_count.
  destruct (counts !! t) as [m|] eqn:Ht.
  - rewrite <- (insert_delete_id counts t m Ht) at 2.
    rewrite <- insert_delete_eq.
    rewrite !map_fold_insert_L; try (by rewrite lookup_delete_eq);
      try (intros; lia).
    simpl. lia.
  - rewrite map_fold_insert_L; [simpl; lia|intros; lia|done].
Qed.

Lemma count_types_total (es : list DetectedEntity) :
  forall counts : gmap EntityType nat,
    total_count (count_types counts es) = total_count counts + length es.
Proof.
  induction es as [|e es IH]; intros counts; simpl; [lia|].
  rewrite IH.
  pose proof (total_count_insert counts (type e)
                (default 0 (counts !! type e) + 1)).
  lia.
Qed.

(** X29.  [get_entity_types] has an entry exactly for the types that occur among
    the entities, with the number of entities [get_entities_by_type] returns
    for the type; the counts add up to [get_entity_count]. *)
Theorem get_entity_types_counts (r : PipelineResult) :
  (forall t n,
     get_entity_types r !! t = Some n
     <-> 0 < n /\ n = length (get_entities_by_type r t))
  /\ total_count (get_entity_types r) = get_entity_count r.
Proof.
  split.
  - intros t n. unfold get_entity_types, get_entities_by_type.
    rewrite count_types_lookup, lookup_empty.
    destruct (List.filter (fun e => bool_decide (type e = t)) (entities r))
      as [|e found]; simpl.
    + split; [done|lia].
    + split; [intros [= <-]; lia|intros [_ ->]; done].
  - unfold get_entity_types, get_entity_count.
    rewrite count_types_total. unfold total_count.
    by rewrite map_fold_empty.
Qed.

End entity_counts.

(** ** Winner selection *)

Section float_order.

Import pyfloat.








End float_order.

Section selector_facts.

Import pyfloat selector.







End selector_facts.



Section select_winner_facts.

Import pyfloat selector.



End select_winner_facts.


Section selector_repeats.

Import pyfloat selector.

Variable s : WinnerSelector.





End selector_repeats.

(** *** Concrete selections *)

(** A stand-in for [math.exp] to run the selector on concrete results: the
    exponential series up to the twelfth power, in floats. *)
Fixpoint exp_terms (n : nat) (x term : pyfloat.float) (k : positive)
    : pyfloat.float :=
  match n with
  | O => term
  | S n' =>
      pyfloat.add term
        (exp_terms n' x
           (SFdiv pyfloat.prec pyfloat.emax (pyfloat.mul term x)
              (pyfloat.ratio false k 1))
           (k + 1))
  end.

Definition exp_series (x : pyfloat.float) : result pyfloat.float :=
  ret (exp_terms 12 x pyfloat.one 1).

(** The selector with the default weights and target. *)
Definition default_selector (math_exp : pyfloat.float -> result pyfloat.float)
    : selector.WinnerSelector :=
  {| selector.weights := selector.default_weights;
     selector.latency_target_ms := 500;
     selector.math_exp := math_exp |}.

(** [Decimal('0.dddd')] *)
Definition decimal4 (n : N) : option pyfloat.Decimal :=
  Some (pyfloat.Finite false n (-4)).

(** Two engines with the same metrics. *)
Definition same_metrics (engine : string) : selector.BenchmarkResult :=
  {| selector.engine := engine;
     selector.f1_score := decimal4 9000;
     selector.precision := decimal4 9000;
     selector.recall := decimal4 9000;
     selector.p95_latency_ms := Some 400%Z |}.


(** A slow engine with the better metrics, and a fast one. *)
Definition slow_accurate : selector.BenchmarkResult :=
  {| selector.engine := "spacy";
     selector.f1_score := decimal4 9500;
     selector.precision := decimal4 9794;
     selector.recall := decimal4 9500;
     selector.p95_latency_ms := Some 1000%Z |}.



(** The first result of "spacy" is the best of the list, but a later result
    of the same engine replaces it. *)
Definition repeated_engine : list selector.BenchmarkResult :=
  [ {| selector.engine := "spacy"; selector.f1_score := decimal4 10000;
       selector.precision := decimal4 10000;
       selector.recall := decimal4 10000;
       selector.p95_latency_ms := Some 400%Z |};
    same_metrics "presidio";
    {| selector.engine := "spacy"; selector.f1_score := decimal4 5000;
       selector.precision := decimal4 5000;
       selector.recall := decimal4 5000;
       selector.p95_latency_ms := Some 400%Z |} ].


(** The runs behind the two lemmas above: the fast engine wins although the
    slow one has the better metrics, and "presidio" wins once the later
    result of "spacy" has replaced the earlier one. *)
Lemma select_winner_runs :
  selector.select_winner (default_selector exp_series)
    [slow_accurate; same_metrics "presidio"; same_metrics "hybrid"]
  = inr "presidio"
  /\ selector.select_winner (default_selector exp_series) repeated_engine
     = inr "presidio"
  /\ selector.select_winner
       {| selector.weights := selector.default_weights;
          selector.latency_target_ms := 0;
          selector.math_exp := exp_series |}
       [same_metrics "spacy"]
     = inl (ZeroDivisionError "division by zero").
Proof. repeat split; vm_compute; reflexivity. Qed.
